(** * svg-present: the slide splitter of [svg_present/__init__.py]

    A shallow embedding of the style mini-language ([css_to_dict],
    [dict_to_css]), of the inlining of [<use>] references
    ([load_presentation]), of the layer tree ([Tree], [layer]), of the
    visibility walk ([Tree.__iter__]) and of the incremental writer
    ([Tree.write]), followed by the properties of the specification that
    were checked against them.

    Python objects are modelled with their identity: [Element] objects live
    in a store indexed by locations, [Tree] objects carry an object id and
    keep their mutable [_visible] flag in a store of flags.  A Python [str]
    is a Rocq [string] whose characters are the code points below 256. *)

From Stdlib Require Import Ascii String NArith.
From stdpp Require Import base option list strings gmap fin_maps sorting pretty.

#[local] Set Warnings "-register-all".

(** ** Exceptions *)

Inductive exn : Type :=
| ValueError   (* unpacking the wrong number of values, list.remove(x) *)
| IndexError   (* subscript of an empty string *)
| ParseError.  (* ElementTree.parse on a file that is not XML *)

Inductive result (A : Type) : Type :=
| Ok (a : A)
| Raise (e : exn).
Arguments Ok {A} a.
Arguments Raise {A} e.

Definition bind {A B} (r : result A) (k : A → result B) : result B :=
  match r with
  | Ok a => k a
  | Raise e => Raise e
  end.

Notation "x ←! r ; k" := (bind r (λ x, k))
  (at level 20, r at level 100, k at level 200, right associativity,
   format "x  ←!  r ;  '/' k").

(** ** Python strings *)

Module Str.

(** [str.isspace] on the code points below 256. *)
Definition is_space (c : ascii) : bool :=
  let n := N_of_ascii c in
  ((9 <=? n) && (n <=? 13) || (28 <=? n) && (n <=? 32)
   || (n =? 133) || (n =? 160))%N.

(** [s.split(sep)] for a separator of one character. *)
Fixpoint split (sep : ascii) (s : string) : list string :=
  match s with
  | EmptyString => [EmptyString]
  | String c s' =>
      if decide (c = sep) then EmptyString :: split sep s'
      else match split sep s' with
           | [] => [String c EmptyString]
           | x :: xs => String c x :: xs
           end
  end.

Fixpoint lstrip (s : string) : string :=
  match s with
  | EmptyString => EmptyString
  | String c s' => if is_space c then lstrip s' else s
  end.

Fixpoint rstrip (s : string) : string :=
  match s with
  | EmptyString => EmptyString
  | String c s' =>
      match rstrip s' with
      | EmptyString => if is_space c then EmptyString else String c EmptyString
      | r => String c r
      end
  end.

(** [s.strip()] *)
Definition strip (s : string) : string := rstrip (lstrip s).

(** [sep.join(l)] *)
Fixpoint join (sep : string) (l : list string) : string :=
  match l with
  | [] => EmptyString
  | [x] => x
  | x :: l' => x +:+ sep +:+ join sep l'
  end.

(** [c in s] *)
Fixpoint contains (c : ascii) (s : string) : Prop :=
  match s with
  | EmptyString => False
  | String c' s' => c = c' ∨ contains c s'
  end.

(** [s[0]] and [s[-1]]: an [IndexError] on the empty string. *)
Definition first (s : string) : result ascii :=
  match s with
  | EmptyString => Raise IndexError
  | String c _ => Ok c
  end.

Fixpoint last (s : string) : result ascii :=
  match s with
  | EmptyString => Raise IndexError
  | String c EmptyString => Ok c
  | String _ s' => last s'
  end.

End Str.

(** ** Python dictionaries from [str] to [str]

    A [dict] keeps its keys in the order of their first insertion;
    assigning to a key that is present replaces the value in place. *)

Module Dict.

Definition t : Type := list (string * string).

(** [d.get(k)] *)
Fixpoint get (k : string) (d : t) : option string :=
  match d with
  | [] => None
  | (k', v) :: d' => if decide (k = k') then Some v else get k d'
  end.

(** [d[k] = v] *)
Fixpoint set (k v : string) (d : t) : t :=
  match d with
  | [] => [(k, v)]
  | (k', v') :: d' =>
      if decide (k = k') then (k, v) :: d' else (k', v') :: set k v d'
  end.

(** [d.update(other)] *)
Definition update (d other : t) : t :=
  foldl (λ acc kv, set kv.1 kv.2 acc) d other.

Definition keys (d : t) : list string := d.*1.

End Dict.

(** ** The style mini-language *)

(** [css_to_dict], the body of its [for] loop: the entry is split on every
    [:], and the unpacking [key, value = ...] raises [ValueError] unless
    that gives exactly two parts. *)
Definition css_entry (entry : string) : result (string * string) :=
  match Str.strip <$> Str.split ":" entry with
  | [key; value] => Ok (key, value)
  | _ => Raise ValueError
  end.

Fixpoint css_loop (entries : list string) (res : Dict.t) : result Dict.t :=
  match entries with
  | [] => Ok res
  | entry :: entries' =>
      kv ←! css_entry entry;
      css_loop entries' (Dict.set kv.1 kv.2 res)
  end.

Definition css_to_dict (css : string) : result Dict.t :=
  if decide (css = EmptyString) then Ok []
  else css_loop (Str.split ";" css) [].

Definition dict_to_css (d : Dict.t) : string :=
  Str.join "; " ((λ kv, kv.1 +:+ ": " +:+ kv.2) <$> d).

(** The pairs that the loop of [css_to_dict] reads, one per segment. *)
Definition css_pairs (css : string) : list (result (string * string)) :=
  if decide (css = EmptyString) then [] else css_entry <$> Str.split ";" css.

(** The specification's [parse] in its own words (section 4.1): split on
    [;], skip the empty segments, split every other segment on its first
    [:], trim both sides; a segment without [:] is malformed. *)
Fixpoint split_first (sep : ascii) (s : string) : option (string * string) :=
  match s with
  | EmptyString => None
  | String c s' =>
      if decide (c = sep) then Some (EmptyString, s')
      else (λ ab, (String c ab.1, ab.2)) <$> split_first sep s'
  end.

Definition spec_entry (segment : string) : result (string * string) :=
  match split_first ":" segment with
  | Some (key, value) => Ok (Str.strip key, Str.strip value)
  | None => Raise ValueError
  end.

Fixpoint spec_loop (segments : list string) (res : Dict.t) : result Dict.t :=
  match segments with
  | [] => Ok res
  | segment :: segments' =>
      if decide (segment = EmptyString) then spec_loop segments' res
      else kv ←! spec_entry segment;
           spec_loop segments' (Dict.set kv.1 kv.2 res)
  end.

Definition parse_spec (s : string) : result Dict.t :=
  spec_loop (Str.split ";" s) [].

(** The number of occurrences of a character in a string. *)
Fixpoint count (sep : ascii) (s : string) : nat :=
  match s with
  | EmptyString => 0
  | String c s' => (if decide (c = sep) then 1 else 0) + count sep s'
  end.

(** What a key or a value of a parsed style looks like: trimmed, and free
    of both separators. *)
Definition clean (s : string) : Prop :=
  Str.strip s = s ∧ ¬ Str.contains ":" s ∧ ¬ Str.contains ";" s.

Definition clean_pair (kv : string * string) : Prop := clean kv.1 ∧ clean kv.2.

(** One pair as [dict_to_css] prints it. *)
Definition ser (kv : string * string) : string := kv.1 +:+ ": " +:+ kv.2.

(** ** The inlined copy of a [<use>] reference

    [load_presentation], the body of its loop over the [<use>] elements
    from [new_node = copy.deepcopy(link_target)] to the conversion of a
    symbol into a group: the attributes and the tag of [new_node], given
    the attributes of the reference [x] and the target [link_target]. *)

Definition svg_ns : string := "http://www.w3.org/2000/svg".
Definition symbol : string := "{" +:+ svg_ns +:+ "}symbol".
Definition group : string := "{" +:+ svg_ns +:+ "}g".

(** [x.attrib.get(key, 0)] put through [str.format]. *)
Definition coord (key : string) (x_attrib : Dict.t) : string :=
  default "0" (Dict.get key x_attrib).

Definition use_transform (x_attrib target_attrib : Dict.t) : string :=
  let transform :=
    [Dict.get "transform" x_attrib]
    ++ (if bool_decide (is_Some (Dict.get "x" x_attrib)
                        ∨ is_Some (Dict.get "y" x_attrib))
        then [Some ("translate(" +:+ coord "x" x_attrib +:+ ","
                    +:+ coord "y" x_attrib +:+ ")")]
        else [])
    ++ [Dict.get "transform" target_attrib] in
  Str.join " " (omap id transform).

Definition use_style (x_attrib target_attrib : Dict.t) : result string :=
  let use_css := default EmptyString (Dict.get "style" x_attrib) in
  let target_css := default EmptyString (Dict.get "style" target_attrib) in
  use_css ←! css_to_dict use_css;
  target_css ←! css_to_dict target_css;
  Ok (dict_to_css (Dict.update use_css target_css)).

Definition new_node (x_attrib : Dict.t) (target_tag : string)
    (target_attrib : Dict.t) : result (string * Dict.t) :=
  let attrib :=
    Dict.set "transform" (use_transform x_attrib target_attrib) target_attrib in
  style ←! use_style x_attrib target_attrib;
  let attrib := Dict.set "style" style attrib in
  Ok (if decide (target_tag = symbol) then group else target_tag, attrib).

(** ** Element objects *)

Definition loc : Type := nat.

(** An [xml.etree.ElementTree.Element]; [_children] holds references. *)
Record Element : Type := mkElement {
  tag : string;
  attrib : Dict.t;
  text : option string;
  tail : option string;
  _children : list loc;
}.

Abbreviation heap := (gmap loc Element).

(** A document as a value: what a parser returns and a serializer reads. *)
Inductive xml : Type :=
| Xml (x_tag : string) (x_attrib : Dict.t) (x_text x_tail : option string)
      (x_children : list xml).

(** The objects reachable from an element, with their locations. *)
Inductive etree : Type :=
| ENode (l : loc) (e : Element) (kids : list etree).

Definition root_loc (t : etree) : loc := let 'ENode l _ _ := t in l.
Definition root_elem (t : etree) : Element := let 'ENode _ e _ := t in e.

Fixpoint erase (t : etree) : xml :=
  let 'ENode _ e kids := t in
  Xml (tag e) (attrib e) (text e) (tail e) (erase <$> kids).

(** [element.iter()]: the element and its descendants in document order. *)
Fixpoint preorder (t : etree) : list etree :=
  let 'ENode _ _ kids := t in t :: flat_map preorder kids.

Fixpoint depth (t : etree) : nat :=
  let 'ENode _ _ kids := t in S (max_list (depth <$> kids)).

(** Reading the object graph below [l]; [None] when the fuel runs out or
    a reference dangles. *)
Fixpoint subtree (fuel : nat) (h : heap) (l : loc) : option etree :=
  match fuel with
  | 0 => None
  | S fuel' =>
      e ← h !! l;
      kids ← mapM (subtree fuel' h) (_children e);
      Some (ENode l e kids)
  end.

(** [element.get(key)] and [len(element)] through a reference. *)
Definition elem_get (h : heap) (l : loc) (key : string) : option string :=
  e ← h !! l; Dict.get key (attrib e).

Definition elem_children (h : heap) (l : loc) : list loc :=
  from_option _children [] (h !! l).

(** [bool(element)], the test of [if self.element:] in the setter of
    [visible]: [Element.__bool__] is [len(self) != 0], so an element
    without child elements is false, like [None]. *)
Definition elem_truthy (h : heap) (l : loc) : bool :=
  bool_decide (elem_children h l ≠ []).

(** [element.set(key, value)] *)
Definition elem_set (l : loc) (key value : string) (h : heap) : heap :=
  alter (λ e, mkElement (tag e) (Dict.set key value (attrib e))
                        (text e) (tail e) (_children e)) l h.

(** [copy.deepcopy] of a document value into fresh objects.  Documents
    are trees: [ElementTree.parse] and the inlining of references give
    every element one parent, so a copy shares nothing. *)
Fixpoint alloc (x : xml) (h : heap) : loc * heap :=
  let 'Xml tg a tx tl cs := x in
  let '(ls, h') :=
    (fix alloc_list (cs : list xml) (h : heap) : list loc * heap :=
       match cs with
       | [] => ([], h)
       | c :: cs' =>
           let '(l, h1) := alloc c h in
           let '(ls, h2) := alloc_list cs' h1 in
           (l :: ls, h2)
       end) cs h in
  let l := fresh (dom h') in
  (l, <[l := mkElement tg a tx tl ls]> h').

Definition deepcopy (fuel : nat) (h : heap) (l : loc) : option (loc * heap) :=
  t ← subtree fuel h l; Some (alloc (erase t) h).

(** ** Layer trees *)

Definition oid : Type := nat.

(** A [Tree] object.  Its [_visible] attribute is mutable and lives in the
    store, under the object's identity [t_id]; [tree] is the root element
    of the [ElementTree] it holds. *)
Inductive Tree : Type :=
| mkTree (t_id : oid) (children : list Tree) (element : option loc)
         (tree : option loc).

Definition t_id (t : Tree) : oid := let 'mkTree o _ _ _ := t in o.
Definition children (t : Tree) : list Tree := let 'mkTree _ cs _ _ := t in cs.
Definition element (t : Tree) : option loc := let 'mkTree _ _ e _ := t in e.
Definition tree (t : Tree) : option loc := let 'mkTree _ _ _ d := t in d.

Record Store : Type := mkStore {
  elements : gmap loc Element;
  flags : gmap oid bool;
}.

Definition hidden_marker : string := "display:none".
Definition shown_marker : string := "display:inline".

(** [Tree(element)]: a new object with [_visible = False]. *)
Definition Tree_init (element : option loc) (s : Store) : Tree * Store :=
  let o := fresh (dom (flags s)) in
  (mkTree o [] element None, mkStore (elements s) (<[o := false]> (flags s))).

(** The property [visible]. *)
Definition visible (self : Tree) (s : Store) : bool :=
  default false (flags s !! t_id self).

(** The setter of [visible]. *)
Definition set_visible (self : Tree) (value : bool) (s : Store) : Store :=
  let fl := <[t_id self := value]> (flags s) in
  match element self with
  | Some l =>
      if elem_truthy (elements s) l then
        mkStore (elem_set l "style"
                   (if value then shown_marker else hidden_marker) (elements s))
                fl
      else mkStore (elements s) fl
  | None => mkStore (elements s) fl
  end.

(** [Tree.__iter__]: the yielded nodes, each with the store as it is at
    the moment of the yield, and the store when the generator is exhausted.
    The consumer of the generator is taken not to touch the store between
    two yields. *)
Fixpoint iter (self : Tree) (s : Store) : list (Tree * Store) * Store :=
  let s1 := set_visible self true s in
  let here := if decide (children self = []) then [(self, s1)] else [] in
  let '(ys, s2) :=
    (let 'mkTree _ cs _ _ := self in
     (fix each (cs : list Tree) (s : Store) : list (Tree * Store) * Store :=
        match cs with
        | [] => ([], s)
        | child :: cs' =>
            let '(ys, s') := iter child s in
            let '(ys', s'') := each cs' s' in
            (ys ++ ys', s'')
        end) cs s1) in
  (here ++ ys, set_visible self false s2).

Definition inkscape (name : string) : string :=
  "{http://www.inkscape.org/namespaces/inkscape}" +:+ name.

(** [label[0] == "(" and label[-1] == ")"] *)
Definition parenthesized (label : string) : result bool :=
  c ←! Str.first label;
  if decide (c = "("%char) then
    d ←! Str.last label; Ok (bool_decide (d = ")"%char))
  else Ok false.

(** [layer]; [None] when the fuel runs out or a reference dangles. *)
Fixpoint layer (fuel : nat) (element : loc) (s : Store)
    : option (result (option Tree * Store)) :=
  match fuel with
  | 0 => None
  | S fuel' =>
      e ← elements s !! element;
      if decide (Dict.get (inkscape "groupmode") (attrib e) ≠ Some "layer")
      then Some (Ok (None, s))
      else
        match Dict.get (inkscape "label") (attrib e) with
        | None => Some (Ok (None, s))
        | Some label =>
            match parenthesized label with
            | Raise err => Some (Raise err)
            | Ok true => Some (Ok (None, s))
            | Ok false =>
                let '(tree, s) := Tree_init (Some element) s in
                let s := set_visible tree false s in
                (fix each (cs : list loc) (acc : list Tree) (s : Store) :=
                   match cs with
                   | [] => Some (Ok (Some (mkTree (t_id tree) acc
                                             (Some element) None), s))
                   | child :: cs' =>
                       match layer fuel' child s with
                       | None => None
                       | Some (Raise err) => Some (Raise err)
                       | Some (Ok (Some subtree, s')) =>
                           each cs' (acc ++ [subtree]) s'
                       | Some (Ok (None, s')) => each cs' acc s'
                       end
                   end) (_children e) [] s
            end
        end
  end.

(** [load_presentation], from [slides = Tree()] on: the layer tree of a
    document whose root element, parsed and with its references inlined,
    is [root]. *)
Definition load_presentation (fuel : nat) (root : loc) (s : Store)
    : option (result (Tree * Store)) :=
  let '(slides, s) := Tree_init None s in
  (fix each (cs : list loc) (acc : list Tree) (s : Store) :=
     match cs with
     | [] => Some (Ok (mkTree (t_id slides) acc None (Some root), s))
     | child :: cs' =>
         match layer fuel child s with
         | None => None
         | Some (Raise err) => Some (Raise err)
         | Some (Ok (Some sub_slides, s')) => each cs' (acc ++ [sub_slides]) s'
         | Some (Ok (None, s')) => each cs' acc s'
         end
     end) (elem_children (elements s) root) [] s.

(** [main], its first loop: the forest of the documents [roots]. *)
Definition main_load (fuel : nat) (roots : list loc) (s : Store)
    : option (result (Tree * Store)) :=
  let '(presentation, s) := Tree_init None s in
  (fix each (roots : list loc) (acc : list Tree) (s : Store) :=
     match roots with
     | [] => Some (Ok (mkTree (t_id presentation) acc None None, s))
     | file :: roots' =>
         match load_presentation fuel file s with
         | None => None
         | Some (Raise err) => Some (Raise err)
         | Some (Ok (sub_presentation, s')) =>
             each roots' (acc ++ [sub_presentation]) s'
         end
     end) roots [] s.

(** ** The incremental writer *)

(** [elem.get("style") == "display:none"], the predicate of both paths. *)
Definition is_hidden (e : Element) : bool :=
  bool_decide (Dict.get "style" (attrib e) = Some hidden_marker).

Definition hidden_at (h : heap) (l : loc) : bool :=
  from_option is_hidden false (h !! l).

(** The parent map of [ElementPath]: [{e: p for p in root.iter() for e in p}]. *)
Definition parent_map (t : etree) : gmap loc loc :=
  foldl (λ m p, foldl (λ m e, <[e := root_loc p]> m) m
                      (_children (root_elem p)))
        ∅ (preorder t).

(** The parents are yielded once each, in the order of their first hit. *)
Fixpoint dedup_first `{EqDecision A} (seen : list A) (l : list A) : list A :=
  match l with
  | [] => []
  | x :: l' =>
      if decide (x ∈ seen) then dedup_first seen l'
      else x :: dedup_first (x :: seen) l'
  end.

(** [root.findall(".//*[@style='display:none']..")] *)
Definition findall_hidden_parents (fuel : nat) (h : heap) (root : loc)
    : option (list loc) :=
  t ← subtree fuel h root;
  let descendants := filter (λ e, root_loc e ≠ root) (preorder t) in
  let hits := filter (λ e, is_hidden (root_elem e)) descendants in
  Some (dedup_first [] (omap (λ e, parent_map t !! root_loc e) hits)).

(** [parent.findall(".*[@style='display:none']")] *)
Definition findall_hidden_children (h : heap) (parent : loc) : list loc :=
  filter (λ c, hidden_at h c) (elem_children h parent).

(** [list.remove]: the first occurrence, by identity. *)
Fixpoint remove_first (x : loc) (l : list loc) : option (list loc) :=
  match l with
  | [] => None
  | y :: l' => if decide (x = y) then Some l' else (y ::.) <$> remove_first x l'
  end.

(** The element [e] with the list of children [cs]. *)
Definition with_children (e : Element) (cs : list loc) : Element :=
  mkElement (tag e) (attrib e) (text e) (tail e) cs.

(** [parent.remove(node)]: a [ValueError] when [node] is not a child. *)
Definition elem_remove (parent node : loc) (h : heap) : result heap :=
  match h !! parent with
  | Some e =>
      match remove_first node (_children e) with
      | Some cs => Ok (<[parent := with_children e cs]> h)
      | None => Raise ValueError
      end
  | None => Raise ValueError
  end.

Fixpoint remove_nodes (parent : loc) (nodes : list loc) (h : heap)
    : result unit * heap :=
  match nodes with
  | [] => (Ok (), h)
  | node :: nodes' =>
      match elem_remove parent node h with
      | Ok h' => remove_nodes parent nodes' h'
      | Raise err => (Raise err, h)
      end
  end.

(** The two nested loops of [write]. *)
Fixpoint prune (parents : list loc) (h : heap) : result unit * heap :=
  match parents with
  | [] => (Ok (), h)
  | parent :: parents' =>
      match remove_nodes parent (findall_hidden_children h parent) h with
      | (Ok _, h') => prune parents' h'
      | (Raise err, h') => (Raise err, h')
      end
  end.

(** The filtered copy: [write] from [copy.deepcopy] to the end of the
    pruning loops. *)
Definition filtered_copy (fuel : nat) (h : heap) (doc : loc)
    : option (result loc * heap) :=
  '(root, h1) ← deepcopy fuel h doc;
  parents ← findall_hidden_parents fuel h1 root;
  match prune parents h1 with
  | (Ok _, h2) => Some (Ok root, h2)
  | (Raise err, h2) => Some (Raise err, h2)
  end.

Section Writer.

(** [ElementTree.tostring] and [ElementTree.parse] are the library's. *)
Context {bytes : Type} `{EqDecision bytes}.
Variable tostring : xml → bytes.
Variable parse : bytes → option xml.

Abbreviation fs := (gmap string bytes).

(** [write], the body of its loop for a child that is visible and has a
    document.  The root parsed from [path] is only serialized again, so
    it is kept as a value; [tree.write(path)] and [tostring(root)] use
    the same encoding and produce the same bytes. *)
Definition write_child (fuel : nat) (doc : loc) (path : string)
    (s : Store) (files : fs) : option (result bool * Store * fs) :=
  '(r, h2) ← filtered_copy fuel (elements s) doc;
  let s2 := mkStore h2 (flags s) in
  match r with
  | Raise err => Some (Raise err, s2, files)
  | Ok root =>
      new ← erase <$> subtree fuel h2 root;
      match files !! path with
      | Some content =>
          match parse content with
          | None => Some (Raise ParseError, s2, files)
          | Some old =>
              if decide (tostring old = tostring new)
              then Some (Ok false, s2, files)
              else Some (Ok true, s2, <[path := tostring new]> files)
          end
      | None => Some (Ok true, s2, <[path := tostring new]> files)
      end
  end.

(** [Tree.write]: [false] is [Unchanged], [true] is [Changed]. *)
Definition write (fuel : nat) (self : Tree) (path : string)
    (s : Store) (files : fs) : option (result bool * Store * fs) :=
  (fix each (cs : list Tree) :=
     match cs with
     | [] => Some (Ok false, s, files)
     | child :: cs' =>
         match visible child s, tree child with
         | true, Some doc => write_child fuel doc path s files
         | _, _ => each cs'
         end
     end) (children self).

End Writer.

(** ** Small documents to run the model on *)

Definition layer_xml (label : string) (style : option string)
    (content : list xml) : xml :=
  Xml group
      ([(inkscape "groupmode", "layer"); (inkscape "label", label)]
       ++ from_option (λ v, [("style", v)]) [] style)
      None None content.

Definition path_xml : xml := Xml ("{" +:+ svg_ns +:+ "}path") [] None None [].

Definition svg_xml (content : list xml) : xml :=
  Xml ("{" +:+ svg_ns +:+ "}svg") [] None None content.

Definition empty_store : Store := mkStore ∅ ∅.

(** A document with the layers [a] (one path) and [b] (no child element,
    and the style that Inkscape gives to a layer that is shown). *)
Definition doc_ab : xml :=
  svg_xml [layer_xml "a" None [path_xml];
           layer_xml "b" (Some shown_marker) []].

Definition store_of (x : xml) : loc * Store :=
  let '(l, h) := alloc x ∅ in (l, mkStore h ∅).

(** ** Vocabulary of the claims on layer trees *)

(** The loop [for child in self.children: yield from child]. *)
Fixpoint iter_children (cs : list Tree) (s : Store)
    : list (Tree * Store) * Store :=
  match cs with
  | [] => ([], s)
  | child :: cs' =>
      let '(ys, s') := iter child s in
      let '(ys', s'') := iter_children cs' s' in
      (ys ++ ys', s'')
  end.

(** The nodes of a tree, in pre-order. *)
Fixpoint nodes (t : Tree) : list Tree :=
  let 'mkTree _ cs _ _ := t in t :: flat_map nodes cs.

Definition oids (t : Tree) : list oid := t_id <$> nodes t.

(** The leaves of a tree, the nodes without children, in pre-order. *)
Fixpoint leaves (t : Tree) : list Tree :=
  let 'mkTree _ cs _ _ := t in
  if decide (cs = []) then [t] else flat_map leaves cs.

(** The chain from the root of [t] down to the node [o], ends included;
    empty when [o] is not a node of [t]. *)
Fixpoint chain (t : Tree) (o : oid) : list oid :=
  let 'mkTree i cs _ _ := t in
  if decide (i = o) then [i]
  else match flat_map (λ c, chain c o) cs with
       | [] => []
       | p => i :: p
       end.

(** The state of the flags during a walk that starts with every flag of
    the tree false: at a yield the chain to the yielded leaf is true and
    nothing else has changed; at the end nothing has changed. *)
Definition walk_flags (t : Tree) : Prop :=
  NoDup (oids t) →
  ∀ s, (∀ o, o ∈ oids t → flags s !! o = Some false) →
    flags (iter t s).2 = flags s
    ∧ ∀ leaf sy, (leaf, sy) ∈ (iter t s).1 →
        t_id leaf ∈ oids t
        ∧ ∀ o, flags sy !! o
               = if decide (o ∈ chain t (t_id leaf)) then Some true
                 else flags s !! o.

(** ** Vocabulary of the claims on the builder *)

(** The loop [for child in element: if subtree := layer(child): ...]. *)
Fixpoint layer_children (fuel : nat) (cs : list loc) (acc : list Tree)
    (s : Store) : option (result (list Tree * Store)) :=
  match cs with
  | [] => Some (Ok (acc, s))
  | child :: cs' =>
      match layer fuel child s with
      | None => None
      | Some (Raise err) => Some (Raise err)
      | Some (Ok (Some subtree, s')) =>
          layer_children fuel cs' (acc ++ [subtree]) s'
      | Some (Ok (None, s')) => layer_children fuel cs' acc s'
      end
  end.

(** The loop [for file in ...: presentation.children.append(...)]. *)
Fixpoint load_all (fuel : nat) (roots : list loc) (acc : list Tree)
    (s : Store) : option (result (list Tree * Store)) :=
  match roots with
  | [] => Some (Ok (acc, s))
  | file :: roots' =>
      match load_presentation fuel file s with
      | None => None
      | Some (Raise err) => Some (Raise err)
      | Some (Ok (sub_presentation, s')) =>
          load_all fuel roots' (acc ++ [sub_presentation]) s'
      end
  end.

(** The trees [ts] are new in [s'] with respect to [s]: their objects are
    distinct, did not exist in [s], have [_visible = False] in [s'], and
    no other flag has changed. *)
Definition built (ts : list Tree) (s s' : Store) : Prop :=
  NoDup (flat_map oids ts)
  ∧ (∀ o, o ∈ flat_map oids ts →
          flags s !! o = None ∧ flags s' !! o = Some false)
  ∧ (∀ o, o ∉ flat_map oids ts → flags s' !! o = flags s !! o).

Definition has_element (n : Tree) : Prop := is_Some (element n).

(** What [layer] does to the store of flags. *)
Definition layer_ok (fuel : nat) : Prop :=
  ∀ el s r s', layer fuel el s = Some (Ok (r, s')) →
    match r with
    | Some t => built [t] s s' ∧ Forall has_element (nodes t)
    | None => s' = s
    end.

(** A document root of the forest: no element, a document, and below it
    only nodes with an element. *)
Definition document_root (c : Tree) : Prop :=
  element c = None ∧ is_Some (tree c)
  ∧ Forall has_element (flat_map nodes (children c)).

(** ** Vocabulary of the claims on the writer *)

Definition kids (t : etree) : list etree := let 'ENode _ _ ks := t in ks.

(** The locations of the objects of a tree, in document order. *)
Definition locs (t : etree) : list loc := root_loc <$> preorder t.

(** The store [h] holds the objects of [t], linked as in [t]. *)
Inductive repr (h : heap) : etree → Prop :=
| repr_node l e ks :
    h !! l = Some e →
    _children e = root_loc <$> ks →
    Forall (repr h) ks →
    repr h (ENode l e ks).

Fixpoint xml_depth (x : xml) : nat :=
  let 'Xml _ _ _ _ cs := x in S (max_list (xml_depth <$> cs)).

(** The loop of [alloc] over the children. *)
Fixpoint alloc_list (cs : list xml) (h : heap) : list loc * heap :=
  match cs with
  | [] => ([], h)
  | c :: cs' =>
      let '(l, h1) := alloc c h in
      let '(ls, h2) := alloc_list cs' h1 in
      (l :: ls, h2)
  end.

Definition xml_hidden (x : xml) : bool :=
  let 'Xml _ a _ _ _ := x in
  bool_decide (Dict.get "style" a = Some hidden_marker).

(** The filtered document: the root stays; below an element that stays,
    a child whose own style is the hidden marker goes, with all that it
    contains, and every other child stays. *)
Fixpoint prune_xml (x : xml) : xml :=
  let 'Xml tg a tx tl cs := x in
  Xml tg a tx tl
      ((fix each (cs : list xml) : list xml :=
          match cs with
          | [] => []
          | c :: cs' =>
              if xml_hidden c then each cs' else prune_xml c :: each cs'
          end) cs).

(** The pruning of the specification in its own words (section 4.5): an
    element is removed exactly when its own style is the hidden marker,
    whichever element it is. *)
Fixpoint prune_spec (x : xml) : option xml :=
  let 'Xml tg a tx tl cs := x in
  if xml_hidden x then None
  else Some (Xml tg a tx tl (omap prune_spec cs)).

(** The same filtering on the objects of a tree. *)
Fixpoint prune_etree (t : etree) : etree :=
  let 'ENode l e ks := t in
  let ks' :=
    (fix each (ks : list etree) : list etree :=
       match ks with
       | [] => []
       | k :: ks' =>
           if is_hidden (root_elem k) then each ks'
           else prune_etree k :: each ks'
       end) ks in
  ENode l (with_children e (root_loc <$> ks')) ks'.

(** One turn of the outer loop of [write]: the children of [p] that are
    hidden are taken out of its list. *)
Definition without_hidden (h : heap) (e : Element) : Element :=
  with_children e (filter (λ c, ¬ hidden_at h c) (_children e)).

Definition drop_hidden (h : heap) (p : loc) : heap :=
  match h !! p with
  | Some e => <[p := without_hidden h e]> h
  | None => h
  end.

(** Removing a list of nodes from a list of children, one by one. *)
Fixpoint remove_list (nodes cs : list loc) : option (list loc) :=
  match nodes with
  | [] => Some cs
  | n :: nodes' => cs1 ← remove_first n cs; remove_list nodes' cs1
  end.

(** The pairs that [parent_map] inserts, in order. *)
Definition parent_pairs (t : etree) : list (loc * loc) :=
  flat_map (λ p, (λ c, (c, root_loc p)) <$> _children (root_elem p))
           (preorder t).

(** The first child that is visible and has a document: the one that
    [write] works on. *)
Fixpoint visible_doc (cs : list Tree) (s : Store) : option loc :=
  match cs with
  | [] => None
  | child :: cs' =>
      match visible child s, tree child with
      | true, Some doc => Some doc
      | _, _ => visible_doc cs' s
      end
  end.

(** What [alloc] does to a store: the copy is a tree of new objects, and
    nothing else changes. *)
Definition copied (ks : list etree) (h h' : heap) : Prop :=
  Forall (repr h') ks
  ∧ NoDup (flat_map locs ks)
  ∧ (∀ l, l ∈ flat_map locs ks → h !! l = None)
  ∧ (∀ l, l ∉ flat_map locs ks → h' !! l = h !! l).

Definition alloc_ok (x : xml) : Prop :=
  ∀ h, ∃ t, root_loc t = (alloc x h).1 ∧ erase t = x
            ∧ copied [t] h (alloc x h).2.

(** What [write] does with the cache slot, in the words of the
    specification (section 4.5), once the filtered document [new] is
    known: nothing is written when the slot holds a document with the same
    serialization, the slot is overwritten otherwise. *)
Definition slot_result {bytes : Type} `{EqDecision bytes}
    (tostring : xml → bytes) (parse : bytes → option xml)
    (new : xml) (path : string) (files : gmap string bytes)
    : result bool * gmap string bytes :=
  match files !! path with
  | None => (Ok true, <[path := tostring new]> files)
  | Some content =>
      match parse content with
      | None => (Raise ParseError, files)
      | Some old =>
          if decide (tostring old = tostring new) then (Ok false, files)
          else (Ok true, <[path := tostring new]> files)
      end
  end.

(** Equality of documents is decidable: documents can stand for their own
    serialization. *)
#[global] Instance xml_eq_dec : EqDecision xml.
Proof.
  unfold EqDecision, Decision. fix IH 1.
  intros [t1 a1 x1 l1 c1] [t2 a2 x2 l2 c2].
  destruct (decide (t1 = t2)); [|right; congruence].
  destruct (decide (a1 = a2)); [|right; congruence].
  destruct (decide (x1 = x2)); [|right; congruence].
  destruct (decide (l1 = l2)); [|right; congruence].
  assert ({c1 = c2} + {c1 ≠ c2}) as [Hc|Hc]; [|left; congruence|right; congruence].
  revert c2. induction c1 as [|c c1 IHc]; intros [|c' c2];
    [left; reflexivity|right; discriminate|right; discriminate|].
  destruct (IH c c'); [|right; congruence].
  destruct (IHc c2); [left; congruence|right; congruence].
Defined.

(** A document whose root carries the hidden marker. *)
Definition doc_hidden_root : xml :=
  Xml ("{" +:+ svg_ns +:+ "}svg") [("style", hidden_marker)] None None
      [path_xml].

(** A document with two layers of one path each, the forest that [main]
    builds for it, and the store at the first yield of the walk. *)
Definition doc_two : xml :=
  svg_xml [layer_xml "a" None [path_xml]; layer_xml "b" None [path_xml]].

Definition forest_of (fuel : nat) (x : xml) : option (Tree * Store) :=
  let '(l, s) := store_of x in
  match main_load fuel [l] s with
  | Some (Ok ps) => Some ps
  | _ => None
  end.

Definition first_yield (fuel : nat) (x : xml) : option (Tree * Tree * Store) :=
  '(p, s) ← forest_of fuel x;
  '(leaf, sy) ← head (iter p s).1;
  Some (p, leaf, sy).

Definition two_presentation : Tree := Eval vm_compute in
    from_option (λ r, r.1.1) (mkTree 0 [] None None)
                       (first_yield 4 doc_two).

Definition two_store : Store := Eval vm_compute in
    from_option (λ r, r.2) empty_store (first_yield 4 doc_two).

(** The objects of the document of [two_store], read from its root. *)
Definition two_tree : etree := Eval vm_compute in
    default (ENode 0 (mkElement EmptyString [] None None []) [])
            (subtree 3 (elements two_store) 4).

(** The store of [doc_two] when its forest is built, before the walk. *)
Definition two_built : Store := Eval vm_compute in
    from_option snd empty_store (forest_of 4 doc_two).

(** A layer group whose label is empty. *)
Definition unlabelled_layer : Element :=
  mkElement group
    [(inkscape "groupmode", "layer"); (inkscape "label", EmptyString)]
    None None [].

(** ** Vocabulary of further properties *)

(** A style that [css_to_dict] rejects: not empty, with a segment that
    does not hold exactly one [:]. *)
Definition malformed (css : string) : Prop :=
  css ≠ EmptyString ∧ ∃ seg, seg ∈ Str.split ";" css ∧ count ":" seg ≠ 1.

(** The style attribute as [load_presentation] reads it: [get("style", "")]. *)
Definition style_of (attrib : Dict.t) : string :=
  default EmptyString (Dict.get "style" attrib).

(** Two elements that differ at most in their [style] attribute. *)
Definition same_but_style (e e' : Element) : Prop :=
  tag e' = tag e ∧ text e' = text e ∧ tail e' = tail e
  ∧ _children e' = _children e
  ∧ ∀ k, k ≠ "style" → Dict.get k (attrib e') = Dict.get k (attrib e).

(** Two stores with the same objects, which differ at most in the [style]
    attribute of some. *)
Definition restyled (h h' : heap) : Prop :=
  ∀ l, match h !! l, h' !! l with
       | Some e, Some e' => same_but_style e e'
       | None, None => True
       | _, _ => False
       end.

(** The marker that the setter of [visible] writes. *)
Definition marker_of (value : bool) : string :=
  if value then shown_marker else hidden_marker.

(** The style of every node whose element has children says what its flag
    says. *)
Definition mirrors (t : Tree) (s : Store) : Prop :=
  ∀ n l, n ∈ nodes t → element n = Some l →
         elem_children (elements s) l ≠ [] →
         elem_get (elements s) l "style" = Some (marker_of (visible n s)).

(** A layer tree without the identities of its [Tree] objects. *)
Inductive shape : Type :=
| Shape (sh_element : option loc) (sh_tree : option loc) (subs : list shape).

Fixpoint erase_ids (t : Tree) : shape :=
  let 'mkTree _ cs e d := t in Shape e d (erase_ids <$> cs).

(** The layers of a document, read off the document itself: an element is
    a layer when it has the layer marker and a label that is not in
    parentheses, and its sub-layers are the layers among its child
    elements, in document order. *)
Fixpoint layers (t : etree) : result (option shape) :=
  let 'ENode l e ks := t in
  if decide (Dict.get (inkscape "groupmode") (attrib e) ≠ Some "layer")
  then Ok None
  else
    match Dict.get (inkscape "label") (attrib e) with
    | None => Ok None
    | Some label =>
        match parenthesized label with
        | Raise err => Raise err
        | Ok true => Ok None
        | Ok false =>
            subs ←! (fix each (ks : list etree) : result (list shape) :=
                       match ks with
                       | [] => Ok []
                       | k :: ks' =>
                           r ←! layers k;
                           rest ←! each ks';
                           Ok (from_option (λ sh, [sh]) [] r ++ rest)
                       end) ks;
            Ok (Some (Shape (Some l) None subs))
        end
    end.

Fixpoint layers_list (ks : list etree) : result (list shape) :=
  match ks with
  | [] => Ok []
  | k :: ks' =>
      r ←! layers k;
      rest ←! layers_list ks';
      Ok (from_option (λ sh, [sh]) [] r ++ rest)
  end.




(** An element with the layer marker and an empty label that [layer]
    comes to: the element itself, or one such below a child of a layer. *)
Fixpoint reaches_empty_label (t : etree) : Prop :=
  let 'ENode _ e ks := t in
  Dict.get (inkscape "groupmode") (attrib e) = Some "layer"
  ∧ (Dict.get (inkscape "label") (attrib e) = Some EmptyString
     ∨ ((∃ label, Dict.get (inkscape "label") (attrib e) = Some label
                  ∧ parenthesized label = Ok false)
        ∧ (fix some (ks : list etree) : Prop :=
             match ks with
             | [] => False
             | k :: ks' => reaches_empty_label k ∨ some ks'
             end) ks)).

(** The store [h] holds the objects of [t], up to their styles. *)
Definition repr_restyled (h : heap) (t : etree) : Prop :=
  ∃ h0, repr h0 t ∧ restyled h0 h.

(** The outcome of a builder against the shape read off the document. *)
Definition layer_agrees (h0 : heap) (s : Store) (spec : result (option shape))
    (out : result (option Tree * Store)) : Prop :=
  match spec, out with
  | Raise e, Raise e' => e = e'
  | Ok None, Ok (None, s') => s' = s
  | Ok (Some sh), Ok (Some tr, s') =>
      erase_ids tr = sh ∧ restyled h0 (elements s')
  | _, _ => False
  end.

Definition layers_agree (h0 : heap) (acc : list Tree)
    (spec : result (list shape)) (out : result (list Tree * Store)) : Prop :=
  match spec, out with
  | Raise e, Raise e' => e = e'
  | Ok subs, Ok (ts, s') =>
      erase_ids <$> ts = (erase_ids <$> acc) ++ subs
      ∧ restyled h0 (elements s')
  | _, _ => False
  end.


(** The elements of a document, root included, and those below the root. *)
Fixpoint xml_nodes (x : xml) : list xml :=
  let 'Xml _ _ _ _ cs := x in x :: flat_map xml_nodes cs.

Definition xml_below (x : xml) : list xml :=
  let 'Xml _ _ _ _ cs := x in flat_map xml_nodes cs.

(** ** The search for the input files *)

(** What is at a path: a regular file, a directory with what it holds, or
    neither of them ([is_file()] and [is_dir()] are both false). *)
Inductive fsnode : Type :=
| File
| Dir (entries : list (string * fsnode))
| Other.

(** A [Path] is the list of its components. *)
Definition fspath : Type := list string.

(** [s.rfind(c)], when [c] occurs in [s]. *)
Fixpoint rfind (c : ascii) (s : string) : option nat :=
  match s with
  | EmptyString => None
  | String c' s' =>
      match rfind c s' with
      | Some i => Some (S i)
      | None => if decide (c' = c) then Some 0 else None
      end
  end.

(** [PurePath.suffix]: what starts at the last dot of the name, unless
    that dot is the first or the last character. *)
Definition suffix (name : string) : string :=
  match rfind "." name with
  | Some i =>
      if decide (0 < i ∧ i < String.length name - 1)
      then String.substring i (String.length name - i) name
      else EmptyString
  | None => EmptyString
  end.

Definition path_name (p : fspath) : string := default EmptyString (last p).

(** [path.suffix == ".svg"] *)
Definition is_svg (p : fspath) : bool :=
  bool_decide (suffix (path_name p) = ".svg").

(** The order of paths: that of their lists of components. *)
Fixpoint path_compare (p q : fspath) : comparison :=
  match p, q with
  | [], [] => Eq
  | [], _ :: _ => Lt
  | _ :: _, [] => Gt
  | a :: p', b :: q' =>
      match String.compare a b with
      | Eq => path_compare p' q'
      | c => c
      end
  end.

Definition path_leb (p q : fspath) : bool :=
  match path_compare p q with Gt => false | _ => true end.

(** [sorted(..., reverse=True)] on paths that are all different. *)
Definition sorted_desc (l : list (fspath * fsnode)) : list (fspath * fsnode) :=
  merge_sort (λ a b, path_leb b.1 a.1) l.

(** [list(path.iterdir())] *)
Definition iterdir (p : fspath) (entries : list (string * fsnode))
    : list (fspath * fsnode) :=
  (λ e, (p ++ [e.1], e.2)) <$> entries.

(** [stack.pop()] *)
Definition pop {A} (stack : list A) : option (list A * A) :=
  match reverse stack with
  | [] => None
  | x :: r => Some (reverse r, x)
  end.

(** [find_svgs]: the paths it yields, in order; [None] when the fuel runs
    out. *)
Fixpoint find_svgs (fuel : nat) (stack : list (fspath * fsnode))
    : option (list fspath) :=
  match fuel with
  | 0 => None
  | S fuel' =>
      match pop stack with
      | None => Some []
      | Some (stack, (p, node)) =>
          match node with
          | File =>
              if is_svg p then (p ::.) <$> find_svgs fuel' stack
              else find_svgs fuel' stack
          | Dir entries =>
              find_svgs fuel' (stack ++ sorted_desc (iterdir p entries))
          | Other => find_svgs fuel' stack
          end
      end
  end.

(** What one path contributes: itself when it is a file with the suffix
    [.svg], nothing when it is another file or nothing at all, and for a
    directory what its entries contribute, taken in ascending order. *)
Inductive yields : fspath → fsnode → list fspath → Prop :=
| yields_svg p : is_svg p → yields p File [p]
| yields_file p : ¬ is_svg p → yields p File []
| yields_other p : yields p Other []
| yields_dir p entries outs :
    Forall2 (λ e out, yields e.1 e.2 out)
            (reverse (sorted_desc (iterdir p entries))) outs →
    yields p (Dir entries) (concat outs).

Fixpoint fs_size (n : fsnode) : nat :=
  match n with
  | Dir entries => S (sum_list_with (λ e, fs_size e.2) entries)
  | _ => 1
  end.

Definition stack_size (stack : list (fspath * fsnode)) : nat :=
  sum_list_with (λ e, fs_size e.2) stack.

(** A small tree of files. *)
Definition fs_example : list (fspath * fsnode) :=
  [(["a.svg"], File);
   (["d"], Dir [("2.svg", File); ("n.txt", File); ("10.svg", File);
                (".svg", File); ("e", Dir [("x.svg", File)])]);
   (["missing.svg"], Other)].

(** ** The references of a document

    [load_presentation] between [ElementTree.parse] and [slides = Tree()]:
    the editor's elements are taken out of the root, and every [use]
    element whose target is found is replaced by a copy of the target. *)

Definition sodipodi_ns : string :=
  "http://sodipodi.sourceforge.net/DTD/sodipodi-0.dtd".
Definition xlink_ns : string := "http://www.w3.org/1999/xlink".
Definition use_tag : string := "{" +:+ svg_ns +:+ "}use".
Definition metadata_tag : string := "{" +:+ svg_ns +:+ "}metadata".
Definition href_key : string := "{" +:+ xlink_ns +:+ "}href".

(** Subscripting a dictionary adds [KeyError] to the exceptions. *)
Inductive load_exn : Type :=
| KeyError
| Exn (e : exn).

Inductive outcome (A : Type) : Type :=
| Returns (a : A)
| Raises (e : load_exn).
Arguments Returns {A} a.
Arguments Raises {A} e.

(** The test of the path step [{ns}*]: the tag starts with [{ns}]. *)
Definition in_namespace (ns : string) (e : Element) : bool :=
  String.prefix ("{" +:+ ns +:+ "}") (tag e).

Definition has_tag (tg : string) (e : Element) : bool :=
  bool_decide (tag e = tg).

(** [parent.findall(".{ns}*")] and [parent.findall(".tag")]: the children
    that pass the test, in their order. *)
Definition findall_children (test : Element → bool) (h : heap) (parent : loc)
    : list loc :=
  filter (λ c, from_option test false (h !! c)) (elem_children h parent).

(** [try: root.remove(found[0])  except IndexError: pass] *)
Definition remove_head (root : loc) (found : list loc) (h : heap)
    : result heap :=
  match found with
  | [] => Ok h
  | node :: _ => elem_remove root node h
  end.

Definition remove_prelude (root : loc) (h : heap) : result heap :=
  h ←! remove_head root (findall_children (in_namespace sodipodi_ns) h root) h;
  remove_head root (findall_children (has_tag metadata_tag) h root) h.

(** The steps [.//tag] and [.//*]: the elements below [root], in document
    order, [root] itself left out. *)
Definition descendants (root : loc) (t : etree) : list etree :=
  filter (λ e, root_loc e ≠ root) (preorder t).

(** [root.findall(".//svg:use", ns)] *)
Definition findall_use (fuel : nat) (h : heap) (root : loc)
    : option (list loc) :=
  t ← subtree fuel h root;
  Some (root_loc <$> filter (λ e, has_tag use_tag (root_elem e))
                            (descendants root t)).

Fixpoint has_char (c : ascii) (s : string) : bool :=
  match s with
  | EmptyString => false
  | String c' s' => bool_decide (c = c') || has_char c s'
  end.

(** [root.find(".//*[@id='" + value + "']")]: the first element below
    [root] whose [id] is [value].  This is what the path means when
    [value] holds no quote; with a quote in it the text is another path,
    or none, and the model gives no result. *)
Definition find_id (fuel : nat) (h : heap) (root : loc) (value : string)
    : option (option loc) :=
  if has_char "'" value then None
  else
    t ← subtree fuel h root;
    Some (root_loc <$>
            head (filter (λ e, Dict.get "id" (attrib (root_elem e)) = Some value)
                         (descendants root t))).

(** [href[1:]] *)
Definition slice1 (s : string) : string :=
  match s with
  | EmptyString => EmptyString
  | String _ s' => s'
  end.

(** [l.index(x)], by identity. *)
Fixpoint index (x : loc) (l : list loc) : option nat :=
  match l with
  | [] => None
  | y :: l' => if decide (x = y) then Some 0 else S <$> index x l'
  end.

(** [parent.insert(index, node)] *)
Definition elem_insert (parent : loc) (i : nat) (node : loc) (h : heap) : heap :=
  alter (λ e, with_children e (take i (_children e) ++ node :: drop i (_children e)))
        parent h.

(** The body of the loop over the [use] elements, for the element [x].
    The copy has the tag and the attributes of the target, which is where
    [new_node] takes them from. *)
Definition inline_use (fuel : nat) (root : loc) (parent_map : gmap loc loc)
    (x : loc) (h : heap) : option (outcome heap) :=
  ex ← h !! x;
  match Dict.get href_key (attrib ex) with
  | None => Some (Raises KeyError)
  | Some href =>
      link_target ← find_id fuel h root (slice1 href);
      match link_target with
      | None => Some (Returns h)
      | Some link_target =>
          match parent_map !! x with
          | None => Some (Raises KeyError)
          | Some parent =>
              match index x (elem_children h parent) with
              | None => Some (Raises (Exn ValueError))
              | Some i =>
                  match elem_remove parent x h with
                  | Raise err => Some (Raises (Exn err))
                  | Ok h1 =>
                      '(node, h2) ← deepcopy fuel h1 link_target;
                      e ← h2 !! node;
                      match new_node (attrib ex) (tag e) (attrib e) with
                      | Raise err => Some (Raises (Exn err))
                      | Ok (tg, a) =>
                          let h3 :=
                            <[node := mkElement tg a (text e) (tail e)
                                                (_children e)]> h2 in
                          Some (Returns (elem_insert parent i node h3))
                      end
                  end
              end
          end
      end
  end.

Fixpoint inline_all (fuel : nat) (root : loc) (parent_map : gmap loc loc)
    (uses : list loc) (h : heap) : option (outcome heap) :=
  match uses with
  | [] => Some (Returns h)
  | x :: uses' =>
      match inline_use fuel root parent_map x h with
      | Some (Returns h') => inline_all fuel root parent_map uses' h'
      | other => other
      end
  end.

(** [load_presentation] on the parsed document, up to the end of the loop
    over the [use] elements. *)
Definition inline_references (fuel : nat) (root : loc) (h : heap)
    : option (outcome heap) :=
  match remove_prelude root h with
  | Raise err => Some (Raises (Exn err))
  | Ok h1 =>
      t ← subtree fuel h1 root;
      uses ← findall_use fuel h1 root;
      inline_all fuel root (parent_map t) uses h1
  end.






(** A document with the editor's elements, a symbol, a reference to it and
    a reference to nothing; its store, the store once the editor's
    elements are removed, and the tree that this store holds. *)
Definition ref_doc : xml :=
  svg_xml
    [Xml ("{" +:+ sodipodi_ns +:+ "}namedview") [] None None [];
     Xml metadata_tag [] None None [];
     Xml symbol [("id", "s"); ("style", "fill:red")] None None [path_xml];
     Xml use_tag [(href_key, "#s"); ("x", "1"); ("style", "stroke:blue")]
         None None [];
     Xml use_tag [(href_key, "#gone")] None None []].

Definition ref_root : loc := (store_of ref_doc).1.

Definition ref_heap : heap := elements (store_of ref_doc).2.








(** The list [l] without the first of its elements that passes [test]. *)
Fixpoint drop_first (test : loc → bool) (l : list loc) : list loc :=
  match l with
  | [] => []
  | c :: l' => if test c then l' else c :: drop_first test l'
  end.

(** The tests of the two paths of the prelude, on a child of the root. *)
Definition is_sodipodi (h : heap) (c : loc) : bool :=
  from_option (in_namespace sodipodi_ns) false (h !! c).

Definition is_metadata (h : heap) (c : loc) : bool :=
  from_option (has_tag metadata_tag) false (h !! c).

(** ** The loop that splits the slides *)

Section Consumer.

Context {A : Type}.

(** The body of a [for] loop over a tree, with what it carries from one
    turn to the next. *)
Variable body : Tree → A → Store → option (result A * Store).

(** [for leaf in self: body]: [Tree.__iter__] with its consumer.  The body
    runs at each yield on the store as the walk has set it, and the walk
    resumes on the store as the body leaves it; an exception in the body
    leaves the loop and the generator where they are. *)
Fixpoint iter_for (self : Tree) (a : A) (s : Store)
    : option (result A * Store) :=
  let s1 := set_visible self true s in
  '(r, s2) ← (if decide (children self = []) then body self a s1
              else Some (Ok a, s1));
  match r with
  | Raise err => Some (Raise err, s2)
  | Ok a =>
      '(r, s3) ←
        (let 'mkTree _ cs _ _ := self in
         (fix each (cs : list Tree) (a : A) (s : Store) :=
            match cs with
            | [] => Some (Ok a, s)
            | child :: cs' =>
                '(r, s') ← iter_for child a s;
                match r with
                | Raise err => Some (Raise err, s')
                | Ok a' => each cs' a' s'
                end
            end) cs a s2);
      match r with
      | Raise err => Some (Raise err, s3)
      | Ok a => Some (Ok a, set_visible self false s3)
      end
  end.

(** The loop [for child in self.children: yield from child], consumed. *)
Fixpoint iter_for_children (cs : list Tree) (a : A) (s : Store)
    : option (result A * Store) :=
  match cs with
  | [] => Some (Ok a, s)
  | child :: cs' =>
      '(r, s') ← iter_for child a s;
      match r with
      | Raise err => Some (Raise err, s')
      | Ok a' => iter_for_children cs' a' s'
      end
  end.

(** The body run on a list of yields, each turn on the store of its
    yield. *)
Fixpoint for_yields (ys : list (Tree * Store)) (a : A) : option (result A) :=
  match ys with
  | [] => Some (Ok a)
  | (leaf, sy) :: ys' =>
      '(r, _) ← body leaf a sy;
      match r with
      | Raise err => Some (Raise err)
      | Ok a' => for_yields ys' a'
      end
  end.

End Consumer.

(** The store [s] is [s0] with more objects: the flags are the same, and
    every element of [s0] is in [s] as it is in [s0]. *)
Definition extends (s0 s : Store) : Prop :=
  flags s = flags s0
  ∧ ∀ l e, elements s0 !! l = Some e → elements s !! l = Some e.

Section Split.

Context {bytes : Type} `{EqDecision bytes}.
Variable tostring : xml → bytes.
Variable parse : bytes → option xml.

(** [directory / (str(count) + ".svg")], as the key of the slot among the
    files: the directory, a slash and the name.  [pathlib] spells the path
    of some directories otherwise ([0.svg] in [.], [/0.svg] in [/]); only
    the identity of the key matters here. *)
Definition slot (directory : string) (count : nat) : string :=
  directory +:+ "/" +:+ pretty count +:+ ".svg".

(** The body of the loop of [main] over the slides; it carries the count
    of [enumerate], the files, and the counts of the slides handed to the
    pool of renderers. *)
Definition split_body (fuel : nat) (presentation : Tree) (directory : string)
    (leaf : Tree) (a : nat * gmap string bytes * list nat) (s : Store)
    : option (result (nat * gmap string bytes * list nat) * Store) :=
  let '(count, files, jobs) := a in
  '(r, s', files') ←
    write tostring parse fuel presentation (slot directory count) s files;
  match r with
  | Raise err => Some (Raise err, s')
  | Ok change =>
      Some (Ok (S count, files',
                if change : bool then jobs ++ [count] else jobs), s')
  end.

(** [for count, _ in enumerate(presentation): ...] *)
Definition split_slides (fuel : nat) (presentation : Tree)
    (directory : string) (s : Store) (files : gmap string bytes)
    : option (result (nat * gmap string bytes * list nat) * Store) :=
  iter_for (split_body fuel presentation directory) presentation
           (0, files, []) s.

End Split.


(** The translation that the coordinates of a reference stand for: none
    when it has neither [x] nor [y], and [0] for the one that is missing. *)
Definition translation (x y : option string) : option string :=
  match x, y with
  | None, None => None
  | _, _ =>
      Some ("translate(" +:+ default "0" x +:+ "," +:+ default "0" y +:+ ")")
  end.



(** * Properties *)

(** ** The model run on small inputs *)

Example split_trailing : Str.split ";" "a;" = ["a"; EmptyString].
Proof. reflexivity. Qed.

Example split_empty : Str.split ";" EmptyString = [EmptyString].
Proof. reflexivity. Qed.

Example split_colons : Str.split ":" "a:b:c" = ["a"; "b"; "c"].
Proof. reflexivity. Qed.

Example strip_both : Str.strip "  fill : red  " = "fill : red".
Proof. reflexivity. Qed.

Example css_to_dict_two : css_to_dict "A: 2; B: 3" = Ok [("A", "2"); ("B", "3")].
Proof. reflexivity. Qed.

Example css_to_dict_duplicate :
  css_to_dict "a:1; b:2; a:3" = Ok [("a", "3"); ("b", "2")].
Proof. reflexivity. Qed.

Example css_to_dict_blank : css_to_dict " " = Raise ValueError.
Proof. reflexivity. Qed.

Example dict_to_css_two : dict_to_css [("A", "1"); ("B", "3")] = "A: 1; B: 3".
Proof. reflexivity. Qed.

Example use_transform_xy :
  use_transform [("transform", "scale(2)"); ("y", "5")]
                [("transform", "rotate(90)")]
  = "scale(2) translate(0,5) rotate(90)".
Proof. reflexivity. Qed.

Example parenthesized_skip : parenthesized "(skip)" = Ok true.
Proof. reflexivity. Qed.

Example parenthesized_open : parenthesized "(intro" = Ok false.
Proof. reflexivity. Qed.

Example prune_xml_nested :
  prune_xml
    (svg_xml [layer_xml "a" (Some hidden_marker)
                [layer_xml "a1" (Some shown_marker) []];
              layer_xml "b" (Some " display:none") [path_xml]])
  = svg_xml [layer_xml "b" (Some " display:none") [path_xml]].
Proof. reflexivity. Qed.

(** The walk of the forest of [doc_two] yields its two layers. *)
Example walk_doc_two :
  (λ r, t_id <$> (iter r.1 r.2).1.*1) <$> forest_of 4 doc_two = Some [2; 3].
Proof. vm_compute. reflexivity. Qed.

(** ** Strings *)

Section StrFacts.
Context (sep : ascii).

Lemma split_nonempty s : ∃ x xs, Str.split sep s = x :: xs.
Proof.
  destruct s as [|c s]; simpl; [by eauto|].
  case_decide; [by eauto|].
  destruct (Str.split sep s); eauto.
Qed.

Lemma split_length s : length (Str.split sep s) = S (count sep s).
Proof.
  induction s as [|c s IH]; simpl; [done|].
  case_decide; simpl; [by rewrite IH|].
  destruct (split_nonempty s) as (x & xs & E).
  rewrite E in IH |- *. done.
Qed.

Lemma contains_count s : Str.contains sep s ↔ count sep s ≠ 0.
Proof.
  induction s as [|c s IH]; simpl; [naive_solver|].
  case_decide; subst; [naive_solver lia|].
  rewrite <- IH. naive_solver.
Qed.

Lemma contains_app s1 s2 c :
  Str.contains c (s1 +:+ s2) ↔ Str.contains c s1 ∨ Str.contains c s2.
Proof. induction s1 as [|c1 s1 IH]; simpl; [naive_solver|]. rewrite IH. naive_solver. Qed.

Lemma split_no_sep s : ¬ Str.contains sep s → Str.split sep s = [s].
Proof.
  induction s as [|c s IH]; simpl; [done|]. intros H.
  case_decide; [naive_solver|]. rewrite IH; [done|naive_solver].
Qed.

Lemma split_app a b :
  ¬ Str.contains sep a →
  Str.split sep (a +:+ String sep b) = a :: Str.split sep b.
Proof.
  induction a as [|c a IH]; simpl; intros H.
  - by rewrite decide_True.
  - rewrite decide_False by naive_solver. rewrite IH; [done|naive_solver].
Qed.

Lemma split_cons_ne c s x xs :
  c ≠ sep → Str.split sep s = x :: xs →
  Str.split sep (String c s) = String c x :: xs.
Proof. intros Hc E. simpl. rewrite decide_False by done. by rewrite E. Qed.

Lemma split_inv s x xs :
  Str.split sep s = x :: xs →
  ¬ Str.contains sep x
  ∧ (xs = [] ∧ s = x
     ∨ ∃ s', s = x +:+ String sep s' ∧ Str.split sep s' = xs).
Proof.
  revert x xs. induction s as [|c s IH]; simpl; intros x xs E.
  - simplify_eq. naive_solver.
  - case_decide; simplify_eq.
    + split; [naive_solver|]. right. by exists s.
    + destruct (split_nonempty s) as (y & ys & Es). rewrite Es in E.
      simplify_eq. destruct (IH _ _ Es) as [Hy Hs]. split.
      * simpl. naive_solver.
      * destruct Hs as [[-> ->]|(s' & -> & <-)]; [by left|].
        right. by exists s'.
Qed.

Lemma split_two s a b :
  Str.split sep s = [a; b] ↔
  s = a +:+ String sep b ∧ ¬ Str.contains sep a ∧ ¬ Str.contains sep b.
Proof.
  split.
  - intros E. destruct (split_inv _ _ _ E) as [Ha [[? _]|(s' & -> & E')]];
      [done|].
    destruct (split_inv _ _ _ E') as [Hb [[_ ->]|(? & _ & E'')]]; [done|].
    destruct (split_nonempty x) as (? & ? & ?). congruence.
  - intros (-> & Ha & Hb). rewrite split_app by done.
    by rewrite split_no_sep.
Qed.

Lemma split_parts s x : x ∈ Str.split sep s → ¬ Str.contains sep x.
Proof.
  revert x. induction s as [|c s IH]; simpl; intros x.
  - rewrite list_elem_of_singleton. intros ->. simpl. tauto.
  - case_decide.
    + rewrite elem_of_cons. intros [->|?]; [simpl; tauto|by apply IH].
    + destruct (split_nonempty s) as (y & ys & Es). rewrite Es in IH |- *.
      rewrite elem_of_cons. intros [->|?].
      * simpl. intros [?|?]; [done|]. eapply IH; [|done]. left.
      * apply IH. by right.
Qed.

End StrFacts.

Section StripFacts.

Lemma lstrip_contains c s : Str.contains c (Str.lstrip s) → Str.contains c s.
Proof.
  induction s as [|c' s IH]; simpl; [done|].
  destruct (Str.is_space c'); simpl; tauto.
Qed.

Lemma rstrip_contains c s : Str.contains c (Str.rstrip s) → Str.contains c s.
Proof.
  induction s as [|c' s IH]; simpl; [done|].
  destruct (Str.rstrip s) eqn:E.
  - destruct (Str.is_space c'); simpl; tauto.
  - simpl in *. tauto.
Qed.

Lemma strip_contains c s : Str.contains c (Str.strip s) → Str.contains c s.
Proof. intros H. by apply lstrip_contains, rstrip_contains. Qed.

Lemma rstrip_cons c s :
  Str.is_space c = false → Str.rstrip (String c s) = String c (Str.rstrip s).
Proof. intros H. simpl. rewrite H. by destruct (Str.rstrip s). Qed.

Lemma lstrip_head s :
  Str.lstrip s = EmptyString
  ∨ ∃ c s', Str.lstrip s = String c s' ∧ Str.is_space c = false.
Proof.
  induction s as [|c s IH]; simpl; [by left|].
  destruct (Str.is_space c) eqn:E; [done|]. right. eauto.
Qed.

Lemma rstrip_idem s : Str.rstrip (Str.rstrip s) = Str.rstrip s.
Proof.
  induction s as [|c s IH]; simpl; [done|].
  destruct (Str.rstrip s) as [|c' r] eqn:E.
  - destruct (Str.is_space c) eqn:Ec; simpl; [done|]. by rewrite Ec.
  - simpl in *. rewrite IH. done.
Qed.

Lemma strip_idem s : Str.strip (Str.strip s) = Str.strip s.
Proof.
  unfold Str.strip.
  destruct (lstrip_head s) as [->|(c & s' & -> & Hc)]; [done|].
  rewrite rstrip_cons by done. simpl. rewrite Hc.
  rewrite rstrip_cons by done. by rewrite rstrip_idem.
Qed.

Lemma strip_space s : Str.strip (String " " s) = Str.strip s.
Proof. done. Qed.

End StripFacts.

(** ** Dictionaries *)

Section DictFacts.

Lemma get_set k v k' d :
  Dict.get k' (Dict.set k v d) = if decide (k' = k) then Some v else Dict.get k' d.
Proof.
  induction d as [|[k0 v0] d IH]; simpl.
  - by repeat case_decide.
  - repeat (case_decide; simpl; simplify_eq); try done.
Qed.

Lemma get_None k d : Dict.get k d = None ↔ k ∉ Dict.keys d.
Proof.
  unfold Dict.keys. induction d as [|[k0 v0] d IH]; simpl.
  - split; [intros _; apply not_elem_of_nil|done].
  - rewrite not_elem_of_cons. case_decide; naive_solver.
Qed.

Lemma keys_set k v d :
  Dict.keys (Dict.set k v d)
  = if decide (k ∈ Dict.keys d) then Dict.keys d else Dict.keys d ++ [k].
Proof.
  unfold Dict.keys. induction d as [|[k0 v0] d IH].
  - rewrite decide_False by apply not_elem_of_nil. done.
  - cbn [Dict.set].
    destruct (decide (k = k0)) as [->|Hne]; rewrite !fmap_cons; cbn [fst].
    + rewrite decide_True by left. done.
    + rewrite IH. destruct (decide (k ∈ d.*1)).
      * rewrite decide_True by (by right). done.
      * rewrite decide_False; [done|]. rewrite not_elem_of_cons. done.
Qed.

Lemma set_fresh k v d : k ∉ Dict.keys d → Dict.set k v d = d ++ [(k, v)].
Proof.
  unfold Dict.keys. induction d as [|[k0 v0] d IH]; simpl; [done|].
  rewrite not_elem_of_cons. intros [? ?].
  rewrite decide_False by done. by rewrite IH.
Qed.

Lemma keys_set_NoDup k v d : NoDup (Dict.keys d) → NoDup (Dict.keys (Dict.set k v d)).
Proof.
  intros H. rewrite keys_set. case_decide; [done|].
  apply NoDup_app. split_and!; [done| |apply NoDup_singleton].
  intros x ? ->%list_elem_of_singleton. done.
Qed.

Lemma update_NoDup d other : NoDup (Dict.keys d) → NoDup (Dict.keys (Dict.update d other)).
Proof.
  unfold Dict.update. revert d.
  induction other as [|[k v] other IH]; simpl; intros d H; [done|].
  by apply IH, keys_set_NoDup.
Qed.

(** Inserting pairs with distinct new keys appends them in order. *)
Lemma update_fresh d other :
  NoDup (Dict.keys other) →
  (∀ k, k ∈ Dict.keys other → k ∉ Dict.keys d) →
  Dict.update d other = d ++ other.
Proof.
  unfold Dict.update, Dict.keys. revert d.
  induction other as [|[k v] other IH]; simpl; intros d Hnd Hdis.
  - by rewrite app_nil_r.
  - apply NoDup_cons in Hnd as [Hk Hnd].
    rewrite set_fresh by (apply Hdis; left).
    rewrite IH; [by rewrite <- app_assoc|done|].
    intros k' Hk'. unfold Dict.keys. rewrite fmap_app, elem_of_app. simpl.
    rewrite list_elem_of_singleton. intros [?|Heq].
    + eapply Hdis; [right; exact Hk'|done].
    + subst. done.
Qed.

Lemma get_app k d1 d2 :
  Dict.get k (d1 ++ d2)
  = match Dict.get k d1 with Some v => Some v | None => Dict.get k d2 end.
Proof. induction d1 as [|[k1 v1] d1 IH]; simpl; [done|]. by case_decide. Qed.

Lemma get_reverse k d : NoDup (Dict.keys d) → Dict.get k (reverse d) = Dict.get k d.
Proof.
  unfold Dict.keys. induction d as [|[k0 v0] d IH]; [done|].
  rewrite fmap_cons, NoDup_cons. intros [Hk Hnd].
  rewrite reverse_cons, get_app, IH by done. simpl.
  case_decide; subst.
  - by rewrite (proj2 (get_None k0 d) Hk).
  - by destruct (Dict.get k d).
Qed.

(** The value of a key after [update]: the last one written wins. *)
Lemma get_update k d other :
  Dict.get k (Dict.update d other)
  = match Dict.get k (reverse other) with
    | Some v => Some v
    | None => Dict.get k d
    end.
Proof.
  unfold Dict.update. revert d.
  induction other as [|[k0 v0] other IH]; simpl; intros d; [done|].
  rewrite IH, reverse_cons, get_set, get_app. simpl.
  destruct (Dict.get k (reverse other)); [done|]. by case_decide.
Qed.

Lemma dedup_first_ext `{EqDecision A} (s1 s2 l : list A) :
  (∀ x, x ∈ s1 ↔ x ∈ s2) → dedup_first s1 l = dedup_first s2 l.
Proof.
  revert s1 s2. induction l as [|x l IH]; simpl; intros s1 s2 H; [done|].
  destruct (decide (x ∈ s1)) as [H1|H1].
  - rewrite decide_True by (by apply H). by apply IH.
  - rewrite decide_False by (by rewrite <- H). f_equal. apply IH.
    intros y. rewrite !elem_of_cons. by rewrite H.
Qed.

(** The keys after [update]: those of [d], then the new ones in the order
    of their first appearance. *)
Lemma keys_update d other :
  Dict.keys (Dict.update d other)
  = Dict.keys d ++ dedup_first (Dict.keys d) (Dict.keys other).
Proof.
  unfold Dict.update. revert d.
  induction other as [|[k v] other IH]; simpl; intros d.
  - by rewrite app_nil_r.
  - rewrite IH, keys_set. destruct (decide (k ∈ Dict.keys d)); [done|].
    rewrite <- app_assoc. simpl. do 2 f_equal. apply dedup_first_ext.
    intros x. set_solver.
Qed.

End DictFacts.

(** ** The style mini-language *)

Section StyleFacts.

Lemma css_entry_ok seg :
  count ":" seg = 1 →
  ∃ k v, seg = k +:+ String ":" v
         ∧ ¬ Str.contains ":" k ∧ ¬ Str.contains ":" v
         ∧ css_entry seg = Ok (Str.strip k, Str.strip v).
Proof.
  intros Hc. pose proof (split_length ":" seg) as Hl. rewrite Hc in Hl.
  destruct (Str.split ":" seg) as [|k [|v [|? ?]]] eqn:E; try done.
  apply split_two in E as (-> & Hk & Hv). exists k, v.
  split_and!; try done. unfold css_entry.
  by rewrite (proj2 (split_two ":" _ k v)).
Qed.

Lemma css_entry_err seg : count ":" seg ≠ 1 → css_entry seg = Raise ValueError.
Proof.
  intros Hc. pose proof (split_length ":" seg) as Hl. unfold css_entry.
  destruct (Str.split ":" seg) as [|k [|v [|? ?]]]; simpl in *; try done.
  lia.
Qed.

Lemma css_entry_inv seg kv :
  css_entry seg = Ok kv →
  ∃ k v, seg = k +:+ String ":" v
         ∧ ¬ Str.contains ":" k ∧ ¬ Str.contains ":" v
         ∧ kv = (Str.strip k, Str.strip v).
Proof.
  intros H. destruct (decide (count ":" seg = 1)) as [Hc|Hc].
  - destruct (css_entry_ok _ Hc) as (k & v & ? & ? & ? & E).
    exists k, v. split_and!; try done. congruence.
  - rewrite css_entry_err in H by done. done.
Qed.

Lemma css_loop_raise entries acc :
  css_loop entries acc = Raise ValueError
  ↔ ∃ seg, seg ∈ entries ∧ count ":" seg ≠ 1.
Proof.
  revert acc. induction entries as [|e entries IH]; simpl; intros acc.
  - split; [done|]. intros (? & []%elem_of_nil & _).
  - destruct (decide (count ":" e = 1)) as [Hc|Hc].
    + destruct (css_entry_ok _ Hc) as (k & v & _ & _ & _ & ->). simpl.
      rewrite IH. split.
      * intros (seg & ? & ?). exists seg. split; [by right|done].
      * intros (seg & [->|?]%elem_of_cons & ?); [done|]. by exists seg.
    + rewrite css_entry_err by done. simpl. split; [|done].
      intros _. exists e. split; [left|done].
Qed.

Lemma css_loop_ok entries acc :
  (∀ seg, seg ∈ entries → count ":" seg = 1) →
  ∃ kvs : list (string * string),
    entries = (λ kv, kv.1 +:+ String ":" kv.2) <$> kvs
    ∧ css_loop entries acc
      = Ok (Dict.update acc ((λ kv, (Str.strip kv.1, Str.strip kv.2)) <$> kvs)).
Proof.
  revert acc. induction entries as [|e entries IH]; simpl; intros acc H.
  - by exists [].
  - destruct (css_entry_ok e) as (k & v & -> & _ & _ & E); [apply H; left|].
    rewrite E. simpl.
    destruct (IH (Dict.set (Str.strip k) (Str.strip v) acc))
      as (kvs & -> & E'); [intros; apply H; by right|].
    exists ((k, v) :: kvs). split; [done|]. by rewrite E'.
Qed.

(** The loop of [css_to_dict] is [update] on the pairs it reads. *)
Lemma css_loop_pairs entries acc d :
  css_loop entries acc = Ok d →
  ∃ kvs, css_entry <$> entries = Ok <$> kvs ∧ d = Dict.update acc kvs.
Proof.
  revert acc. induction entries as [|e entries IH]; simpl; intros acc H.
  - exists []. by simplify_eq.
  - destruct (css_entry e) as [kv|] eqn:E; simpl in H; [|done].
    destruct (IH _ H) as (kvs & E' & ->). exists (kv :: kvs).
    split; [|done]. change (Ok kv :: (css_entry <$> entries) = Ok kv :: (Ok <$> kvs)).
    by rewrite E'.
Qed.

Lemma css_loop_of_pairs entries acc kvs :
  css_entry <$> entries = Ok <$> kvs →
  css_loop entries acc = Ok (Dict.update acc kvs).
Proof.
  revert acc kvs. induction entries as [|e entries IH];
    intros acc [|kv kvs] H; try done.
  rewrite !fmap_cons in H. injection H as H1 H2.
  simpl. rewrite H1. simpl. by apply IH.
Qed.

Lemma css_entry_clean seg kv :
  ¬ Str.contains ";" seg → css_entry seg = Ok kv → clean_pair kv.
Proof.
  intros Hs (k & v & -> & Hk & Hv & ->)%css_entry_inv.
  rewrite contains_app in Hs. simpl in Hs.
  split; (split_and!; [apply strip_idem|..]); simpl;
    intros ?%strip_contains; tauto.
Qed.

Lemma elem_of_set kv k v d : kv ∈ Dict.set k v d → kv = (k, v) ∨ kv ∈ d.
Proof.
  induction d as [|[k0 v0] d IH]; simpl.
  - intros ->%list_elem_of_singleton. by left.
  - case_decide; rewrite !elem_of_cons; naive_solver.
Qed.

Lemma update_clean d kvs :
  Forall clean_pair d → Forall clean_pair kvs →
  Forall clean_pair (Dict.update d kvs).
Proof.
  unfold Dict.update. revert d.
  induction kvs as [|[k v] kvs IH]; simpl; intros d Hd Hk; [done|].
  apply Forall_cons in Hk as [Hkv Hk]. apply IH; [|done].
  apply Forall_forall. intros x [->|?]%elem_of_set; [done|].
  by eapply Forall_forall in Hd.
Qed.

Lemma ser_no_semicolon kv : clean_pair kv → ¬ Str.contains ";" (ser kv).
Proof.
  intros [(_ & _ & H1) (_ & _ & H2)]. unfold ser.
  rewrite contains_app. simpl. naive_solver.
Qed.

Lemma css_entry_ser kv : clean_pair kv → css_entry (ser kv) = Ok kv.
Proof.
  destruct kv as [k v]. intros [(Sk & Ck & _) (Sv & Cv & _)]; simpl in *.
  unfold css_entry, ser. simpl.
  rewrite (proj2 (split_two ":" _ k (String " " v))).
  - simpl. rewrite strip_space. by rewrite Sk, Sv.
  - split_and!; [done..|]. simpl. naive_solver.
Qed.

Lemma css_entry_space_ser kv :
  clean_pair kv → css_entry (String " " (ser kv)) = Ok kv.
Proof.
  destruct kv as [k v]. intros [(Sk & Ck & _) (Sv & Cv & _)]; simpl in *.
  unfold css_entry, ser. simpl.
  rewrite (proj2 (split_two ":" (k +:+ ": " +:+ v) k (String " " v))).
  - simpl. rewrite !strip_space. by rewrite Sk, Sv.
  - split_and!; [done..|]. simpl. naive_solver.
Qed.

Lemma split_dict_to_css kv d :
  Forall clean_pair (kv :: d) →
  Str.split ";" (dict_to_css (kv :: d))
  = ser kv :: ((λ kv, String " " (ser kv)) <$> d).
Proof.
  revert kv. induction d as [|kv' d IH]; intros kv [Hkv Hd]%Forall_cons.
  - apply split_no_sep. by apply ser_no_semicolon.
  - change (dict_to_css (kv :: kv' :: d))
      with (ser kv +:+ String ";" (String " " (dict_to_css (kv' :: d)))).
    rewrite split_app by (by apply ser_no_semicolon).
    f_equal. by apply split_cons_ne, IH.
Qed.

Lemma dict_to_css_nonempty kv d : dict_to_css (kv :: d) ≠ EmptyString.
Proof.
  destruct kv as [k v]. unfold dict_to_css. simpl.
  destruct d; destruct k; simpl; done.
Qed.

(** Serializing a dictionary of clean pairs and parsing it again. *)
Lemma css_to_dict_to_css d :
  Forall clean_pair d → NoDup (Dict.keys d) →
  css_to_dict (dict_to_css d) = Ok d.
Proof.
  intros Hc Hnd. destruct d as [|kv d]; [done|].
  unfold css_to_dict. rewrite decide_False by apply dict_to_css_nonempty.
  rewrite split_dict_to_css by done.
  rewrite (css_loop_of_pairs _ [] (kv :: d)).
  - rewrite update_fresh; [done..|]. intros ? _. apply not_elem_of_nil.
  - apply Forall_cons in Hc as [Hkv Hd]. rewrite !fmap_cons. f_equal.
    + by apply css_entry_ser.
    + rewrite <- list_fmap_compose. apply list_eq_Forall2, Forall2_fmap.
      apply Forall_Forall2_diag. eapply Forall_impl; [exact Hd|].
      intros kv' ?. simpl. by apply css_entry_space_ser.
Qed.

Lemma css_to_dict_NoDup s d : css_to_dict s = Ok d → NoDup (Dict.keys d).
Proof.
  unfold css_to_dict. case_decide.
  - intros [= <-]. apply NoDup_nil_2.
  - intros (kvs & _ & ->)%css_loop_pairs. apply update_NoDup, NoDup_nil_2.
Qed.

End StyleFacts.

(** ** Claims on the style mini-language *)

(** C4, counterexample: [css_to_dict] does not skip an empty segment and
    does not split on the first [:] only.  ["a:1;"] has no non-empty segment
    without a [:], and ["a:b:c"] has a [:] in its only segment, yet both
    raise, where the [parse] of the specification returns a map. *)
Lemma css_to_dict_not_parse_spec :
  (css_to_dict "a:1;" = Raise ValueError
   ∧ (∀ seg, seg ∈ Str.split ";" "a:1;" → seg ≠ EmptyString → Str.contains ":" seg)
   ∧ parse_spec "a:1;" = Ok [("a", "1")])
  ∧ (css_to_dict "a:b:c" = Raise ValueError
     ∧ parse_spec "a:b:c" = Ok [("a", "b:c")]).
Proof.
  split_and!; try reflexivity.
  intros seg. change (Str.split ";" "a:1;") with ["a:1"; EmptyString].
  rewrite elem_of_cons, list_elem_of_singleton. intros [->| ->] ?; [|done].
  simpl. tauto.
Qed.

(** C4, amended: [css_to_dict] of the empty string is the empty map.  For any other string,
    [css_to_dict] splits on [;] and wants exactly one [:] in every segment,
    the empty ones included: it raises [ValueError] if and only if some
    segment does not have exactly one [:]; otherwise every segment is
    [key:value], and the result is the pairs of trimmed keys and values,
    assigned in order to an empty dictionary. *)
Theorem css_to_dict_segments (s : string) :
  css_to_dict EmptyString = Ok []
  ∧ (css_to_dict s = Raise ValueError
     ↔ s ≠ EmptyString ∧ ∃ seg, seg ∈ Str.split ";" s ∧ count ":" seg ≠ 1)
  ∧ (s ≠ EmptyString → (∀ seg, seg ∈ Str.split ";" s → count ":" seg = 1) →
     ∃ kvs : list (string * string),
       Str.split ";" s = (λ kv, kv.1 +:+ String ":" kv.2) <$> kvs
       ∧ css_to_dict s
         = Ok (Dict.update []
                 ((λ kv, (Str.strip kv.1, Str.strip kv.2)) <$> kvs))).
Proof.
  split_and!; [done| |].
  - unfold css_to_dict. case_decide as Hs.
    + split; [done|]. by intros [? _].
    + rewrite css_loop_raise. naive_solver.
  - intros Hs Hall. unfold css_to_dict. rewrite decide_False by done.
    by apply css_loop_ok.
Qed.

(** C7, counterexample: a string that is well-formed for the [parse] of
    the specification need not be one that [css_to_dict] accepts.  On
    ["a:1;"] and on ["a:b:c"] the specification parses a map, but
    [css_to_dict] raises, so there is nothing to serialize and no round
    trip; and the serialization of the map that the specification reads
    from ["a:b:c"] is rejected as well. *)
Lemma css_roundtrip_not_on_parse_spec :
  (parse_spec "a:1;" = Ok [("a", "1")]
   ∧ css_to_dict "a:1;" = Raise ValueError)
  ∧ (parse_spec "a:b:c" = Ok [("a", "b:c")]
     ∧ css_to_dict "a:b:c" = Raise ValueError
     ∧ css_to_dict (dict_to_css [("a", "b:c")]) = Raise ValueError).
Proof. repeat split; reflexivity. Qed.

(** C7, amended: for every string [s] that [css_to_dict] accepts, parsing
    the serialization of the result gives the same dictionary again (same
    keys in the same order, same values); on the canonical string
    [dict_to_css d] parse-then-serialize is the identity; the keys of the
    result are distinct, stand in the order of their first appearance among
    the pairs read from [s], and each has the last value written for it. *)
Theorem css_roundtrip (s : string) (d : Dict.t) :
  css_to_dict s = Ok d →
  css_to_dict (dict_to_css d) = Ok d
  ∧ (∀ c, c = dict_to_css d →
       ∃ d', css_to_dict c = Ok d' ∧ dict_to_css d' = c)
  ∧ NoDup (Dict.keys d)
  ∧ ∃ kvs, css_pairs s = Ok <$> kvs
           ∧ Dict.keys d = dedup_first [] (Dict.keys kvs)
           ∧ ∀ k, Dict.get k d = Dict.get k (reverse kvs).
Proof.
  intros H.
  assert (∃ kvs, css_pairs s = Ok <$> kvs ∧ d = Dict.update [] kvs
                 ∧ Forall clean_pair kvs) as (kvs & Hp & -> & Hc).
  { unfold css_to_dict, css_pairs in *. case_decide.
    - exists []. by simplify_eq.
    - destruct (css_loop_pairs _ _ _ H) as (kvs & E & ->).
      exists kvs. split_and!; [done..|].
      apply Forall_forall. intros kv Hkv.
      apply list_elem_of_lookup in Hkv as [i Hi].
      assert ((Ok <$> kvs) !! i = Some (Ok kv)) as Hi' by by rewrite list_lookup_fmap, Hi.
      rewrite <- E, list_lookup_fmap in Hi'.
      destruct (Str.split ";" s !! i) as [seg|] eqn:Es; simplify_eq/=.
      eapply css_entry_clean; [|done].
      eapply split_parts, list_elem_of_lookup_2, Es. }
  assert (NoDup (Dict.keys (Dict.update [] kvs))) as Hnd
    by apply update_NoDup, NoDup_nil_2.
  assert (css_to_dict (dict_to_css (Dict.update [] kvs)) = Ok (Dict.update [] kvs)) as Hrt.
  { apply css_to_dict_to_css; [|done]. by apply update_clean. }
  split_and!; [done| |done|].
  - intros c ->. eauto.
  - exists kvs. split_and!; [done| |].
    + by rewrite keys_update.
    + intros k. rewrite get_update. by destruct (Dict.get k (reverse kvs)).
Qed.

Lemma css_roundtrip_witness :
  css_to_dict (dict_to_css [("a", "3"); ("b", "2")]) = Ok [("a", "3"); ("b", "2")].
Proof.
  apply (css_roundtrip "a:1; b : 2 ;a: 3" [("a", "3"); ("b", "2")]).
  reflexivity.
Defined.

(** C3: when the style of a reference parses to [u] and the style of its
    target to [t], the inlined copy gets the style [dict_to_css] of [u]
    updated with [t]: a key of the target has the target's value, a key of
    the reference alone keeps its value, the keys of the reference come
    first and in their order.  For [u = {A: 2, B: 3}] and [t = {A: 1}]
    the style is ["A: 1; B: 3"]. *)
Theorem new_node_style (x_attrib target_attrib : Dict.t) (target_tag : string)
    (u t : Dict.t) :
  css_to_dict (default EmptyString (Dict.get "style" x_attrib)) = Ok u →
  css_to_dict (default EmptyString (Dict.get "style" target_attrib)) = Ok t →
  ∃ tg attrib,
    new_node x_attrib target_tag target_attrib = Ok (tg, attrib)
    ∧ Dict.get "style" attrib = Some (dict_to_css (Dict.update u t))
    ∧ (∀ k v, Dict.get k t = Some v → Dict.get k (Dict.update u t) = Some v)
    ∧ (∀ k, Dict.get k t = None → Dict.get k (Dict.update u t) = Dict.get k u)
    ∧ Dict.keys (Dict.update u t)
      = Dict.keys u ++ dedup_first (Dict.keys u) (Dict.keys t)
    ∧ (u = [("A", "2"); ("B", "3")] → t = [("A", "1")] →
       Dict.get "style" attrib = Some "A: 1; B: 3").
Proof.
  intros Hu Ht.
  assert (NoDup (Dict.keys t)) as Hnd by (eapply css_to_dict_NoDup, Ht).
  unfold new_node, use_style. rewrite Hu, Ht. simpl.
  eexists _, _. split; [done|].
  assert (∀ k, Dict.get k (Dict.update u t)
               = match Dict.get k t with Some v => Some v | None => Dict.get k u end)
    as Hget by (intros k; by rewrite get_update, get_reverse).
  split_and!.
  - by rewrite get_set, decide_True.
  - intros k v E. by rewrite Hget, E.
  - intros k E. by rewrite Hget, E.
  - apply keys_update.
  - intros -> ->. by rewrite get_set, decide_True.
Qed.

Lemma new_node_style_witness :
  ∃ tg attrib,
    new_node [("x", "4"); ("style", "A: 2; B: 3")] symbol [("style", "A: 1")]
    = Ok (tg, attrib)
    ∧ Dict.get "style" attrib = Some "A: 1; B: 3".
Proof.
  destruct (new_node_style [("x", "4"); ("style", "A: 2; B: 3")]
              [("style", "A: 1")] symbol [("A", "2"); ("B", "3")] [("A", "1")])
    as (tg & attrib & H1 & _ & _ & _ & _ & H2); [reflexivity..|].
  exists tg, attrib. split; [exact H1|]. by apply H2.
Defined.

(** ** The layer tree builder *)

(** C9: on an element with the layer marker and an empty label, [layer]
    raises [IndexError]; so when [layer] returns on an element with the
    marker, its label is not empty; and the test on a non-empty label does
    not raise. *)
Theorem layer_empty_label (fuel : nat) (element : loc) (s : Store) (e : Element) :
  elements s !! element = Some e →
  Dict.get (inkscape "groupmode") (attrib e) = Some "layer" →
  (Dict.get (inkscape "label") (attrib e) = Some EmptyString →
   layer (S fuel) element s = Some (Raise IndexError))
  ∧ (∀ r, layer (S fuel) element s = Some (Ok r) →
          Dict.get (inkscape "label") (attrib e) ≠ Some EmptyString)
  ∧ (∀ label, label ≠ EmptyString → ∃ b, parenthesized label = Ok b).
Proof.
  intros He Hg.
  assert (Dict.get (inkscape "label") (attrib e) = Some EmptyString →
          layer (S fuel) element s = Some (Raise IndexError)) as H.
  { intros Hl. cbn [layer]. rewrite He. cbn [mbind option_bind].
    rewrite decide_False by (by rewrite Hg; intros []).
    by rewrite Hl. }
  split_and!; [done| |].
  - intros r Hr Hl. by rewrite (H Hl) in Hr.
  - intros [|c label] Hne; [done|]. unfold parenthesized. cbn [Str.first bind].
    case_decide; [|by eauto].
    assert (∃ d, Str.last (String c label) = Ok d) as [d ->]; [|by eauto].
    clear. revert c. induction label as [|c' label IH]; intros c; [by eauto|].
    destruct (IH c') as [d Hd]. exists d. by rewrite <- Hd.
Qed.

Lemma layer_empty_label_witness :
  layer 1 0 (mkStore {[0 := unlabelled_layer]} ∅) = Some (Raise IndexError).
Proof.
  apply (layer_empty_label 0 0 (mkStore {[0 := unlabelled_layer]} ∅)
           unlabelled_layer); reflexivity.
Defined.

Section Builder.

Lemma flags_set_visible self value s :
  flags (set_visible self value s) = <[t_id self := value]> (flags s).
Proof.
  unfold set_visible. destruct (element self); [|done].
  by destruct (elem_truthy _ _).
Qed.

Lemma layer_unfold fuel el s :
  layer (S fuel) el s =
  e ← elements s !! el;
  if decide (Dict.get (inkscape "groupmode") (attrib e) ≠ Some "layer")
  then Some (Ok (None, s))
  else
    match Dict.get (inkscape "label") (attrib e) with
    | None => Some (Ok (None, s))
    | Some label =>
        match parenthesized label with
        | Raise err => Some (Raise err)
        | Ok true => Some (Ok (None, s))
        | Ok false =>
            let ts := Tree_init (Some el) s in
            let s2 := set_visible ts.1 false ts.2 in
            match layer_children fuel (_children e) [] s2 with
            | None => None
            | Some (Raise err) => Some (Raise err)
            | Some (Ok (kids, s')) =>
                Some (Ok (Some (mkTree (t_id ts.1) kids (Some el) None), s'))
            end
        end
    end.
Proof.
  cbn [layer]. destruct (elements s !! el) as [e|]; [|done].
  cbn [mbind option_bind]. case_decide; [done|].
  destruct (Dict.get (inkscape "label") (attrib e)) as [label|]; [|done].
  destruct (parenthesized label) as [[|]|]; [done| |done].
  cbn zeta. unfold Tree_init. cbn [fst snd t_id].
  match goal with |- ?f (_children e) [] ?s2 = _ =>
    enough (∀ cs acc s2',
              f cs acc s2'
              = match layer_children fuel cs acc s2' with
                | None => None
                | Some (Raise err) => Some (Raise err)
                | Some (Ok (kids, s')) =>
                    Some (Ok (Some (mkTree (fresh (dom (flags s))) kids
                                      (Some el) None), s'))
                end) as Hgen by apply Hgen
  end.
  induction cs as [|c cs IH]; intros acc s2; [done|].
  cbn [layer_children].
  destruct (layer fuel c s2) as [[[[sub|] s3]|]|]; [apply IH..|done|done].
Qed.

Lemma load_presentation_unfold fuel root s :
  load_presentation fuel root s =
  let ts := Tree_init None s in
  match layer_children fuel (elem_children (elements s) root) [] ts.2 with
  | None => None
  | Some (Raise err) => Some (Raise err)
  | Some (Ok (kids, s')) =>
      Some (Ok (mkTree (t_id ts.1) kids None (Some root), s'))
  end.
Proof.
  unfold load_presentation, Tree_init. cbn [fst snd t_id elements].
  match goal with |- ?f _ [] ?s2 = _ =>
    enough (∀ cs acc s2',
              f cs acc s2'
              = match layer_children fuel cs acc s2' with
                | None => None
                | Some (Raise err) => Some (Raise err)
                | Some (Ok (kids, s')) =>
                    Some (Ok (mkTree (fresh (dom (flags s))) kids None
                                (Some root), s'))
                end) as Hgen by apply Hgen
  end.
  induction cs as [|c cs IH]; intros acc s2; [done|].
  cbn [layer_children].
  destruct (layer fuel c s2) as [[[[sub|] s3]|]|]; [apply IH..|done|done].
Qed.

Lemma main_load_unfold fuel roots s :
  main_load fuel roots s =
  let ts := Tree_init None s in
  match load_all fuel roots [] ts.2 with
  | None => None
  | Some (Raise err) => Some (Raise err)
  | Some (Ok (subs, s')) => Some (Ok (mkTree (t_id ts.1) subs None None, s'))
  end.
Proof.
  unfold main_load, Tree_init. cbn [fst snd t_id].
  match goal with |- ?f _ [] ?s2 = _ =>
    enough (∀ rs acc s2',
              f rs acc s2'
              = match load_all fuel rs acc s2' with
                | None => None
                | Some (Raise err) => Some (Raise err)
                | Some (Ok (subs, s')) =>
                    Some (Ok (mkTree (fresh (dom (flags s))) subs None None,
                              s'))
                end) as Hgen by apply Hgen
  end.
  induction rs as [|r rs IH]; intros acc s2; [done|].
  cbn [load_all].
  destruct (load_presentation fuel r s2) as [[[sub s3]|]|]; [apply IH|done..].
Qed.

Lemma elem_of_flat_map {A B} (f : A → list B) (l : list A) (y : B) :
  y ∈ flat_map f l ↔ ∃ x, x ∈ l ∧ y ∈ f x.
Proof.
  rewrite list_elem_of_In, in_flat_map.
  by setoid_rewrite list_elem_of_In.
Qed.

Lemma oids_cons o cs e d : oids (mkTree o cs e d) = o :: flat_map oids cs.
Proof.
  unfold oids. cbn [nodes]. rewrite fmap_cons. f_equal.
  induction cs as [|c cs IH]; [done|].
  cbn [flat_map]. by rewrite fmap_app, IH.
Qed.

Lemma built_nil s : built [] s s.
Proof.
  split_and!; [apply NoDup_nil_2| |done]. intros ? []%elem_of_nil.
Qed.

Lemma built_app ts1 ts2 s s1 s2 :
  built ts1 s s1 → built ts2 s1 s2 → built (ts1 ++ ts2) s s2.
Proof.
  intros (Hnd1 & Hin1 & Hout1) (Hnd2 & Hin2 & Hout2).
  assert (∀ o, o ∈ flat_map oids ts1 → o ∉ flat_map oids ts2) as Hdis.
  { intros o [_ H1]%Hin1 [H2 _]%Hin2. congruence. }
  unfold built. rewrite flat_map_app. split_and!.
  - by apply NoDup_app.
  - intros o [Ho|Ho]%elem_of_app.
    + split; [by apply Hin1|]. rewrite Hout2 by auto. by apply Hin1.
    + split; [|by apply Hin2]. rewrite <- Hout1; [by apply Hin2|].
      intros ?. by eapply Hdis.
  - intros o Ho. rewrite elem_of_app in Ho.
    rewrite Hout2, Hout1; [done|naive_solver..].
Qed.

Lemma built_node o kids e d s s1 s' :
  flags s !! o = None →
  flags s1 = <[o := false]> (flags s) →
  built kids s1 s' →
  built [mkTree o kids e d] s s'.
Proof.
  intros Ho Hs1 (Hnd & Hin & Hout).
  assert (o ∉ flat_map oids kids) as Hok.
  { intros [H _]%Hin. by rewrite Hs1, lookup_insert_eq in H. }
  unfold built. cbn [flat_map]. rewrite app_nil_r, oids_cons. split_and!.
  - by apply NoDup_cons.
  - intros o' [->|Ho']%elem_of_cons.
    + split; [done|]. by rewrite Hout, Hs1, lookup_insert_eq.
    + destruct (Hin _ Ho') as [H1 H2]. split; [|done].
      rewrite Hs1, lookup_insert_ne in H1; [done|]. by intros ->.
  - intros o' [Hne Ho']%not_elem_of_cons.
    by rewrite Hout, Hs1, lookup_insert_ne.
Qed.

Lemma fresh_flag s : flags s !! fresh (dom (flags s)) = None.
Proof. apply not_elem_of_dom, is_fresh. Qed.

Lemma layer_children_built fuel cs acc s ts s' :
  layer_ok fuel →
  layer_children fuel cs acc s = Some (Ok (ts, s')) →
  ∃ new, ts = acc ++ new ∧ built new s s'
         ∧ Forall has_element (flat_map nodes new).
Proof.
  intros IH. revert acc s. induction cs as [|c cs IHcs]; intros acc s H.
  - simplify_eq/=. exists []. rewrite app_nil_r.
    split_and!; [done|apply built_nil|done].
  - cbn [layer_children] in H.
    destruct (layer fuel c s) as [[[[sub|] s1]|]|] eqn:E; try done.
    + apply IH in E as [Hb He].
      apply IHcs in H as (new & -> & Hb' & He').
      exists (sub :: new). rewrite <- app_assoc. split_and!; [done| |].
      * by apply (built_app [sub] new s s1 s').
      * cbn [flat_map]. by apply Forall_app.
    + apply IH in E as ->. by apply IHcs.
Qed.

Lemma layer_built fuel : layer_ok fuel.
Proof.
  induction fuel as [|fuel IH]; intros el s r s' H; [done|].
  rewrite layer_unfold in H.
  destruct (elements s !! el) as [e|]; [|done]. cbn [mbind option_bind] in H.
  case_decide; [by simplify_eq|].
  destruct (Dict.get (inkscape "label") (attrib e)) as [label|];
    [|by simplify_eq].
  destruct (parenthesized label) as [[|]|]; [by simplify_eq| |done].
  cbn zeta in H.
  destruct (layer_children fuel _ _ _) as [[[kids s2]|]|] eqn:E; try done.
  simplify_eq. apply layer_children_built in E as (new & -> & Hb & He);
    [|done].
  cbn [app Tree_init fst snd t_id] in *. split.
  - refine (built_node _ _ _ _ _ _ _ (fresh_flag s) _ Hb).
    rewrite flags_set_visible. cbn [t_id flags].
    by rewrite insert_insert_eq.
  - cbn [nodes]. apply Forall_cons. split; [by eexists|done].
Qed.

Lemma load_presentation_built fuel root s t s' :
  load_presentation fuel root s = Some (Ok (t, s')) →
  built [t] s s' ∧ document_root t.
Proof.
  rewrite load_presentation_unfold. cbn zeta. intros H.
  destruct (layer_children fuel _ _ _) as [[[kids s2]|]|] eqn:E; try done.
  simplify_eq. apply layer_children_built in E as (new & -> & Hb & He);
    [|apply layer_built].
  cbn [app Tree_init fst snd t_id] in *. split.
  - by refine (built_node _ _ _ _ _ _ _ (fresh_flag s) _ Hb).
  - split_and!; [done|by eexists|done].
Qed.

Lemma load_all_built fuel roots acc s ts s' :
  load_all fuel roots acc s = Some (Ok (ts, s')) →
  ∃ new, ts = acc ++ new ∧ built new s s' ∧ Forall document_root new.
Proof.
  revert acc s. induction roots as [|r roots IH]; intros acc s H.
  - simplify_eq/=. exists []. rewrite app_nil_r.
    split_and!; [done|apply built_nil|done].
  - cbn [load_all] in H.
    destruct (load_presentation fuel r s) as [[[sub s1]|]|] eqn:E; try done.
    apply load_presentation_built in E as [Hb Hd].
    apply IH in H as (new & -> & Hb' & Hd').
    exists (sub :: new). rewrite <- app_assoc. split_and!; [done| |].
    + by apply (built_app [sub] new s s1 s').
    + by apply Forall_cons.
Qed.

(** The forest that [main] builds: distinct objects, every [_visible]
    false, no element on the super-root and on the document roots, an
    element on every other node. *)
Lemma main_load_built fuel roots s p s' :
  main_load fuel roots s = Some (Ok (p, s')) →
  built [p] s s' ∧ element p = None ∧ tree p = None
  ∧ Forall document_root (children p).
Proof.
  rewrite main_load_unfold. cbn zeta. intros H.
  destruct (load_all fuel _ _ _) as [[[subs s2]|]|] eqn:E; try done.
  simplify_eq. apply load_all_built in E as (new & -> & Hb & Hd).
  cbn [app Tree_init fst snd t_id] in *. split_and!; [|done..].
  by refine (built_node _ _ _ _ _ _ _ (fresh_flag s) _ Hb).
Qed.

End Builder.

(** ** The visibility walk *)

Section Walk.

Lemma Tree_ind' (P : Tree → Prop) :
  (∀ o cs e d, Forall P cs → P (mkTree o cs e d)) → ∀ t, P t.
Proof.
  intros H. fix IH 1. intros [o cs e d]. apply H.
  induction cs as [|c cs IHcs]; constructor; [apply IH|apply IHcs].
Qed.

Lemma iter_unfold self s :
  iter self s =
  let s1 := set_visible self true s in
  let here := if decide (children self = []) then [(self, s1)] else [] in
  let '(ys, s2) := iter_children (children self) s1 in
  (here ++ ys, set_visible self false s2).
Proof. by destruct self. Qed.

Lemma iter_yields t s : (iter t s).1.*1 = leaves t.
Proof.
  revert s. induction t as [o cs e d IH] using Tree_ind'. intros s.
  rewrite iter_unfold. cbn [children leaves].
  set (s1 := set_visible _ true s). clearbody s1.
  destruct cs as [|c cs]; [done|].
  rewrite decide_False by done. rewrite (decide_False (P := c :: cs = [])) by done.
  cbn [app]. generalize (c :: cs) IH s1. clear.
  intros cs IH s.
  assert ((iter_children cs s).1.*1 = flat_map leaves cs) as H.
  { revert s. induction cs as [|c cs IHcs]; intros s; [done|].
    apply Forall_cons in IH as [Hc Hcs]. cbn [iter_children flat_map].
    specialize (Hc s). specialize (IHcs Hcs).
    destruct (iter c s) as [ys s']. specialize (IHcs s').
    destruct (iter_children cs s') as [ys' s'']. simpl in *.
    by rewrite fmap_app, Hc, IHcs. }
  by destruct (iter_children cs s).
Qed.

Lemma leaves_nodes t leaf : leaf ∈ leaves t → leaf ∈ nodes t.
Proof.
  revert leaf. induction t as [o cs e d IH] using Tree_ind'. intros leaf.
  cbn [leaves nodes]. case_decide.
  - intros ->%list_elem_of_singleton. left.
  - rewrite elem_of_cons, !elem_of_flat_map.
    intros (c & Hc & Hl). right. exists c. split; [done|].
    eapply Forall_forall in IH; [|done]. by apply IH.
Qed.

Lemma chain_subset t o x : x ∈ chain t o → x ∈ oids t.
Proof.
  revert x. induction t as [i cs e d IH] using Tree_ind'. intros x.
  rewrite oids_cons. cbn [chain]. case_decide.
  - intros ->%list_elem_of_singleton. left.
  - intros Hx.
    assert (x ∈ i :: flat_map (λ c, chain c o) cs) as Hx'.
    { destruct (flat_map _ cs); [by apply elem_of_nil in Hx|done]. }
    apply elem_of_cons in Hx' as [->|Hx']; [left|right].
    apply elem_of_flat_map in Hx' as (c & Hc & Hx').
    apply elem_of_flat_map. exists c. split; [done|].
    eapply Forall_forall in IH; [|done]. by apply IH.
Qed.

Lemma chain_in t o : o ∈ oids t → t_id t ∈ chain t o.
Proof.
  induction t as [i cs e d IH] using Tree_ind'.
  rewrite oids_cons. cbn [chain t_id]. case_decide; [left|].
  intros [->|Ho]%elem_of_cons; [done|].
  apply elem_of_flat_map in Ho as (c & Hc & Ho).
  assert (t_id c ∈ flat_map (λ c, chain c o) cs) as Hin.
  { apply elem_of_flat_map. exists c. split; [done|].
    eapply Forall_forall in IH; [|done]. by apply IH. }
  destruct (flat_map (λ c, chain c o) cs); [by apply elem_of_nil in Hin|left].
Qed.

Lemma chains_nil cs o :
  o ∉ flat_map oids cs → flat_map (λ c, chain c o) cs = [].
Proof.
  intros Ho. destruct (flat_map (λ c, chain c o) cs) as [|x l] eqn:E; [done|].
  assert (x ∈ flat_map (λ c, chain c o) cs) as Hx by (rewrite E; left).
  apply elem_of_flat_map in Hx as (c & Hc & Hx). destruct Ho.
  apply elem_of_flat_map. exists c. split; [done|].
  destruct (decide (o ∈ oids c)) as [|Hn]; [done|].
  exfalso. clear -Hx Hn. revert x Hx Hn.
  induction c as [i cs e d IH] using Tree_ind'. intros x.
  rewrite oids_cons, not_elem_of_cons. cbn [chain]. intros Hx [Hi Hn].
  rewrite decide_False in Hx by done.
  destruct (flat_map (λ c, chain c o) cs) as [|y l] eqn:E;
    [by apply elem_of_nil in Hx|].
  assert (y ∈ flat_map (λ c, chain c o) cs) as Hy by (rewrite E; left).
  apply elem_of_flat_map in Hy as (c & Hc & Hy).
  eapply Forall_forall in IH; [|done]. eapply IH; [done|].
  intros Ho. apply Hn, elem_of_flat_map. eauto.
Qed.

Lemma chain_notin t o : o ∉ oids t → chain t o = [].
Proof.
  intros H. pose proof (chains_nil [t] o) as H'. simpl in H'.
  rewrite !app_nil_r in H'. by apply H'.
Qed.

Lemma walk_flags_children cs :
  Forall walk_flags cs →
  NoDup (flat_map oids cs) →
  ∀ s, (∀ o, o ∈ flat_map oids cs → flags s !! o = Some false) →
    flags (iter_children cs s).2 = flags s
    ∧ ∀ leaf sy, (leaf, sy) ∈ (iter_children cs s).1 →
        t_id leaf ∈ flat_map oids cs
        ∧ ∀ o, flags sy !! o
               = if decide (o ∈ flat_map (λ c, chain c (t_id leaf)) cs)
                 then Some true else flags s !! o.
Proof.
  induction cs as [|c cs IH]; intros Hall Hnd s Hs.
  - split; [done|]. intros ?? []%elem_of_nil.
  - apply Forall_cons in Hall as [Hc Hcs]. cbn [flat_map] in *.
    apply NoDup_app in Hnd as (Hnd1 & Hdis & Hnd2).
    destruct (Hc Hnd1 s) as [Hf1 Hy1].
    { intros o Ho. apply Hs, elem_of_app. by left. }
    cbn [iter_children]. destruct (iter c s) as [ys s'] eqn:E1.
    destruct (IH Hcs Hnd2 s') as [Hf2 Hy2].
    { intros o Ho. simpl in Hf1. rewrite Hf1. apply Hs, elem_of_app. by right. }
    destruct (iter_children cs s') as [ys' s''] eqn:E2. simpl in *.
    split; [congruence|].
    intros leaf sy [Hin|Hin]%elem_of_app.
    + destruct (Hy1 _ _ Hin) as [Hl Hfl]. split; [apply elem_of_app; by left|].
      intros o. rewrite Hfl, chains_nil, app_nil_r; [done|].
      intros ?. by eapply Hdis.
    + destruct (Hy2 _ _ Hin) as [Hl Hfl]. split; [apply elem_of_app; by right|].
      intros o. rewrite Hfl, Hf1, chain_notin; [done|].
      intros ?. by eapply Hdis.
Qed.

Lemma walk_flags_all t : walk_flags t.
Proof.
  induction t as [i cs e d IH] using Tree_ind'.
  intros Hnd s Hs. rewrite oids_cons in Hnd, Hs.
  apply NoDup_cons in Hnd as [Hi Hnd].
  rewrite iter_unfold. cbn [children].
  set (s1 := set_visible (mkTree i cs e d) true s).
  assert (flags s1 = <[i := true]> (flags s)) as Hs1
    by apply flags_set_visible.
  destruct (walk_flags_children cs IH Hnd s1) as [Hf Hy].
  { intros o Ho. rewrite Hs1, lookup_insert_ne by (by intros ->).
    apply Hs. by right. }
  destruct (iter_children cs s1) as [ys s2]. simpl in Hf, Hy. cbn zeta. split.
  - cbn [snd]. rewrite flags_set_visible, Hf, Hs1. cbn [t_id].
    rewrite insert_insert_eq. apply insert_id, Hs. left.
  - cbn [fst]. intros leaf sy [Hin|Hin]%elem_of_app.
    + case_decide; [|by apply elem_of_nil in Hin].
      apply list_elem_of_singleton in Hin. simplify_eq.
      rewrite oids_cons. split; [left|]. intros o. cbn [chain t_id].
      rewrite (decide_True (P := i = i)) by done. rewrite Hs1.
      destruct (decide (o = i)) as [->|Hne].
      * rewrite lookup_insert_eq, decide_True; [done|left].
      * rewrite lookup_insert_ne, decide_False; [done| |done].
        by intros ?%list_elem_of_singleton.
    + destruct (Hy _ _ Hin) as [Hl Hfl]. rewrite oids_cons.
      split; [by right|]. intros o. rewrite Hfl, Hs1. cbn [chain].
      rewrite (decide_False (P := i = t_id leaf)) by (by intros ->).
      assert (flat_map (λ c, chain c (t_id leaf)) cs ≠ []) as Hne.
      { apply elem_of_flat_map in Hl as (c & Hc & Hl).
        pose proof (chain_in _ _ Hl) as Hin'. intros E.
        assert (t_id c ∈ flat_map (λ c, chain c (t_id leaf)) cs) as Hx
          by (apply elem_of_flat_map; eauto).
        rewrite E in Hx. by apply elem_of_nil in Hx. }
      destruct (flat_map (λ c, chain c (t_id leaf)) cs) as [|x l] eqn:E;
        [done|].
      destruct (decide (o = i)) as [->|Hoi].
      * rewrite lookup_insert_eq, (decide_True (P := i ∈ i :: _)) by left.
        by case_decide.
      * rewrite lookup_insert_ne by done.
        destruct (decide (o ∈ x :: l)).
        -- rewrite decide_True; [done|by right].
        -- rewrite decide_False; [done|]. by apply not_elem_of_cons.
Qed.

End Walk.

(** C5: the walk yields the leaves of the tree, each once and in pre-order;
    a tree whose root has no children yields the root alone. *)
Theorem iter_yields_leaves (t : Tree) (s : Store) :
  (iter t s).1.*1 = leaves t
  ∧ (children t = [] → (iter t s).1.*1 = [t]).
Proof.
  split; [apply iter_yields|]. intros H. rewrite iter_yields.
  destruct t as [o cs e d]. simpl in *. by rewrite decide_True.
Qed.

(** ** Documents in the store *)

Section Reading.

Lemma etree_ind' (P : etree → Prop) :
  (∀ l e ks, Forall P ks → P (ENode l e ks)) → ∀ t, P t.
Proof.
  intros H. fix IH 1. intros [l e ks]. apply H.
  induction ks as [|k ks IHks]; constructor; [apply IH|apply IHks].
Qed.

Lemma xml_ind' (P : xml → Prop) :
  (∀ tg a tx tl cs, Forall P cs → P (Xml tg a tx tl cs)) → ∀ x, P x.
Proof.
  intros H. fix IH 1. intros [tg a tx tl cs]. apply H.
  induction cs as [|c cs IHcs]; constructor; [apply IH|apply IHcs].
Qed.

Lemma locs_cons l e ks : locs (ENode l e ks) = l :: flat_map locs ks.
Proof.
  unfold locs. cbn [preorder]. rewrite fmap_cons. f_equal.
  induction ks as [|k ks IH]; [done|].
  cbn [flat_map]. by rewrite fmap_app, IH.
Qed.

Lemma max_list_le (l : list nat) n : Forall (λ x, x ≤ n) l → max_list l ≤ n.
Proof. induction 1; simpl; lia. Qed.

Lemma subtree_repr fuel h l t :
  subtree fuel h l = Some t → root_loc t = l ∧ repr h t ∧ depth t ≤ fuel.
Proof.
  revert l t. induction fuel as [|fuel IH]; intros l t H; [done|].
  cbn [subtree] in H. destruct (h !! l) as [e|] eqn:El; [|done].
  cbn [mbind option_bind] in H.
  destruct (mapM (subtree fuel h) (_children e)) as [ks|] eqn:Em; [|done].
  simplify_eq/=. apply mapM_Some in Em.
  assert (Forall2 (λ c k, root_loc k = c ∧ repr h k ∧ depth k ≤ fuel)
            (_children e) ks) as Hks
    by (eapply Forall2_impl; [exact Em|]; intros ??; apply IH).
  split_and!; [done| |].
  - constructor; [done| |].
    + apply list_eq_Forall2, Forall2_fmap_r.
      eapply Forall2_impl; [exact Hks|]. naive_solver.
    + eapply Forall2_Forall_r; [exact Hks|].
      apply Forall_true. naive_solver.
  - apply le_n_S, max_list_le, Forall_fmap.
    eapply Forall2_Forall_r; [exact Hks|].
    apply Forall_true. naive_solver.
Qed.

Lemma repr_subtree fuel h t :
  repr h t → depth t ≤ fuel → subtree fuel h (root_loc t) = Some t.
Proof.
  revert fuel. induction t as [l e ks IH] using etree_ind'.
  intros fuel Hr Hd. inversion Hr as [??? Hl Hc Hks]; subst.
  destruct fuel as [|fuel]; [simpl in Hd; lia|].
  cbn [subtree root_loc]. rewrite Hl. cbn [mbind option_bind].
  assert (mapM (subtree fuel h) (_children e) = Some ks) as ->; [|done].
  apply mapM_Some. rewrite Hc. apply Forall2_fmap_l, Forall_Forall2_diag.
  apply Forall_forall. intros k Hk.
  eapply Forall_forall in IH; [|done]. apply IH.
  - by eapply Forall_forall in Hks.
  - cbn [depth] in Hd. apply le_S_n in Hd.
    etrans; [|exact Hd]. apply max_list_elem_of_le, list_elem_of_fmap.
    eauto.
Qed.

Lemma repr_frame h h' t :
  repr h t → (∀ l, l ∈ locs t → h' !! l = h !! l) → repr h' t.
Proof.
  induction t as [l e ks IH] using etree_ind'. intros Hr Hf.
  inversion Hr as [??? Hl Hc Hks]; subst. rewrite locs_cons in Hf.
  constructor; [|done|].
  - rewrite Hf; [done|left].
  - apply Forall_forall. intros k Hk.
    eapply Forall_forall in IH; [|done]. apply IH.
    + by eapply Forall_forall in Hks.
    + intros l' Hl'. apply Hf. right. apply elem_of_flat_map. eauto.
Qed.

Lemma repr_lookup h t n :
  repr h t → n ∈ preorder t →
  h !! root_loc n = Some (root_elem n)
  ∧ _children (root_elem n) = root_loc <$> kids n.
Proof.
  revert n. induction t as [l e ks IH] using etree_ind'. intros n Hr.
  inversion Hr as [??? Hl Hc Hks]; subst. cbn [preorder].
  intros [->|Hn]%elem_of_cons; [done|].
  apply elem_of_flat_map in Hn as (k & Hk & Hn).
  eapply Forall_forall in IH; [|done]. apply IH; [|done].
  by eapply Forall_forall in Hks.
Qed.

Lemma subtree_frame fuel h h' l t :
  (∀ l e, h !! l = Some e → h' !! l = Some e) →
  subtree fuel h l = Some t → subtree fuel h' l = Some t.
Proof.
  intros Hf H. apply subtree_repr in H as (<- & Hr & Hd).
  apply repr_subtree; [|done]. clear Hd.
  induction t as [l e ks IH] using etree_ind'.
  inversion Hr as [??? Hl Hc Hks]; subst.
  constructor; [by apply Hf|done|].
  apply Forall_forall. intros k Hk.
  eapply Forall_forall in IH; [|done]. apply IH.
  by eapply Forall_forall in Hks.
Qed.

Lemma depth_erase t : xml_depth (erase t) = depth t.
Proof.
  induction t as [l e ks IH] using etree_ind'. cbn [erase xml_depth depth].
  do 2 f_equal. rewrite <- list_fmap_compose.
  apply list_eq_Forall2, Forall2_fmap, Forall_Forall2_diag.
  eapply Forall_impl; [exact IH|]. done.
Qed.

End Reading.

Section Alloc.

Lemma alloc_unfold tg a tx tl cs h :
  alloc (Xml tg a tx tl cs) h =
  let lh := alloc_list cs h in
  let l := fresh (dom lh.2) in
  (l, <[l := mkElement tg a tx tl lh.1]> lh.2).
Proof.
  cbn [alloc].
  match goal with |- (let '(_, _) := ?f cs h in _) = _ =>
    assert (∀ cs h, f cs h = alloc_list cs h) as ->
  end.
  { clear. induction cs as [|c cs IH]; intros h; [done|].
    cbn [alloc_list]. destruct (alloc c h) as [l h1]. by rewrite IH. }
  by destruct (alloc_list cs h).
Qed.

Lemma repr_locs h t l : repr h t → l ∈ locs t → is_Some (h !! l).
Proof.
  intros Hr (n & -> & Hn)%list_elem_of_fmap.
  destruct (repr_lookup _ _ _ Hr Hn) as [-> _]. by eexists.
Qed.

Lemma reprs_locs h ks l :
  Forall (repr h) ks → l ∈ flat_map locs ks → is_Some (h !! l).
Proof.
  intros Hr (k & Hk & Hl)%elem_of_flat_map.
  eapply repr_locs; [|done]. by eapply Forall_forall in Hr.
Qed.

Lemma copied_nil h : copied [] h h.
Proof.
  split_and!; [done|apply NoDup_nil_2| |done]. intros ? []%elem_of_nil.
Qed.

Lemma copied_app ks1 ks2 h h1 h2 :
  copied ks1 h h1 → copied ks2 h1 h2 → copied (ks1 ++ ks2) h h2.
Proof.
  intros (Hr1 & Hnd1 & Hin1 & Hout1) (Hr2 & Hnd2 & Hin2 & Hout2).
  assert (∀ l, l ∈ flat_map locs ks1 → l ∉ flat_map locs ks2) as Hdis.
  { intros l H1 H2%Hin2. eapply reprs_locs in H1 as [? H1]; [|done].
    congruence. }
  unfold copied. rewrite flat_map_app. split_and!.
  - apply Forall_app. split; [|done].
    apply Forall_forall. intros k Hk. eapply repr_frame.
    + by eapply Forall_forall in Hr1.
    + intros l Hl. apply Hout2, Hdis, elem_of_flat_map. eauto.
  - by apply NoDup_app.
  - intros l [Hl|Hl]%elem_of_app; [by apply Hin1|].
    rewrite <- Hout1; [by apply Hin2|]. intros ?. by eapply Hdis.
  - intros l Hl. rewrite elem_of_app in Hl.
    rewrite Hout2, Hout1; [done|naive_solver..].
Qed.

Lemma copied_node l e ks h h1 :
  copied ks h h1 → h1 !! l = None → _children e = root_loc <$> ks →
  copied [ENode l e ks] h (<[l := e]> h1).
Proof.
  intros (Hr & Hnd & Hin & Hout) Hl Hc.
  assert (l ∉ flat_map locs ks) as Hlk.
  { intros [? H]%(reprs_locs h1); [congruence|done]. }
  unfold copied. cbn [flat_map]. rewrite app_nil_r, locs_cons. split_and!.
  - apply Forall_singleton. constructor; [by rewrite lookup_insert_eq|done|].
    apply Forall_forall. intros k Hk. eapply repr_frame.
    + by eapply Forall_forall in Hr.
    + intros l' Hl'. rewrite lookup_insert_ne; [done|]. intros ->.
      apply Hlk, elem_of_flat_map. eauto.
  - by apply NoDup_cons.
  - intros l' [->|Hl']%elem_of_cons; [|by apply Hin].
    by rewrite <- Hout.
  - intros l' [Hne Hl']%not_elem_of_cons.
    by rewrite lookup_insert_ne, Hout.
Qed.

Lemma alloc_list_spec cs h :
  Forall alloc_ok cs →
  ∃ ks, root_loc <$> ks = (alloc_list cs h).1 ∧ erase <$> ks = cs
        ∧ copied ks h (alloc_list cs h).2.
Proof.
  intros Hall. revert h. induction Hall as [|c cs Hc Hcs IH]; intros h.
  - exists []. split_and!; [done..|apply copied_nil].
  - cbn [alloc_list]. destruct (Hc h) as (t & Hl & He & Hcp).
    destruct (alloc c h) as [l h1]. simpl in *.
    destruct (IH h1) as (ks & Hls & Hes & Hcps).
    destruct (alloc_list cs h1) as [ls h2]. simpl in *.
    exists (t :: ks). rewrite !fmap_cons. split_and!; [congruence..|].
    by apply (copied_app [t] ks h h1 h2).
Qed.

Lemma alloc_spec x : alloc_ok x.
Proof.
  induction x as [tg a tx tl cs IH] using xml_ind'. intros h.
  rewrite alloc_unfold. cbn zeta.
  destruct (alloc_list_spec cs h IH) as (ks & Hls & Hes & Hcp).
  destruct (alloc_list cs h) as [ls h1]. simpl in *.
  exists (ENode (fresh (dom h1)) (mkElement tg a tx tl ls) ks).
  split_and!; [done|by cbn [erase]; rewrite Hes|].
  apply copied_node; [done| |done].
  apply not_elem_of_dom, is_fresh.
Qed.

(** [deepcopy] of a readable document: a tree of new objects with the
    same content, readable with the same fuel. *)
Lemma deepcopy_spec fuel h doc t :
  subtree fuel h doc = Some t →
  ∃ t', deepcopy fuel h doc = Some (root_loc t', (alloc (erase t) h).2)
        ∧ subtree fuel (alloc (erase t) h).2 (root_loc t') = Some t'
        ∧ erase t' = erase t
        ∧ copied [t'] h (alloc (erase t) h).2.
Proof.
  intros H. unfold deepcopy. rewrite H. cbn [mbind option_bind].
  destruct (alloc_spec (erase t) h) as (t' & Hl & He & Hcp).
  exists t'. split_and!; [|  |done..].
  - rewrite Hl. by destruct (alloc (erase t) h).
  - apply repr_subtree.
    + destruct Hcp as [Hr _]. by inversion Hr.
    + rewrite <- depth_erase, He, depth_erase.
      apply subtree_repr in H. tauto.
Qed.

End Alloc.

(** ** The two path expressions of [write] *)

Section Findall.

Lemma foldl_flat_map {A B C} (f : A → C → A) (g : B → list C) a l :
  foldl f a (flat_map g l) = foldl (λ a x, foldl f a (g x)) a l.
Proof.
  revert a. induction l as [|x l IH]; intros a; [done|].
  cbn [flat_map]. by rewrite foldl_app, IH.
Qed.

Lemma foldl_fmap' {A B C} (f : A → C → A) (g : B → C) a l :
  foldl f a (g <$> l) = foldl (λ a x, f a (g x)) a l.
Proof. revert a. induction l as [|x l IH]; intros a; [done|]. apply IH. Qed.

Lemma fmap_flat_map {A B C} (f : B → C) (g : A → list B) l :
  f <$> flat_map g l = flat_map (λ x, f <$> g x) l.
Proof.
  induction l as [|x l IH]; [done|]. cbn [flat_map].
  by rewrite fmap_app, IH.
Qed.

Lemma flat_map_flat_map {A B C} (f : B → list C) (g : A → list B) l :
  flat_map f (flat_map g l) = flat_map (λ x, flat_map f (g x)) l.
Proof.
  induction l as [|x l IH]; [done|]. cbn [flat_map].
  by rewrite flat_map_app, IH.
Qed.

Lemma foldl_ext' {A B} (f g : A → B → A) a l :
  (∀ a x, f a x = g a x) → foldl f a l = foldl g a l.
Proof.
  intros H. revert a. induction l as [|x l IH]; intros a; [done|].
  cbn [foldl]. by rewrite H, IH.
Qed.

Lemma parent_map_pairs t :
  parent_map t = foldl (λ m cp, <[cp.1 := cp.2]> m) ∅ (parent_pairs t).
Proof.
  unfold parent_map, parent_pairs. rewrite foldl_flat_map.
  apply foldl_ext'. intros m p. by rewrite foldl_fmap'.
Qed.

Lemma insert_all_notin (pairs : list (loc * loc)) (m : gmap loc loc) c :
  c ∉ pairs.*1 → foldl (λ m cp, <[cp.1 := cp.2]> m) m pairs !! c = m !! c.
Proof.
  revert m. induction pairs as [|[c0 p0] pairs IH]; intros m; [done|].
  rewrite fmap_cons, not_elem_of_cons. intros [Hne Hc]. cbn [foldl].
  rewrite IH by done. by rewrite lookup_insert_ne.
Qed.

Lemma insert_all_lookup (pairs : list (loc * loc)) (m : gmap loc loc) c p :
  NoDup pairs.*1 → (c, p) ∈ pairs →
  foldl (λ m cp, <[cp.1 := cp.2]> m) m pairs !! c = Some p.
Proof.
  revert m. induction pairs as [|[c0 p0] pairs IH]; intros m.
  - intros _ []%elem_of_nil.
  - rewrite fmap_cons, NoDup_cons. intros [Hc0 Hnd] Hin. cbn [foldl].
    apply elem_of_cons in Hin as [Heq|Hin].
    + simplify_eq. rewrite insert_all_notin by done.
      apply lookup_insert_eq.
    + by apply IH.
Qed.

Lemma insert_all_inv (pairs : list (loc * loc)) (m : gmap loc loc) c p :
  foldl (λ m cp, <[cp.1 := cp.2]> m) m pairs !! c = Some p →
  (c, p) ∈ pairs ∨ m !! c = Some p.
Proof.
  revert m. induction pairs as [|[c0 p0] pairs IH]; intros m; [by right|].
  cbn [foldl]. intros [H|H]%IH; [left; by right|].
  cbn [fst snd] in H. destruct (decide (c0 = c)) as [->|Hne].
  - rewrite lookup_insert_eq in H. simplify_eq. left. left.
  - rewrite lookup_insert_ne in H by done. by right.
Qed.

(** The referenced children of the nodes of a tree are its nodes but the
    root. *)
Lemma child_locs_perm h t :
  repr h t →
  flat_map (λ p, _children (root_elem p)) (preorder t)
  ≡ₚ flat_map locs (kids t).
Proof.
  induction t as [l e ks IH] using etree_ind'. intros Hr.
  inversion Hr as [??? Hl Hc Hks]; subst.
  cbn [preorder flat_map kids root_elem]. rewrite Hc, flat_map_flat_map.
  clear Hr Hl Hc. induction ks as [|k ks IHks]; [done|].
  apply Forall_cons in IH as [IHk IH]. apply Forall_cons in Hks as [Hk Hks].
  cbn [flat_map]. rewrite fmap_cons. specialize (IHks IH Hks).
  specialize (IHk Hk). destruct k as [lk ek kk].
  rewrite locs_cons. cbn [root_loc kids] in *.
  rewrite IHk, <- IHks. cbn [app].
  apply Permutation_skip. rewrite !app_assoc.
  apply Permutation_app_tail, Permutation_app_comm.
Qed.

Lemma parent_pairs_keys t :
  (parent_pairs t).*1 = flat_map (λ p, _children (root_elem p)) (preorder t).
Proof.
  unfold parent_pairs. rewrite fmap_flat_map. apply flat_map_ext.
  intros p. rewrite <- list_fmap_compose. apply list_fmap_id.
Qed.

Lemma preorder_kids t n k : n ∈ preorder t → k ∈ kids n → k ∈ preorder t.
Proof.
  induction t as [l e ks IH] using etree_ind'. cbn [preorder].
  intros [->|Hn]%elem_of_cons Hk.
  - right. apply elem_of_flat_map. exists k. split; [done|].
    destruct k. left.
  - right. apply elem_of_flat_map in Hn as (k' & Hk' & Hn).
    apply elem_of_flat_map. exists k'. split; [done|].
    eapply Forall_forall in IH; [|done]. by apply IH.
Qed.

Lemma elem_of_dedup_first `{EqDecision A} (seen l : list A) x :
  x ∈ dedup_first seen l ↔ x ∈ l ∧ x ∉ seen.
Proof.
  revert seen. induction l as [|y l IH]; intros seen; cbn [dedup_first].
  - split; [intros []%elem_of_nil|intros [[]%elem_of_nil _]].
  - case_decide.
    + rewrite IH, elem_of_cons. naive_solver.
    + rewrite !elem_of_cons, IH, not_elem_of_cons.
      destruct (decide (x = y)); naive_solver.
Qed.

(** The parents that the first path expression finds: nodes of the tree
    only, and every node that has a hidden child. *)
Lemma findall_hidden_parents_spec fuel h root t :
  subtree fuel h root = Some t → NoDup (locs t) →
  ∃ parents,
    findall_hidden_parents fuel h root = Some parents
    ∧ (∀ p, p ∈ parents → p ∈ locs t)
    ∧ (∀ n k, n ∈ preorder t → k ∈ kids n → is_hidden (root_elem k) →
              root_loc n ∈ parents).
Proof.
  intros H Hnd. unfold findall_hidden_parents. rewrite H.
  cbn [mbind option_bind]. eexists. split; [done|].
  apply subtree_repr in H as (Hroot & Hr & _).
  pose proof (child_locs_perm _ _ Hr) as Hperm.
  rewrite <- parent_pairs_keys in Hperm.
  destruct t as [l e ks]. cbn [root_loc kids] in *. subst l.
  rewrite locs_cons in Hnd. apply NoDup_cons in Hnd as [Hroot Hnd].
  rewrite <- Hperm in Hroot, Hnd. split.
  - intros p [Hp _]%elem_of_dedup_first.
    apply list_elem_of_omap in Hp as (k & _ & Hp).
    rewrite parent_map_pairs in Hp.
    apply insert_all_inv in Hp as [Hp|Hp]; [|done].
    apply elem_of_flat_map in Hp as (n & Hn & Hp).
    apply list_elem_of_fmap in Hp as (c & Heq & _). simplify_eq.
    apply list_elem_of_fmap. eauto.
  - intros n k Hn Hk Hh. apply elem_of_dedup_first.
    split; [|apply not_elem_of_nil].
    destruct (repr_lookup _ _ _ Hr Hn) as [_ Hc].
    assert ((root_loc k, root_loc n) ∈ parent_pairs (ENode root e ks)) as Hin.
    { apply elem_of_flat_map. exists n. split; [done|].
      apply list_elem_of_fmap. exists (root_loc k). split; [done|].
      rewrite Hc. apply list_elem_of_fmap. eauto. }
    apply list_elem_of_omap. exists k. split.
    + apply list_elem_of_filter. split; [done|].
      apply list_elem_of_filter. split; [|by eapply preorder_kids].
      intros Heq. apply Hroot.
      apply list_elem_of_fmap. exists (root_loc k, root_loc n). done.
    + rewrite parent_map_pairs. by apply insert_all_lookup.
Qed.

End Findall.

Section Prune.

Lemma with_children_id e : with_children e (_children e) = e.
Proof. by destruct e. Qed.

Lemma remove_list_cons_notin c nodes cs :
  c ∉ nodes → remove_list nodes (c :: cs) = (c ::.) <$> remove_list nodes cs.
Proof.
  revert cs. induction nodes as [|n nodes IH]; intros cs; [done|].
  rewrite not_elem_of_cons. intros [Hne Hc]. cbn [remove_list remove_first].
  rewrite decide_False by done.
  destruct (remove_first n cs) as [cs1|]; [|done].
  cbn [fmap option_fmap option_map mbind option_bind]. by apply IH.
Qed.

Lemma remove_list_filter (P : loc → Prop) `{∀ x, Decision (P x)} cs :
  remove_list (filter P cs) cs = Some (filter (λ c, ¬ P c) cs).
Proof.
  induction cs as [|c cs IH]; [done|].
  rewrite !filter_cons. destruct (decide (P c)) as [Hc|Hc].
  - rewrite decide_False by tauto. cbn [remove_list remove_first].
    rewrite decide_True by done. done.
  - rewrite decide_True by done. rewrite remove_list_cons_notin, IH; [done|].
    by intros [? _]%list_elem_of_filter.
Qed.

Lemma remove_nodes_spec p nodes h e cs' :
  h !! p = Some e → remove_list nodes (_children e) = Some cs' →
  remove_nodes p nodes h = (Ok (), <[p := with_children e cs']> h).
Proof.
  revert h e. induction nodes as [|n nodes IH]; intros h e Hp Hl.
  - simplify_eq/=. by rewrite with_children_id, insert_id.
  - cbn [remove_list] in Hl.
    destruct (remove_first n (_children e)) as [cs1|] eqn:E1; [|done].
    cbn [mbind option_bind] in Hl. cbn [remove_nodes]. unfold elem_remove.
    rewrite Hp, E1.
    rewrite (IH _ (with_children e cs1) (lookup_insert_eq _ _ _) Hl).
    by rewrite insert_insert_eq.
Qed.

Lemma prune_drop parents h :
  prune parents h = (Ok (), foldl drop_hidden h parents).
Proof.
  revert h. induction parents as [|p parents IH]; intros h; [done|].
  cbn [prune foldl].
  assert (remove_nodes p (findall_hidden_children h p) h
          = (Ok (), drop_hidden h p)) as ->; [|apply IH].
  unfold findall_hidden_children, drop_hidden, elem_children.
  destruct (h !! p) as [e|] eqn:Hp; [|done]. cbn [from_option].
  eapply remove_nodes_spec; [done|]. apply remove_list_filter.
Qed.

Lemma hidden_at_drop h p c : hidden_at (drop_hidden h p) c = hidden_at h c.
Proof.
  unfold drop_hidden. destruct (h !! p) as [e|] eqn:Hp; [|done].
  unfold hidden_at. destruct (decide (c = p)) as [->|Hne].
  - by rewrite lookup_insert_eq, Hp.
  - by rewrite lookup_insert_ne.
Qed.

Lemma without_hidden_ext h h' e :
  (∀ c, hidden_at h' c = hidden_at h c) →
  without_hidden h' e = without_hidden h e.
Proof.
  intros H. unfold without_hidden. f_equal. apply list_filter_iff.
  intros c. by rewrite H.
Qed.

Lemma without_hidden_idem h e :
  without_hidden h (without_hidden h e) = without_hidden h e.
Proof.
  unfold without_hidden, with_children. cbn [_children tag attrib text tail].
  f_equal. rewrite list_filter_filter. apply list_filter_iff. tauto.
Qed.

Lemma drop_lookup h p l :
  drop_hidden h p !! l
  = if decide (l = p) then without_hidden h <$> h !! l else h !! l.
Proof.
  unfold drop_hidden. case_decide; subst.
  - destruct (h !! p) as [e|] eqn:Hp; [|by rewrite Hp].
    by rewrite lookup_insert_eq.
  - destruct (h !! p); [|done]. by rewrite lookup_insert_ne.
Qed.

(** After the loops every parent has lost its hidden children, and
    nothing else has changed. *)
Lemma drop_all_lookup h parents l :
  foldl drop_hidden h parents !! l
  = if decide (l ∈ parents) then without_hidden h <$> h !! l else h !! l.
Proof.
  revert h. induction parents as [|p parents IH]; intros h.
  - cbn [foldl]. rewrite decide_False; [done|apply not_elem_of_nil].
  - cbn [foldl]. rewrite IH, drop_lookup.
    assert (∀ e, without_hidden (drop_hidden h p) e = without_hidden h e)
      as Hext by (intros; apply without_hidden_ext, hidden_at_drop).
    destruct (decide (l = p)) as [->|Hne].
    + rewrite (decide_True (P := p ∈ p :: parents)) by left.
      case_decide; [|done]. rewrite <- option_fmap_compose.
      apply option_fmap_ext. intros e0. simpl.
      by rewrite Hext, without_hidden_idem.
    + destruct (decide (l ∈ parents)).
      * rewrite decide_True by (by right).
        apply option_fmap_ext. intros e0. apply Hext.
      * rewrite decide_False; [done|]. by apply not_elem_of_cons.
Qed.

Lemma prune_xml_unfold tg a tx tl cs :
  prune_xml (Xml tg a tx tl cs)
  = Xml tg a tx tl (prune_xml <$> filter (λ c, ¬ xml_hidden c) cs).
Proof.
  cbn [prune_xml]. f_equal.
  induction cs as [|c cs IH]; [done|]. rewrite filter_cons.
  destruct (xml_hidden c).
  - by rewrite decide_False by (intros H; by apply H).
  - rewrite decide_True by (by intros ?). by rewrite fmap_cons, IH.
Qed.

Lemma prune_etree_unfold l e ks :
  prune_etree (ENode l e ks)
  = let ks' := prune_etree <$> filter (λ k, ¬ is_hidden (root_elem k)) ks in
    ENode l (with_children e (root_loc <$> ks')) ks'.
Proof.
  cbn [prune_etree].
  match goal with |- ENode _ (with_children _ (_ <$> ?f ks)) _ = _ =>
    assert (f ks = prune_etree <$> filter (λ k, ¬ is_hidden (root_elem k)) ks)
      as ->; [|done]
  end.
  induction ks as [|k ks IH]; [done|]. rewrite filter_cons.
  destruct (is_hidden (root_elem k)).
  - by rewrite decide_False by (intros H; by apply H).
  - rewrite decide_True by (by intros ?). by rewrite fmap_cons, IH.
Qed.

Lemma root_loc_prune t : root_loc (prune_etree t) = root_loc t.
Proof. destruct t. by rewrite prune_etree_unfold. Qed.

Lemma erase_prune t : erase (prune_etree t) = prune_xml (erase t).
Proof.
  induction t as [l e ks IH] using etree_ind'.
  rewrite prune_etree_unfold. cbn [erase]. rewrite prune_xml_unfold.
  cbn [tag attrib text tail with_children]. f_equal.
  induction ks as [|k ks IHks]; [done|].
  apply Forall_cons in IH as [Hk IH]. rewrite fmap_cons, !filter_cons.
  assert (xml_hidden (erase k) = is_hidden (root_elem k)) as ->
    by by destruct k.
  case_decide; [|by apply IHks].
  rewrite !fmap_cons, Hk. f_equal. by apply IHks.
Qed.

Lemma depth_prune t : depth (prune_etree t) ≤ depth t.
Proof.
  induction t as [l e ks IH] using etree_ind'.
  rewrite prune_etree_unfold. cbn [depth]. apply le_n_S, max_list_le.
  apply Forall_fmap, Forall_fmap, Forall_forall. intros k Hk.
  apply list_elem_of_filter in Hk as [_ Hk]. simpl.
  eapply Forall_forall in IH; [|done]. etrans; [exact IH|].
  apply max_list_elem_of_le, list_elem_of_fmap. eauto.
Qed.

Lemma filter_kids h ks :
  Forall (repr h) ks →
  filter (λ c, ¬ hidden_at h c) (root_loc <$> ks)
  = root_loc <$> filter (λ k, ¬ is_hidden (root_elem k)) ks.
Proof.
  induction 1 as [|k ks Hk Hks IH]; [done|].
  rewrite fmap_cons, !filter_cons, IH.
  assert (hidden_at h (root_loc k) = is_hidden (root_elem k)) as ->.
  { inversion Hk as [??? Hl _ _]; subst. unfold hidden_at.
    cbn [root_loc root_elem]. by rewrite Hl. }
  by case_decide.
Qed.

(** Reading the tree after the loops gives the pruned tree. *)
Lemma repr_pruned h h2 t :
  repr h t →
  (∀ n, n ∈ preorder t →
        h2 !! root_loc n = Some (without_hidden h (root_elem n))) →
  repr h2 (prune_etree t).
Proof.
  induction t as [l e ks IH] using etree_ind'. intros Hr Hh2.
  inversion Hr as [??? Hl Hc Hks]; subst.
  rewrite prune_etree_unfold. cbn zeta. constructor.
  - assert (ENode l e ks ∈ preorder (ENode l e ks)) as Hroot by left.
    apply Hh2 in Hroot. cbn [root_loc root_elem] in Hroot. rewrite Hroot.
    unfold without_hidden. do 2 f_equal. rewrite Hc, filter_kids by done.
    rewrite <- list_fmap_compose. apply list_fmap_ext.
    intros ? k _. simpl. by rewrite root_loc_prune.
  - done.
  - apply Forall_fmap, Forall_forall. intros k Hk.
    apply list_elem_of_filter in Hk as [_ Hk]. simpl.
    eapply Forall_forall in IH; [|done]. apply IH.
    + by eapply Forall_forall in Hks.
    + intros n Hn. apply Hh2. right. apply elem_of_flat_map. eauto.
Qed.

End Prune.

Section FilteredCopy.

Lemma filter_all {A} (P : A → Prop) `{∀ x, Decision (P x)} (l : list A) :
  Forall P l → filter P l = l.
Proof.
  induction 1 as [|x l Hx Hl IH]; [done|].
  by rewrite filter_cons, decide_True, IH.
Qed.

(** The filtered copy of a readable document is made of new objects,
    reads as the pruned document, and leaves every object of the store
    as it was. *)
Lemma filtered_copy_spec fuel h doc t :
  subtree fuel h doc = Some t →
  ∃ root h2,
    filtered_copy fuel h doc = Some (Ok root, h2)
    ∧ erase <$> subtree fuel h2 root = Some (prune_xml (erase t))
    ∧ h !! root = None
    ∧ (∀ l e, h !! l = Some e → h2 !! l = Some e).
Proof.
  intros H.
  destruct (deepcopy_spec _ _ _ _ H) as (t' & Hdc & Hsub & Her & Hcp).
  set (h1 := (alloc (erase t) h).2) in *.
  destruct Hcp as (Hr & Hnd & Hfresh & Hframe).
  cbn [flat_map] in Hnd, Hfresh, Hframe. rewrite app_nil_r in *.
  apply Forall_inv in Hr.
  destruct (findall_hidden_parents_spec _ _ _ _ Hsub Hnd)
    as (parents & Hfind & Hsubset & Hcomplete).
  exists (root_loc t'), (foldl drop_hidden h1 parents).
  assert (∀ n, n ∈ preorder t' →
            foldl drop_hidden h1 parents !! root_loc n
            = Some (without_hidden h1 (root_elem n))) as Hpt.
  { intros n Hn. rewrite drop_all_lookup.
    destruct (repr_lookup _ _ _ Hr Hn) as [Hl Hc]. rewrite Hl.
    case_decide as Hp; [done|]. f_equal. unfold without_hidden.
    rewrite filter_all; [by rewrite with_children_id|].
    rewrite Hc. apply Forall_fmap, Forall_forall. intros k Hk. simpl.
    intros Hh. apply Hp, (Hcomplete n k); [done..|].
    assert (k ∈ preorder t') as Hk' by by eapply preorder_kids.
    destruct (repr_lookup _ _ _ Hr Hk') as [Hlk _].
    unfold hidden_at in Hh. by rewrite Hlk in Hh. }
  split_and!.
  - unfold filtered_copy. rewrite Hdc. cbn [mbind option_bind].
    rewrite Hfind. cbn [mbind option_bind]. by rewrite prune_drop.
  - rewrite <- (root_loc_prune t'). rewrite (repr_subtree _ _ (prune_etree t')).
    + cbn [fmap option_fmap option_map]. by rewrite erase_prune, Her.
    + by apply (repr_pruned h1).
    + etrans; [apply depth_prune|]. apply subtree_repr in Hsub. tauto.
  - apply Hfresh, list_elem_of_fmap. exists t'. split; [done|].
    destruct t'. left.
  - intros l e Hl. rewrite drop_all_lookup.
    assert (l ∉ locs t') as Hnl.
    { intros Hin. apply Hfresh in Hin. congruence. }
    rewrite decide_False by (intros ?; by apply Hnl, Hsubset).
    by rewrite Hframe.
Qed.

End FilteredCopy.

(** ** The incremental writer *)

Section WriterFacts.

Context {bytes : Type} `{EqDecision bytes}.
Context (tostring : xml → bytes) (parse : bytes → option xml).

Lemma write_unfold fuel self path s files :
  write tostring parse fuel self path s files
  = match visible_doc (children self) s with
    | Some doc => write_child tostring parse fuel doc path s files
    | None => Some (Ok false, s, files)
    end.
Proof.
  unfold write. induction (children self) as [|c cs IH]; [done|].
  cbn [visible_doc]. destruct (visible c s); [|done].
  by destruct (tree c).
Qed.

Lemma visible_doc_flags cs s s' :
  flags s' = flags s → visible_doc cs s' = visible_doc cs s.
Proof.
  intros Hf. induction cs as [|c cs IH]; [done|].
  cbn [visible_doc]. unfold visible. by rewrite Hf, IH.
Qed.

Lemma write_child_spec fuel doc path s files t :
  subtree fuel (elements s) doc = Some t →
  ∃ s',
    write_child tostring parse fuel doc path s files
    = Some ((slot_result tostring parse (prune_xml (erase t)) path files).1,
            s',
            (slot_result tostring parse (prune_xml (erase t)) path files).2)
    ∧ flags s' = flags s
    ∧ (∀ l e, elements s !! l = Some e → elements s' !! l = Some e).
Proof.
  intros Ht.
  destruct (filtered_copy_spec _ _ _ _ Ht) as (root & h2 & Hfc & Hnew & _ & Hfr).
  exists (mkStore h2 (flags s)). split_and!; [|done..].
  unfold write_child. rewrite Hfc. cbn [mbind option_bind].
  rewrite Hnew. cbn [mbind option_bind]. unfold slot_result.
  destruct (files !! path) as [content|]; [|done].
  destruct (parse content) as [old|]; [|done]. by case_decide.
Qed.

Lemma write_flags fuel self path s files r s' files' :
  write tostring parse fuel self path s files = Some (r, s', files') →
  flags s' = flags s.
Proof.
  rewrite write_unfold.
  destruct (visible_doc (children self) s) as [doc|]; [|by intros [= _ <- _]].
  unfold write_child.
  destruct (filtered_copy fuel (elements s) doc) as [[[root|err] h2]|];
    cbn [mbind option_bind]; [|by intros [= _ <- _]|done].
  destruct (subtree fuel h2 root) as [t|]; cbn [fmap option_fmap option_map
    mbind option_bind]; [|done].
  destruct (files !! path) as [content|]; [|by intros [= _ <- _]].
  destruct (parse content) as [old|]; [|by intros [= _ <- _]].
  case_decide; by intros [= _ <- _].
Qed.

(** C10: when the documents of the children of [self] can be read, [write]
    returns, and after it every flag is as before, every element object
    that existed is as before (tag, attributes, style among them, text and
    children), and so every document reads as before. *)
Theorem write_frame (fuel : nat) (self : Tree) (path : string) (s : Store)
    (files : gmap string bytes) :
  (∀ c doc, c ∈ children self → tree c = Some doc →
            is_Some (subtree fuel (elements s) doc)) →
  ∃ r s' files',
    write tostring parse fuel self path s files = Some (r, s', files')
    ∧ flags s' = flags s
    ∧ (∀ l e, elements s !! l = Some e → elements s' !! l = Some e)
    ∧ (∀ doc t, subtree fuel (elements s) doc = Some t →
                subtree fuel (elements s') doc = Some t).
Proof.
  intros Hread. rewrite write_unfold.
  destruct (visible_doc (children self) s) as [doc|] eqn:Hv.
  - assert (∃ c, c ∈ children self ∧ tree c = Some doc) as (c & Hc & Hd).
    { clear Hread. induction (children self) as [|c cs IH]; [done|].
      cbn [visible_doc] in Hv. destruct (visible c s).
      - destruct (tree c) eqn:Et.
        + simplify_eq. exists c. split; [left|done].
        + destruct (IH Hv) as (c' & ? & ?). exists c'. split; [by right|done].
      - destruct (IH Hv) as (c' & ? & ?). exists c'. split; [by right|done]. }
    destruct (Hread _ _ Hc Hd) as [t Ht].
    destruct (write_child_spec fuel doc path s files t Ht) as (s' & -> & Hf & Hfr).
    eexists _, s', _. split_and!; [done..|].
    intros doc' t'. by apply subtree_frame.
  - eexists _, s, _. split_and!; done.
Qed.

(** C2, amended: when no child of [self] is visible with a document,
    [write] returns [Unchanged] and writes nothing, whatever the slot
    holds.  Otherwise, with [new] the filtered copy of the document of the
    first such child: [write] returns [Unchanged], and writes nothing,
    exactly when the slot holds a document that parses and whose
    serialization equals that of [new]; it raises [ParseError], and writes
    nothing, exactly when the slot holds a file that does not parse; in
    every other case it overwrites the slot with the serialization of [new]
    and returns [Changed].  And when the serialization of [new] parses back
    to a document with the same serialization, a second [write] after one
    that returned returns [Unchanged] and leaves the files as they are. *)
Theorem write_slot (fuel : nat) (self : Tree) (path : string) (s : Store)
    (files : gmap string bytes) :
  (visible_doc (children self) s = None →
   write tostring parse fuel self path s files = Some (Ok false, s, files))
  ∧ (∀ doc t,
       visible_doc (children self) s = Some doc →
       subtree fuel (elements s) doc = Some t →
       let new := prune_xml (erase t) in
       ∃ r s' files',
         write tostring parse fuel self path s files = Some (r, s', files')
         ∧ (r, files') = slot_result tostring parse new path files
         ∧ (r = Ok false ↔
            ∃ content old, files !! path = Some content
                           ∧ parse content = Some old
                           ∧ tostring old = tostring new)
         ∧ (r = Raise ParseError ↔
            ∃ content, files !! path = Some content ∧ parse content = None)
         ∧ (r = Ok false ∨ r = Raise ParseError → files' = files)
         ∧ (r ≠ Ok false → r ≠ Raise ParseError →
            r = Ok true ∧ files' = <[path := tostring new]> files)
         ∧ ((∃ old, parse (tostring new) = Some old
                    ∧ tostring old = tostring new) →
            ∀ b, r = Ok b →
              ∃ s'', write tostring parse fuel self path s' files'
                     = Some (Ok false, s'', files'))).
Proof.
  split.
  - intros Hv. by rewrite write_unfold, Hv.
  - intros doc t Hv Ht new. rewrite write_unfold, Hv.
    destruct (write_child_spec fuel doc path s files t Ht)
      as (s' & -> & Hf & Hfr).
    fold new.
    assert (∀ files1, files1 !! path = Some (tostring new) ∨ files1 = files →
              (∃ old, parse (tostring new) = Some old
                      ∧ tostring old = tostring new) →
              (slot_result tostring parse new path files).1 ≠ Raise ParseError →
              files1 = (slot_result tostring parse new path files).2 →
              ∃ s'', write tostring parse fuel self path s' files1
                     = Some (Ok false, s'', files1)) as Hsecond.
    { intros files1 Hf1 (old & Hp & Ho) Hne Heq. rewrite write_unfold.
      rewrite (visible_doc_flags _ _ _ Hf), Hv.
      destruct (write_child_spec fuel doc path s' files1 t) as (s'' & -> & _).
      { eapply subtree_frame; [exact Hfr|done]. }
      fold new. exists s''. revert Hne Heq Hf1. unfold slot_result.
      destruct (files !! path) as [content|] eqn:Efp.
      - destruct (parse content) as [old'|] eqn:Ep; [|done].
        case_decide as Hd; cbn [fst snd].
        + intros _ -> _. rewrite Efp, Ep, decide_True by done. done.
        + intros _ -> _. rewrite lookup_insert_eq, Hp, decide_True by done.
          done.
      - cbn [fst snd]. intros _ -> _.
        rewrite lookup_insert_eq, Hp, decide_True by done. done. }
    eexists _, s', _. split; [done|]. split; [by destruct (slot_result _ _ _ _ _)|].
    revert Hsecond. unfold slot_result.
    destruct (files !! path) as [content|] eqn:Efp.
    + destruct (parse content) as [old|] eqn:Ep.
      * case_decide as Hd; cbn [fst snd]; intros Hsecond.
        -- split_and!; try done; try naive_solver.
           all: intros Hrt b _; apply Hsecond; [by right|done..].
        -- split_and!; try done; try naive_solver.
           all: intros Hrt b _; apply Hsecond; [|done..].
           all: left; apply lookup_insert_eq.
      * cbn [fst snd]. intros _. split_and!; try done; naive_solver.
    + cbn [fst snd]. intros Hsecond. split_and!; try done; try naive_solver.
      all: intros Hrt b _; apply Hsecond; [|done..].
      all: left; apply lookup_insert_eq.
Qed.

End WriterFacts.

(** C6, counterexample: the root of [doc_hidden_root] carries the hidden
    marker on itself, so that the pruning of the specification removes it,
    yet it is in the filtered copy, which is the whole document. *)
Lemma root_with_marker_is_kept :
  xml_hidden doc_hidden_root = true
  ∧ prune_spec doc_hidden_root = None
  ∧ ∃ root h2,
      filtered_copy 2 (elements (store_of doc_hidden_root).2)
                    (store_of doc_hidden_root).1 = Some (Ok root, h2)
      ∧ erase <$> subtree 2 h2 root = Some doc_hidden_root.
Proof.
  split_and!; [done..|]. eexists _, _. split; vm_compute; reflexivity.
Qed.

(** C6, amended: the filtered copy of a document is the document pruned by
    [prune_xml]: its root stays whatever its style; below an element that
    stays, a child is removed, with all that it contains, exactly when its
    own style attribute is ["display:none"] verbatim, and every other child
    stays and is pruned in the same way. *)
Theorem filtered_copy_prunes (fuel : nat) (h : heap) (doc : loc) (t : etree) :
  subtree fuel h doc = Some t →
  (∃ root h2,
     filtered_copy fuel h doc = Some (Ok root, h2)
     ∧ erase <$> subtree fuel h2 root = Some (prune_xml (erase t)))
  ∧ (∀ tg a tx tl cs,
       prune_xml (Xml tg a tx tl cs)
       = Xml tg a tx tl (prune_xml <$> filter (λ c, ¬ xml_hidden c) cs))
  ∧ (∀ tg a tx tl cs,
       xml_hidden (Xml tg a tx tl cs) ↔ Dict.get "style" a = Some "display:none").
Proof.
  intros H. split_and!.
  - destruct (filtered_copy_spec _ _ _ _ H) as (root & h2 & ? & ? & _).
    by exists root, h2.
  - apply prune_xml_unfold.
  - intros. cbn [xml_hidden]. by rewrite bool_decide_spec.
Qed.

Lemma filtered_copy_prunes_witness :
  ∃ root h2,
    filtered_copy 3 (elements two_store) 4 = Some (Ok root, h2)
    ∧ erase <$> subtree 3 h2 root
      = Some (svg_xml [layer_xml "a" (Some shown_marker) [path_xml]]).
Proof.
  destruct (filtered_copy_prunes 3 (elements two_store) 4 two_tree)
    as [(root & h2 & H1 & H2) _]; [vm_compute; reflexivity|].
  exists root, h2. split; [exact H1|exact H2].
Defined.

Lemma write_frame_witness :
  ∃ r s' files',
    write (bytes := xml) id Some 3 two_presentation "0.svg" two_store ∅
    = Some (r, s', files')
    ∧ flags s' = flags two_store.
Proof.
  destruct (write_frame (bytes := xml) id Some 3 two_presentation "0.svg"
              two_store ∅) as (r & s' & files' & H1 & H2 & _).
  - intros c doc Hc Hd. cbn [two_presentation children] in Hc.
    apply list_elem_of_singleton in Hc. subst c. cbn [tree] in Hd.
    injection Hd as <-. exists two_tree. vm_compute. reflexivity.
  - exists r, s', files'. split; [exact H1|exact H2].
Defined.

(** Changed, then Unchanged: the two-layer document written twice to the
    same slot, with documents standing for their own serialization. *)
Lemma write_slot_witness :
  ∃ s1 files1 s2,
    write (bytes := xml) id Some 3 two_presentation "0.svg" two_store ∅
    = Some (Ok true, s1, files1)
    ∧ write (bytes := xml) id Some 3 two_presentation "0.svg" s1 files1
      = Some (Ok false, s2, files1).
Proof.
  destruct (write_slot (bytes := xml) id Some 3 two_presentation "0.svg"
              two_store ∅) as [_ H].
  destruct (H 4 two_tree) as (r & s1 & files1 & H1 & H2 & _ & _ & _ & H3 & H4);
    [vm_compute; reflexivity..|].
  destruct H3 as [-> _].
  - intros E. rewrite E in H2. vm_compute in H2. discriminate H2.
  - intros E. rewrite E in H2. vm_compute in H2. discriminate H2.
  - destruct (H4 (ex_intro _ _ (conj eq_refl eq_refl)) true eq_refl) as [s2 H5].
    exists s1, files1, s2. split; [exact H1|exact H5].
Defined.

(** ** Claims on the walk and on the forest *)

(** C2, counterexample: with no input document the walk yields the
    super-root once, and [write] returns [Unchanged] although the slot
    holds no document; and on a slot that holds a file that does not parse,
    [write] raises instead of overwriting it. *)
Lemma write_unchanged_on_empty_slot :
  (∃ p s0 sy,
     main_load 1 [] empty_store = Some (Ok (p, s0))
     ∧ (iter p s0).1 = [(p, sy)]
     ∧ (∅ : gmap string xml) !! "0.svg" = None
     ∧ write (bytes := xml) id Some 1 p "0.svg" sy ∅ = Some (Ok false, sy, ∅))
  ∧ (∃ s',
       write (bytes := string) (λ _, "<svg />") (λ _, None) 3
             two_presentation "0.svg" two_store {["0.svg" := "not xml"]}
       = Some (Raise ParseError, s', {["0.svg" := "not xml"]})).
Proof.
  split.
  - eexists _, _, _. split_and!; [vm_compute; reflexivity..|done|].
    vm_compute. reflexivity.
  - eexists. vm_compute. reflexivity.
Qed.

(** C1, the code at the failing input: in the forest of [doc_ab], at the
    yield of the layer [a], the layer [b] is a node off the chain and its
    flag is false, but the style of its element is not the hidden marker:
    the element has no child, so the setter of [visible] never wrote it. *)
Lemma empty_layer_keeps_its_style :
  ∃ p s0 a b lb sy rest,
    forest_of 4 doc_ab = Some (p, s0)
    ∧ (iter p s0).1 = (a, sy) :: rest
    ∧ b ∈ nodes p
    ∧ t_id b ∉ chain p (t_id a)
    ∧ visible b sy = false
    ∧ element b = Some lb
    ∧ elem_children (elements sy) lb = []
    ∧ elem_get (elements sy) lb "style" = Some shown_marker.
Proof.
  eexists _, _, _, (mkTree 3 [] (Some 2) None), _, _, _.
  split_and!; try (vm_compute; reflexivity).
  - vm_compute. do 3 right. left.
  - vm_compute. intros H. repeat (apply elem_of_cons in H as [H|H]; [done|]).
    by apply elem_of_nil in H.
Qed.

(** C8, counterexample: at the first yield of the walk of the forest of
    [doc_two], the super-root and the document root, both without an
    element, have their flag set to true. *)
Lemma synthetic_roots_are_set_visible :
  ∃ p s0 leaf sy rest c,
    forest_of 4 doc_two = Some (p, s0)
    ∧ (iter p s0).1 = (leaf, sy) :: rest
    ∧ element p = None ∧ visible p sy = true
    ∧ children p = [c] ∧ element c = None ∧ visible c sy = true.
Proof.
  eexists _, _, _, _, _, _. split_and!; vm_compute; reflexivity.
Qed.

Section Forest.

Context {bytes : Type} `{EqDecision bytes}.
Context (tostring : xml → bytes) (parse : bytes → option xml).

Lemma visible_false s o n :
  flags s !! o = Some false → t_id n = o → visible n s = false.
Proof. intros H <-. unfold visible. by rewrite H. Qed.

(** C8, amended: in the forest that [main] builds, the nodes without an
    element are the super-root and the document roots.  Building leaves
    every flag false and [write] changes no flag; the walk does set the
    flag of such a node: at a yield a node is visible exactly when it is on
    the chain from the super-root to the yielded leaf, so the super-root
    is visible at every yield, and every flag is false again after the
    walk.  Setting the flag of a node without an element writes no style. *)
Theorem absent_element_flags (fuel : nat) (roots : list loc) (s : Store)
    (p : Tree) (s0 : Store) :
  main_load fuel roots s = Some (Ok (p, s0)) →
  (∀ n, n ∈ nodes p → element n = None ↔ n = p ∨ n ∈ children p)
  ∧ (∀ n, n ∈ nodes p → visible n s0 = false)
  ∧ (∀ leaf sy, (leaf, sy) ∈ (iter p s0).1 →
       visible p sy = true
       ∧ ∀ n, n ∈ nodes p →
              visible n sy = bool_decide (t_id n ∈ chain p (t_id leaf)))
  ∧ (∀ n, n ∈ nodes p → visible n (iter p s0).2 = false)
  ∧ (∀ n v s1, element n = None →
               elements (set_visible n v s1) = elements s1)
  ∧ (∀ fuel' self path s1 files r s' files',
       write tostring parse fuel' self path s1 files = Some (r, s', files') →
       flags s' = flags s1).
Proof.
  intros H. apply main_load_built in H as ((Hnd & Hin & _) & Hp & _ & Hdocs).
  cbn [flat_map] in Hnd, Hin. rewrite app_nil_r in Hnd, Hin.
  assert (∀ n, n ∈ nodes p → t_id n ∈ oids p) as Hoid.
  { intros n Hn. apply list_elem_of_fmap. eauto. }
  assert (∀ o, o ∈ oids p → flags s0 !! o = Some false) as Hfalse
    by (intros o Ho; by apply Hin).
  destruct (walk_flags_all p Hnd s0 Hfalse) as [Hend Hyield].
  split_and!.
  - intros n Hn. split.
    + intros Hnone. destruct p as [o cs e d]. cbn [nodes children] in *.
      apply elem_of_cons in Hn as [->|Hn]; [by left|]. right.
      apply elem_of_flat_map in Hn as (c & Hc & Hn).
      eapply Forall_forall in Hdocs as (_ & _ & Hel); [|done].
      destruct c as [oc ccs ec dc]. cbn [nodes children] in *.
      apply elem_of_cons in Hn as [->|Hn]; [done|].
      eapply Forall_forall in Hel as [? Hsome]; [|done]. congruence.
    + intros [->|Hc]; [done|].
      by eapply Forall_forall in Hdocs as (? & _).
  - intros n Hn. eapply visible_false; [|done]. by apply Hfalse, Hoid.
  - intros leaf sy Hy. destruct (Hyield _ _ Hy) as [Hl Hfl].
    assert (∀ n, n ∈ nodes p →
              visible n sy = bool_decide (t_id n ∈ chain p (t_id leaf))) as Hv.
    { intros n Hn. unfold visible. rewrite Hfl. case_decide.
      - by rewrite bool_decide_true.
      - rewrite bool_decide_false by done. by rewrite Hfalse by by apply Hoid. }
    split; [|done]. rewrite Hv; [|destruct p; left].
    by apply bool_decide_true, chain_in.
  - intros n Hn. eapply visible_false; [|done]. rewrite Hend.
    by apply Hfalse, Hoid.
  - intros n v s1 Hn. unfold set_visible. by rewrite Hn.
  - intros *. apply write_flags.
Qed.

End Forest.

Lemma absent_element_flags_witness : visible two_presentation two_store = true.
Proof.
  destruct (absent_element_flags (bytes := xml) id Some 4 [4]
              (store_of doc_two).2 two_presentation two_built)
    as (_ & _ & H & _); [vm_compute; reflexivity|].
  refine (proj1 (H (mkTree 2 [] (Some 1) None) two_store _)).
  vm_compute. left.
Defined.

(** * Further properties of the code *)

(** ** The style mini-language and the inlined copy *)

(** X1: every key and every value that [css_to_dict] returns is trimmed on
    both sides and holds neither [:] nor [;]. *)
Theorem css_to_dict_clean (s : string) (d : Dict.t) :
  css_to_dict s = Ok d → Forall clean_pair d.
Proof.
  unfold css_to_dict. case_decide; [by intros [= <-]|].
  intros (kvs & E & ->)%css_loop_pairs. apply update_clean; [done|].
  apply Forall_forall. intros kv Hkv.
  apply list_elem_of_lookup in Hkv as [i Hi].
  assert ((Ok <$> kvs) !! i = Some (Ok kv)) as Hi'
    by by rewrite list_lookup_fmap, Hi.
  rewrite <- E, list_lookup_fmap in Hi'.
  destruct (Str.split ";" s !! i) as [seg|] eqn:Es; simplify_eq/=.
  eapply css_entry_clean; [|done].
  eapply split_parts, list_elem_of_lookup_2, Es.
Qed.

Lemma css_to_dict_clean_witness :
  Forall clean_pair [("fill", "red"); ("stroke-width", "2 px")].
Proof.
  apply (css_to_dict_clean " fill : red ;stroke-width:  2 px ").
  reflexivity.
Defined.

Lemma css_to_dict_raise s e :
  css_to_dict s = Raise e → e = ValueError ∧ malformed s.
Proof.
  unfold css_to_dict, malformed. case_decide; [done|]. intros Hr.
  assert (e = ValueError) as ->.
  { revert Hr. generalize (@nil (string * string)).
    induction (Str.split ";" s) as [|seg segs IH]; intros acc; [done|].
    cbn [css_loop]. unfold css_entry.
    destruct (Str.strip <$> Str.split ":" seg) as [|? [|? [|? ?]]];
      cbn [bind]; try congruence. apply IH. }
  split; [done|]. split; [done|]. by apply css_loop_raise in Hr.
Qed.

Lemma css_to_dict_cases s :
  (∃ d, css_to_dict s = Ok d) ∨ (css_to_dict s = Raise ValueError ∧ malformed s).
Proof.
  destruct (css_to_dict s) as [d|e] eqn:E; [left; by eexists|].
  right. by destruct (css_to_dict_raise _ _ E) as [-> ?].
Qed.

Lemma malformed_raises s : malformed s → css_to_dict s = Raise ValueError.
Proof.
  intros [Hne Hseg]. unfold css_to_dict. rewrite decide_False by done.
  by apply css_loop_raise.
Qed.

(** X2: inlining a reference raises exactly when the style of the
    reference or the style of its target is malformed, and then it raises
    [ValueError]; no other exception leaves it. *)
Theorem new_node_raises (x_attrib target_attrib : Dict.t) (target_tag : string) :
  (new_node x_attrib target_tag target_attrib = Raise ValueError
   ↔ malformed (style_of x_attrib) ∨ malformed (style_of target_attrib))
  ∧ (∀ e, new_node x_attrib target_tag target_attrib = Raise e → e = ValueError).
Proof.
  unfold new_node, use_style, style_of.
  destruct (css_to_dict_cases (default EmptyString (Dict.get "style" x_attrib)))
    as [[u Hu]|[Hu Hmu]];
  destruct (css_to_dict_cases (default EmptyString (Dict.get "style" target_attrib)))
    as [[t Ht]|[Ht Hmt]]; rewrite Hu, ?Ht; cbn [bind].
  - split; [|done]. split; [done|].
    intros [?%malformed_raises|?%malformed_raises]; congruence.
  - split; [|congruence]. split; [by right|done].
  - split; [|congruence]. split; [by left|done].
  - split; [|congruence]. split; [by left|done].
Qed.

Lemma append_assoc (a b c : string) : (a +:+ b) +:+ c = a +:+ (b +:+ c).
Proof.
  induction a as [|x a IH]; [done|].
  change (String x ((a +:+ b) +:+ c) = String x (a +:+ (b +:+ c))).
  by rewrite IH.
Qed.

(** X3: the inlined copy always carries a [transform] attribute.  It is
    the empty string when the reference has no transform, no [x], no [y]
    and the target has no transform; a missing coordinate counts as [0];
    whichever of them are present, the parts come in the order transform
    of the reference, translation, transform of the target, with one
    space between two parts and nothing for a part that is absent. *)
Theorem new_node_transform (x_attrib target_attrib : Dict.t)
    (target_tag tg : string) (attrib : Dict.t) :
  new_node x_attrib target_tag target_attrib = Ok (tg, attrib) →
  let tx := Dict.get "transform" x_attrib in
  let tt := Dict.get "transform" target_attrib in
  let x := Dict.get "x" x_attrib in
  let y := Dict.get "y" x_attrib in
  (∃ v, Dict.get "transform" attrib = Some v)
  ∧ (tx = None → x = None → y = None → tt = None →
     Dict.get "transform" attrib = Some EmptyString)
  ∧ (∀ a, tx = None → x = Some a → y = None → tt = None →
     Dict.get "transform" attrib = Some ("translate(" +:+ a +:+ ",0)"))
  ∧ (∀ b, tx = None → x = None → y = Some b → tt = None →
     Dict.get "transform" attrib = Some ("translate(0," +:+ b +:+ ")"))
  ∧ (∀ u w, tx = Some u → x = None → y = None → tt = Some w →
     Dict.get "transform" attrib = Some (u +:+ " " +:+ w))
  ∧ (∀ u a b w, tx = Some u → x = Some a → y = Some b → tt = Some w →
     Dict.get "transform" attrib
     = Some (u +:+ " translate(" +:+ a +:+ "," +:+ b +:+ ") " +:+ w))
  ∧ Dict.get "transform" attrib
    = Some (Str.join " " (omap id [tx; translation x y; tt])).
Proof.
  unfold new_node. destruct (use_style x_attrib target_attrib) as [st|];
    cbn [bind]; [|done]. intros [= _ <-]. cbn zeta.
  assert (Dict.get "transform"
            (Dict.set "style" st
               (Dict.set "transform" (use_transform x_attrib target_attrib)
                  target_attrib))
          = Some (use_transform x_attrib target_attrib)) as ->.
  { rewrite get_set, decide_False by done. by rewrite get_set, decide_True. }
  unfold use_transform, coord. split_and!.
  - by eexists.
  - intros -> -> -> ->. rewrite bool_decide_false; [done|].
    intros [[? [=]]|[? [=]]].
  - intros a -> -> -> ->. rewrite bool_decide_true by (left; by eexists).
    done.
  - intros b -> -> -> ->. rewrite bool_decide_true by (right; by eexists).
    done.
  - intros u w -> -> -> ->. rewrite bool_decide_false; [done|].
    intros [[? [=]]|[? [=]]].
  - intros u a b w -> -> -> ->. rewrite bool_decide_true by (left; by eexists).
    cbn. f_equal. by rewrite !append_assoc.
  - unfold translation.
    destruct (Dict.get "x" x_attrib) as [a|], (Dict.get "y" x_attrib) as [b|];
      [rewrite bool_decide_true by (left; by eexists)
      |rewrite bool_decide_true by (left; by eexists)
      |rewrite bool_decide_true by (right; by eexists)
      |rewrite bool_decide_false by (intros [[? [=]]|[? [=]]])];
      reflexivity.
Qed.

Lemma new_node_transform_witness :
  ∃ tg attrib,
    new_node [("y", "4")] symbol [("id", "s"); ("transform", "scale(2)")]
    = Ok (tg, attrib)
    ∧ Dict.get "transform" attrib = Some "translate(0,4) scale(2)".
Proof.
  eexists _, _. split; [reflexivity|].
  refine (proj2 (proj2 (proj2 (proj2 (proj2 (proj2
            (new_node_transform [("y", "4")]
               [("id", "s"); ("transform", "scale(2)")]
               symbol _ _ eq_refl))))))).
Defined.

(** X4: apart from [transform] and [style], the attributes of the inlined
    copy are those of the target, whatever the reference carries; the tag
    is the target's, but a symbol becomes a group. *)
Theorem new_node_attributes (x_attrib target_attrib : Dict.t)
    (target_tag tg : string) (attrib : Dict.t) :
  new_node x_attrib target_tag target_attrib = Ok (tg, attrib) →
  (∀ k, k ≠ "transform" → k ≠ "style" →
        Dict.get k attrib = Dict.get k target_attrib)
  ∧ (target_tag = symbol → tg = group)
  ∧ (target_tag ≠ symbol → tg = target_tag).
Proof.
  unfold new_node. destruct (use_style x_attrib target_attrib) as [st|];
    cbn [bind]; [|done]. intros [= <- <-]. split_and!.
  - intros k H1 H2. by rewrite !get_set, !decide_False.
  - intros ->. by rewrite decide_True.
  - intros ?. by rewrite decide_False.
Qed.

Lemma new_node_attributes_witness :
  ∃ tg attrib,
    new_node [("id", "u"); ("width", "9")] symbol [("id", "s")]
    = Ok (tg, attrib)
    ∧ tg = group ∧ Dict.get "id" attrib = Some "s"
    ∧ Dict.get "width" attrib = None.
Proof.
  eexists _, _. split; [reflexivity|].
  destruct (new_node_attributes [("id", "u"); ("width", "9")] [("id", "s")]
              symbol _ _ eq_refl) as (H1 & H2 & _).
  split_and!; [by apply H2|by rewrite H1|by rewrite H1].
Defined.

(** ** The setter of [visible] and the walk *)

Section Restyle.

Lemma same_but_style_refl e : same_but_style e e.
Proof. by split_and!. Qed.

Lemma same_but_style_trans e1 e2 e3 :
  same_but_style e1 e2 → same_but_style e2 e3 → same_but_style e1 e3.
Proof.
  intros (?&?&?&?&Hab) (?&?&?&?&Hbc). split_and!; try congruence.
  intros k Hk. by rewrite Hbc, Hab.
Qed.

Lemma restyled_refl h : restyled h h.
Proof. intros l. destruct (h !! l); [apply same_but_style_refl|done]. Qed.

Lemma restyled_trans h1 h2 h3 :
  restyled h1 h2 → restyled h2 h3 → restyled h1 h3.
Proof.
  intros H1 H2 l. specialize (H1 l). specialize (H2 l).
  destruct (h1 !! l), (h2 !! l), (h3 !! l); try done.
  by eapply same_but_style_trans.
Qed.

Lemma restyled_children h h' l :
  restyled h h' → elem_children h' l = elem_children h l.
Proof.
  intros H. specialize (H l). unfold elem_children.
  destruct (h !! l), (h' !! l); try done. by destruct H as (_&_&_&?&_).
Qed.

Lemma elem_set_style_restyled l v h : restyled h (elem_set l "style" v h).
Proof.
  intros l'. unfold elem_set. destruct (decide (l' = l)) as [->|Hne].
  - rewrite lookup_alter_eq. destruct (h !! l) as [e|]; [|done].
    cbn. split_and!; try done. intros k Hk. cbn. by rewrite get_set, decide_False.
  - rewrite lookup_alter_ne by done. destruct (h !! l'); [|done].
    apply same_but_style_refl.
Qed.

Lemma elements_set_visible self value s :
  elements (set_visible self value s)
  = match element self with
    | Some l => if elem_truthy (elements s) l
                then elem_set l "style" (marker_of value) (elements s)
                else elements s
    | None => elements s
    end.
Proof.
  unfold set_visible, marker_of. destruct (element self); [|done].
  by destruct (elem_truthy _ _).
Qed.

Lemma set_visible_restyled self value s :
  restyled (elements s) (elements (set_visible self value s)).
Proof.
  rewrite elements_set_visible. destruct (element self); [|apply restyled_refl].
  destruct (elem_truthy _ _); [apply elem_set_style_restyled|apply restyled_refl].
Qed.

Lemma set_visible_other self value s l :
  element self ≠ Some l →
  elements (set_visible self value s) !! l = elements s !! l.
Proof.
  intros Hne. rewrite elements_set_visible.
  destruct (element self) as [l'|]; [|done].
  destruct (elem_truthy _ _); [|done].
  unfold elem_set. rewrite lookup_alter_ne; [done|]. by intros ->.
Qed.

Lemma set_visible_style self value s l :
  element self = Some l → elem_children (elements s) l ≠ [] →
  elem_get (elements (set_visible self value s)) l "style"
  = Some (marker_of value).
Proof.
  intros Hl Hc. rewrite elements_set_visible, Hl.
  unfold elem_truthy. rewrite bool_decide_true by done.
  unfold elem_get, elem_set, elem_children in *. rewrite lookup_alter_eq.
  destruct (elements s !! l) as [e|]; [|done]. cbn.
  by rewrite get_set, decide_True.
Qed.

Lemma iter_children_invariant (P : Store → Prop) cs :
  Forall (λ c, (∀ n v s, n ∈ nodes c → P s → P (set_visible n v s)) →
               ∀ s, P s →
                 P (iter c s).2
                 ∧ ∀ leaf sy, (leaf, sy) ∈ (iter c s).1 → P sy) cs →
  (∀ n v s, n ∈ flat_map nodes cs → P s → P (set_visible n v s)) →
  ∀ s, P s →
    P (iter_children cs s).2
    ∧ ∀ leaf sy, (leaf, sy) ∈ (iter_children cs s).1 → P sy.
Proof.
  induction 1 as [|c cs Hc _ IHcs]; intros Hset s Hs.
  - split; [done|]. intros ?? []%elem_of_nil.
  - cbn [iter_children flat_map] in *.
    destruct (Hc (λ n v s' Hn, Hset n v s' (proj2 (elem_of_app _ _ _) (or_introl Hn)))
                s Hs) as [Hend Hy].
    destruct (iter c s) as [ys s2]. cbn [fst snd] in *.
    destruct (IHcs (λ n v s' Hn, Hset n v s' (proj2 (elem_of_app _ _ _) (or_intror Hn)))
                s2 Hend) as [Hend' Hy'].
    destruct (iter_children cs s2) as [ys' s3]. cbn [fst snd] in *.
    split; [done|]. intros leaf sy [?|?]%elem_of_app; eauto.
Qed.

(** Whatever the setter of [visible] keeps, the walk keeps. *)
Lemma iter_invariant (P : Store → Prop) t :
  (∀ n v s, n ∈ nodes t → P s → P (set_visible n v s)) →
  ∀ s, P s →
    P (iter t s).2 ∧ ∀ leaf sy, (leaf, sy) ∈ (iter t s).1 → P sy.
Proof.
  induction t as [o cs e d IH] using Tree_ind'. intros Hset s Hs.
  rewrite iter_unfold. cbn [children].
  assert (mkTree o cs e d ∈ nodes (mkTree o cs e d)) as Ht by left.
  pose proof (Hset _ true s Ht Hs) as Hs1.
  destruct (iter_children_invariant P cs IH) with (s := set_visible (mkTree o cs e d) true s)
    as [Hend Hy]; [|done|].
  { intros n v s' Hn. apply Hset. by right. }
  destruct (iter_children cs _) as [ys s2]. cbn [fst snd] in *. split.
  - by apply Hset.
  - intros leaf sy [Hin|Hin]%elem_of_app; [|by eauto].
    case_decide; [|by apply elem_of_nil in Hin].
    apply list_elem_of_singleton in Hin. by simplify_eq.
Qed.

Lemma NoDup_fmap_inj {A B} (f : A → B) (l : list A) x y :
  NoDup (f <$> l) → x ∈ l → y ∈ l → f x = f y → x = y.
Proof.
  induction l as [|a l IH]; [by intros _ ?%elem_of_nil|].
  rewrite fmap_cons, NoDup_cons, !elem_of_cons.
  intros [Ha Hnd] [->|Hx] [->|Hy] Hf; try done.
  - destruct Ha. rewrite Hf. by apply list_elem_of_fmap_2.
  - destruct Ha. rewrite <- Hf. by apply list_elem_of_fmap_2.
  - by apply IH.
Qed.

Lemma NoDup_omap_inj {A B} (f : A → option B) (l : list A) x y b :
  NoDup (omap f l) → x ∈ l → y ∈ l → f x = Some b → f y = Some b → x = y.
Proof.
  induction l as [|a l IH]; [by intros _ ?%elem_of_nil|].
  cbn [omap list_omap]. rewrite !elem_of_cons.
  intros Hnd [->|Hx] [->|Hy] Hfx Hfy; try done.
  - rewrite Hfx in Hnd. apply NoDup_cons in Hnd as [Ha _]. destruct Ha.
    apply list_elem_of_omap. eauto.
  - rewrite Hfy in Hnd. apply NoDup_cons in Hnd as [Ha _]. destruct Ha.
    apply list_elem_of_omap. eauto.
  - apply IH; try done. destruct (f a); [by apply NoDup_cons in Hnd as [_ ?]|done].
Qed.

Lemma visible_set_visible_eq self value s :
  visible self (set_visible self value s) = value.
Proof. unfold visible. by rewrite flags_set_visible, lookup_insert_eq. Qed.

Lemma visible_set_visible_ne self n value s :
  t_id n ≠ t_id self → visible n (set_visible self value s) = visible n s.
Proof.
  intros Hne. unfold visible. by rewrite flags_set_visible, lookup_insert_ne.
Qed.

Lemma mirrors_set_visible t m v s :
  NoDup (oids t) → NoDup (omap element (nodes t)) →
  m ∈ nodes t → mirrors t s → mirrors t (set_visible m v s).
Proof.
  intros Hoid Hel Hm Hmir n l Hn Hl Hc.
  rewrite (restyled_children _ _ _ (set_visible_restyled m v s)) in Hc.
  destruct (decide (t_id n = t_id m)) as [Heq|Hne].
  - assert (n = m) as -> by by eapply (NoDup_fmap_inj t_id).
    rewrite visible_set_visible_eq. by apply set_visible_style.
  - rewrite visible_set_visible_ne by done.
    unfold elem_get. rewrite set_visible_other; [by apply Hmir|].
    intros Hm'. apply Hne. f_equal.
    by eapply (NoDup_omap_inj element).
Qed.

End Restyle.

(** X5: after [self.visible = value], [self.visible] is [value] and the
    flag of every other node is as before.  The stores of elements differ
    at most in [style] attributes; only the element of [self] can differ,
    its style is the marker of [value] when it has child elements, and
    nothing at all is written when it has none. *)
Theorem set_visible_spec (self : Tree) (value : bool) (s : Store) :
  visible self (set_visible self value s) = value
  ∧ (∀ n, t_id n ≠ t_id self → visible n (set_visible self value s) = visible n s)
  ∧ restyled (elements s) (elements (set_visible self value s))
  ∧ (∀ l, element self ≠ Some l →
          elements (set_visible self value s) !! l = elements s !! l)
  ∧ (∀ l, element self = Some l → elem_children (elements s) l ≠ [] →
          elem_get (elements (set_visible self value s)) l "style"
          = Some (if value then shown_marker else hidden_marker))
  ∧ (∀ l, element self = Some l → elem_children (elements s) l = [] →
          elements (set_visible self value s) = elements s).
Proof.
  split_and!.
  - apply visible_set_visible_eq.
  - intros n. apply visible_set_visible_ne.
  - apply set_visible_restyled.
  - intros l. apply set_visible_other.
  - intros l. apply set_visible_style.
  - intros l Hl Hc. rewrite elements_set_visible, Hl.
    unfold elem_truthy. by rewrite bool_decide_false by (by intros ?).
Qed.

(** X6: in the walk of any tree of distinct nodes whose flags are all
    false, at each yield a node of the tree is visible exactly when it is on
    the chain from the root to the yielded leaf, and when the walk ends the
    flags are what they were. *)
Theorem iter_visible_chain (t : Tree) (s : Store) :
  NoDup (oids t) →
  Forall (λ n, flags s !! t_id n = Some false) (nodes t) →
  (∀ leaf sy n, (leaf, sy) ∈ (iter t s).1 → n ∈ nodes t →
                visible n sy = bool_decide (t_id n ∈ chain t (t_id leaf)))
  ∧ flags (iter t s).2 = flags s.
Proof.
  intros Hnd Hall.
  assert (∀ o, o ∈ oids t → flags s !! o = Some false) as Hfalse.
  { intros o (n & -> & Hn)%list_elem_of_fmap.
    by eapply Forall_forall in Hall. }
  destruct (walk_flags_all t Hnd s Hfalse) as [Hend Hy]. split; [|done].
  intros leaf sy n Hin Hn. destruct (Hy _ _ Hin) as [_ Hfl].
  unfold visible. rewrite Hfl. case_decide.
  - by rewrite bool_decide_true.
  - rewrite bool_decide_false by done. rewrite Hfalse; [done|].
    apply list_elem_of_fmap. eauto.
Qed.

Lemma iter_visible_chain_witness :
  flags (iter two_presentation two_built).2 = flags two_built.
Proof.
  refine (proj2 (iter_visible_chain two_presentation two_built _ _)).
  - apply (bool_decide_unpack _). vm_compute. exact I.
  - repeat constructor.
Defined.

(** X7: in the walk of a tree of distinct nodes with distinct elements,
    all flags false and every element with children styled hidden, at each
    yield the element of a node, when it has children, has the style
    [display:inline] if the node is on the chain to the yielded leaf and
    [display:none] if not; when the walk ends they are all [display:none]. *)
Theorem iter_styles (t : Tree) (s : Store) :
  NoDup (oids t) →
  NoDup (omap element (nodes t)) →
  Forall (λ n, flags s !! t_id n = Some false) (nodes t) →
  Forall (λ n, ∀ l, element n = Some l → elem_children (elements s) l ≠ [] →
                    elem_get (elements s) l "style" = Some hidden_marker)
         (nodes t) →
  (∀ leaf sy n l, (leaf, sy) ∈ (iter t s).1 → n ∈ nodes t →
     element n = Some l → elem_children (elements s) l ≠ [] →
     elem_get (elements sy) l "style"
     = Some (if bool_decide (t_id n ∈ chain t (t_id leaf))
             then shown_marker else hidden_marker))
  ∧ (∀ n l, n ∈ nodes t → element n = Some l →
            elem_children (elements s) l ≠ [] →
            elem_get (elements (iter t s).2) l "style" = Some hidden_marker).
Proof.
  intros Hnd Hel Hall Hhid.
  assert (∀ o, o ∈ oids t → flags s !! o = Some false) as Hfalse.
  { intros o (n & -> & Hn)%list_elem_of_fmap.
    by eapply Forall_forall in Hall. }
  destruct (walk_flags_all t Hnd s Hfalse) as [Hend Hy].
  destruct (iter_invariant
              (λ s', mirrors t s' ∧ restyled (elements s) (elements s')) t)
    with (s := s) as [[Hm Hr] Hys].
  { intros n v s' Hn [Hm Hr]. split; [by apply mirrors_set_visible|].
    eapply restyled_trans; [done|apply set_visible_restyled]. }
  { split; [|apply restyled_refl]. intros n l Hn Hl Hc.
    unfold visible. rewrite Hfalse by (apply list_elem_of_fmap; eauto).
    eapply Forall_forall in Hhid; [|done]. by apply Hhid. }
  split.
  - intros leaf sy n l Hin Hn Hl Hc. destruct (Hys _ _ Hin) as [Hm' Hr'].
    rewrite (Hm' n l Hn Hl) by by rewrite (restyled_children _ _ _ Hr').
    destruct (Hy _ _ Hin) as [_ Hfl]. unfold visible. rewrite Hfl.
    case_decide.
    + by rewrite bool_decide_true.
    + rewrite bool_decide_false by done. rewrite Hfalse; [done|].
      apply list_elem_of_fmap. eauto.
  - intros n l Hn Hl Hc.
    rewrite (Hm n l Hn Hl) by by rewrite (restyled_children _ _ _ Hr).
    unfold visible. rewrite Hend, Hfalse; [done|].
    apply list_elem_of_fmap. eauto.
Qed.

Lemma iter_styles_witness :
  elem_get (elements two_store) 1 "style" = Some shown_marker
  ∧ elem_get (elements two_store) 3 "style" = Some hidden_marker.
Proof.
  assert ((mkTree 2 [] (Some 1) None, two_store)
          ∈ (iter two_presentation two_built).1) as Hy
    by (vm_compute; left).
  destruct (iter_styles two_presentation two_built) as [H _].
  - apply (bool_decide_unpack _). vm_compute. exact I.
  - apply (bool_decide_unpack _). vm_compute. exact I.
  - repeat constructor.
  - repeat constructor; intros l [= <-] _; reflexivity.
  - split.
    + refine (H _ _ (mkTree 2 [] (Some 1) None) 1 Hy _ eq_refl _);
        [vm_compute; do 2 right; left|vm_compute; discriminate].
    + refine (H _ _ (mkTree 3 [] (Some 3) None) 3 Hy _ eq_refl _);
        [vm_compute; do 3 right; left|vm_compute; discriminate].
Defined.

(** X8: the walk writes nothing but [style] attributes: at every yield and
    at the end, the store holds the same element objects with the same
    tag, text, children and attributes other than [style]; and an element
    that no node of the tree refers to is untouched. *)
Theorem iter_restyles_only (t : Tree) (s : Store) :
  (restyled (elements s) (elements (iter t s).2)
   ∧ ∀ l, Some l ∉ element <$> nodes t →
          elements (iter t s).2 !! l = elements s !! l)
  ∧ (∀ leaf sy, (leaf, sy) ∈ (iter t s).1 →
       restyled (elements s) (elements sy)
       ∧ ∀ l, Some l ∉ element <$> nodes t →
              elements sy !! l = elements s !! l).
Proof.
  apply (iter_invariant
           (λ s', restyled (elements s) (elements s')
                  ∧ ∀ l, Some l ∉ element <$> nodes t →
                         elements s' !! l = elements s !! l)).
  - intros n v s' Hn [Hr Ho]. split.
    + eapply restyled_trans; [done|apply set_visible_restyled].
    + intros l Hl. rewrite set_visible_other; [by apply Ho|].
      intros Heq. apply Hl. rewrite <- Heq. by apply list_elem_of_fmap_2.
  - split; [apply restyled_refl|done].
Qed.

(** ** The layer tree as a function of the document *)

Section Layers.

Lemma layers_unfold l e ks :
  layers (ENode l e ks) =
  if decide (Dict.get (inkscape "groupmode") (attrib e) ≠ Some "layer")
  then Ok None
  else
    match Dict.get (inkscape "label") (attrib e) with
    | None => Ok None
    | Some label =>
        match parenthesized label with
        | Raise err => Raise err
        | Ok true => Ok None
        | Ok false =>
            subs ←! layers_list ks; Ok (Some (Shape (Some l) None subs))
        end
    end.
Proof.
  cbn [layers]. case_decide; [done|].
  destruct (Dict.get (inkscape "label") (attrib e)) as [label|]; [|done].
  by destruct (parenthesized label) as [[|]|].
Qed.

Lemma restyled_get h0 h l e k :
  restyled h0 h → h0 !! l = Some e → k ≠ "style" →
  ∃ e', h !! l = Some e' ∧ Dict.get k (attrib e') = Dict.get k (attrib e)
        ∧ _children e' = _children e.
Proof.
  intros Hr Hl Hk. specialize (Hr l). rewrite Hl in Hr.
  destruct (h !! l) as [e'|]; [|done]. destruct Hr as (_&_&_&?&Hg).
  exists e'. split_and!; [done|by apply Hg|done].
Qed.

Lemma layer_children_agree fuel h0 ks acc s :
  Forall (λ k, ∀ fuel s, repr h0 k → restyled h0 (elements s) →
               depth k ≤ fuel →
               ∃ out, layer fuel (root_loc k) s = Some out
                      ∧ layer_agrees h0 s (layers k) out) ks →
  Forall (repr h0) ks → restyled h0 (elements s) →
  Forall (λ k, depth k ≤ fuel) ks →
  ∃ out, layer_children fuel (root_loc <$> ks) acc s = Some out
         ∧ layers_agree h0 acc (layers_list ks) out.
Proof.
  intros IH. revert acc s. induction IH as [|k ks Hk _ IHks];
    intros acc s Hr Hs Hd.
  - eexists. split; [done|]. cbn. by rewrite app_nil_r.
  - apply Forall_cons in Hr as [Hrk Hrks]. apply Forall_cons in Hd as [Hdk Hdks].
    rewrite fmap_cons. cbn [layer_children layers_list].
    destruct (Hk fuel s Hrk Hs Hdk) as (out & -> & Hout).
    unfold layer_agrees in Hout.
    destruct (layers k) as [[sh|]|e]; destruct out as [[[tr|] s']|e'];
      try done; cbn [bind].
    + destruct Hout as [<- Hs'].
      destruct (IHks (acc ++ [tr]) s' Hrks Hs' Hdks) as (out & -> & Hout).
      exists out. split; [done|]. unfold layers_agree in *.
      destruct (layers_list ks) as [rest|]; destruct out as [[ts s'']|];
        try done; cbn [bind from_option app].
      destruct Hout as [-> ?]. split; [|done].
      by rewrite fmap_app, <- app_assoc.
    + subst s'.
      destruct (IHks acc s Hrks Hs Hdks) as (out & -> & Hout).
      exists out. split; [done|]. unfold layers_agree in *.
      destruct (layers_list ks) as [rest|]; destruct out as [[ts s'']|];
        try done.
    + subst. eexists. split; [done|]. done.
Qed.

(** [layer] against [layers], on a document that the store holds up to
    styles. *)
Lemma layer_agree t :
  ∀ fuel h0 s, repr h0 t → restyled h0 (elements s) → depth t ≤ fuel →
    ∃ out, layer fuel (root_loc t) s = Some out
           ∧ layer_agrees h0 s (layers t) out.
Proof.
  induction t as [l e ks IH] using etree_ind'. intros fuel h0 s Hr Hs Hd.
  destruct fuel as [|fuel]; [cbn in Hd; lia|].
  inversion Hr as [??? Hl Hc Hks]; subst.
  rewrite layer_unfold, layers_unfold. cbn [root_loc].
  destruct (restyled_get _ _ _ _ (inkscape "groupmode") Hs Hl)
    as (e' & Hl' & Hg & Hc'); [done|].
  destruct (restyled_get _ _ _ _ (inkscape "label") Hs Hl)
    as (e'' & Hl'' & Hlab & _); [done|]. simplify_eq.
  rewrite Hl'. cbn [mbind option_bind]. rewrite Hg, Hlab.
  case_decide; [by eexists|].
  destruct (Dict.get (inkscape "label") (attrib e)) as [label|]; [|by eexists].
  destruct (parenthesized label) as [[|]|err]; [by eexists| |by eexists].
  cbn zeta. rewrite Hc', Hc.
  edestruct (layer_children_agree fuel h0 ks []) as (out & -> & Hout).
  - eapply Forall_impl; [exact IH|]. intros k Hk fuel' s'. apply Hk.
  - done.
  - eapply restyled_trans; [exact Hs|].
    eapply restyled_trans; [|apply set_visible_restyled]. apply restyled_refl.
  - cbn [depth] in Hd. apply le_S_n in Hd. apply Forall_forall. intros k Hk.
    etrans; [|exact Hd]. apply max_list_elem_of_le, list_elem_of_fmap. eauto.
  - unfold layers_agree in Hout.
    destruct (layers_list ks) as [subs|]; destruct out as [[ts s']|];
      try done; cbn [bind]; eexists; (split; [done|]); [|done].
    destruct Hout as [Hts ?]. split; [|done]. cbn [erase_ids]. by rewrite Hts.
Qed.

Lemma layers_list_raise ks err :
  layers_list ks = Raise err →
  ∃ k, k ∈ ks ∧ layers k = Raise err.
Proof.
  induction ks as [|k ks IH]; [done|]. cbn [layers_list].
  destruct (layers k) as [r|e] eqn:Ek; cbn [bind].
  - destruct (layers_list ks) as [rest|e]; cbn [bind]; [done|].
    intros [= ->]. destruct IH as (k' & ? & ?); [done|].
    exists k'. split; [by right|done].
  - intros [= ->]. exists k. split; [left|done].
Qed.

Lemma layers_list_raises ks k :
  k ∈ ks → layers k = Raise IndexError →
  (∀ k' e, k' ∈ ks → layers k' = Raise e → e = IndexError) →
  layers_list ks = Raise IndexError.
Proof.
  induction ks as [|k' ks IH]; [by intros ?%elem_of_nil|].
  intros Hk Ek Hall. cbn [layers_list].
  destruct (layers k') as [r|e'] eqn:Ek'; cbn [bind].
  - apply elem_of_cons in Hk as [->|Hk]; [congruence|].
    rewrite IH; [done..|]. intros k'' e ?. apply Hall. by right.
  - f_equal. eapply Hall; [left|done].
Qed.

Lemma parenthesized_raise label err :
  parenthesized label = Raise err ↔ label = EmptyString ∧ err = IndexError.
Proof.
  destruct label as [|c label].
  - cbn. split; [by intros [= <-]|by intros [_ ->]].
  - split; [|by intros [? _]]. unfold parenthesized. cbn [Str.first bind].
    case_decide; [|done].
    assert (∃ d, Str.last (String c label) = Ok d) as [d ->]; [|done].
    clear. revert c. induction label as [|c' label IH]; intros c; [by eauto|].
    destruct (IH c') as [d Hd]. exists d. by rewrite <- Hd.
Qed.

Lemma some_reaches ks :
  (fix some (ks : list etree) : Prop :=
     match ks with
     | [] => False
     | k :: ks' => reaches_empty_label k ∨ some ks'
     end) ks ↔ ∃ k, k ∈ ks ∧ reaches_empty_label k.
Proof.
  induction ks as [|k ks IH].
  - split; [done|]. intros (? & []%elem_of_nil & _).
  - rewrite IH. split.
    + intros [?|(k' & ? & ?)]; [exists k; split; [left|done]|].
      exists k'. split; [by right|done].
    + intros (k' & [->|?]%elem_of_cons & ?); [by left|right; eauto].
Qed.

Lemma layers_raise t err :
  layers t = Raise err ↔ err = IndexError ∧ reaches_empty_label t.
Proof.
  revert err. induction t as [l e ks IH] using etree_ind'. intros err.
  rewrite layers_unfold. cbn [reaches_empty_label]. rewrite some_reaches.
  case_decide as Hg.
  { split; [done|]. intros [_ [? _]]. done. }
  destruct (Dict.get (inkscape "label") (attrib e)) as [label|].
  2:{ split; [done|]. intros [_ [_ [?|[(? & ? & _) _]]]]; done. }
  destruct (parenthesized label) as [[|]|e'] eqn:Ep.
  - split; [done|]. intros [_ [_ [[= ->]|[(? & [= <-] & ?) _]]]]; [done|].
    congruence.
  - split.
    + destruct (layers_list ks) as [subs|e'] eqn:El; cbn [bind]; [done|].
      intros [= ->]. apply layers_list_raise in El as (k & Hk & El).
      eapply Forall_forall in IH; [|done]. apply IH in El as [-> ?].
      split; [done|]. split; [done|]. right. split; [by eauto|by eauto].
    + intros [-> [_ [[= ->]|[_ (k & Hk & Hr)]]]]; [done|].
      assert (layers k = Raise IndexError) as Ek.
      { eapply Forall_forall in IH; [|done]. by apply IH. }
      rewrite (layers_list_raises ks k); [done..|].
      intros k' e' Hk' Ek'. eapply Forall_forall in IH; [|done].
      by apply IH in Ek' as [-> _].
  - apply parenthesized_raise in Ep as [-> ->]. split.
    + intros [= <-]. split; [done|]. split; [done|by left].
    + by intros [-> _].
Qed.

End Layers.

(** X9: on a document that can be read, [layer] returns, and what it
    returns is read off the document: nothing, with the store untouched,
    for an element that is not a layer (no marker, no label, or a label in
    parentheses); a tree whose nodes are the layers found along chains of
    direct children, in document order, with a store that differs in
    styles only; the [IndexError] exactly when it comes to an element with
    the marker and an empty label.  The nodes of the tree are new and
    distinct objects, each with its flag false, so none of them is
    visible, and no flag of another object has changed. *)
Theorem layer_reads_layers (fuel : nat) (el : loc) (s : Store) (t : etree) :
  subtree fuel (elements s) el = Some t →
  ∃ out,
    layer fuel el s = Some out
    ∧ layer_agrees (elements s) s (layers t) out
    ∧ (∀ err, out = Raise err ↔ err = IndexError ∧ reaches_empty_label t)
    ∧ (∀ tr s', out = Ok (Some tr, s') →
         built [tr] s s'
         ∧ Forall (λ n, flags s' !! t_id n = Some false ∧ visible n s' = false)
                  (nodes tr)).
Proof.
  intros H. apply subtree_repr in H as (<- & Hr & Hd).
  destruct (layer_agree t fuel (elements s) s Hr (restyled_refl _) Hd)
    as (out & Hout & Hag).
  exists out. split_and!; [done..| |].
  - intros err. rewrite <- layers_raise. unfold layer_agrees in Hag.
    destruct (layers t) as [[sh|]|e]; destruct out as [[[tr|] s']|e'];
      try done; naive_solver.
  - intros tr s' ->.
    destruct (layer_built fuel (root_loc t) s (Some tr) s' Hout) as [Hb _].
    split; [done|]. apply Forall_forall. intros n Hn.
    destruct Hb as (_ & Hnew & _).
    destruct (Hnew (t_id n)) as [_ Hf].
    { cbn [flat_map]. rewrite app_nil_r. apply list_elem_of_fmap. eauto. }
    split; [done|]. unfold visible. by rewrite Hf.
Qed.

Lemma layer_reads_layers_witness :
  ∃ tr s',
    layer 3 1 (store_of doc_two).2 = Some (Ok (Some tr, s'))
    ∧ erase_ids tr = Shape (Some 1) None []
    ∧ visible tr s' = false.
Proof.
  destruct (layer_reads_layers 3 1 (store_of doc_two).2
              (ENode 1 (mkElement group
                          [(inkscape "groupmode", "layer");
                           (inkscape "label", "a")] None None [0])
                 [ENode 0 (mkElement ("{" +:+ svg_ns +:+ "}path") [] None None [])
                    []]))
    as (out & H1 & H2 & _ & H4); [vm_compute; reflexivity|].
  destruct out as [[[tr|] s']|]; try (by vm_compute in H2).
  exists tr, s'. split; [exact H1|]. split; [exact (proj1 H2)|].
  destruct (H4 tr s' eq_refl) as [_ Hf]. destruct tr as [o cs e d].
  cbn [nodes] in Hf. apply Forall_inv in Hf. exact (proj2 Hf).
Defined.

Section Forest_shape.



End Forest_shape.



(** ** The writer during the walk *)

Section WriterInWalk.

Lemma NoDup_flat_map_inj {A B} (f : A → list B) (l : list A) x y b :
  NoDup (flat_map f l) → x ∈ l → y ∈ l → b ∈ f x → b ∈ f y → x = y.
Proof.
  induction l as [|a l IH]; [by intros _ ?%elem_of_nil|].
  cbn [flat_map]. rewrite !elem_of_cons.
  intros (Hnd1 & Hdis & Hnd2)%NoDup_app [->|Hx] [->|Hy] Hbx Hby; try done.
  - destruct (Hdis b Hbx). apply elem_of_flat_map. eauto.
  - destruct (Hdis b Hby). apply elem_of_flat_map. eauto.
  - by apply IH.
Qed.

Lemma oids_root t : t_id t ∈ oids t.
Proof. destruct t. rewrite oids_cons. left. Qed.

(** Among the children of the root, the one on the chain to a node is the
    one that holds the node. *)
Lemma child_on_chain o cs e d c leaf :
  NoDup (oids (mkTree o cs e d)) → c ∈ cs → leaf ∈ flat_map oids cs →
  t_id c ∈ chain (mkTree o cs e d) leaf ↔ leaf ∈ oids c.
Proof.
  rewrite oids_cons. intros [Ho Hnd]%NoDup_cons Hc Hleaf. cbn [chain].
  rewrite decide_False by (by intros ->).
  assert (t_id c ≠ o) as Hco.
  { intros <-. apply Ho, elem_of_flat_map. exists c. split; [done|apply oids_root]. }
  assert (t_id c ∈ flat_map (λ c, chain c leaf) cs ↔ leaf ∈ oids c) as <-.
  { rewrite elem_of_flat_map. split.
    - intros (c' & Hc' & Hin).
      assert (c' = c) as ->.
      { eapply (NoDup_flat_map_inj oids); [done..| |apply oids_root].
        by eapply chain_subset. }
      destruct (decide (leaf ∈ oids c)) as [|Hn]; [done|].
      rewrite chain_notin in Hin by done. by apply elem_of_nil in Hin.
    - intros Hin. exists c. split; [done|]. by apply chain_in. }
  destruct (flat_map (λ c, chain c leaf) cs) as [|x l] eqn:E.
  - split; intros []%elem_of_nil.
  - rewrite (elem_of_cons (x :: l)). naive_solver.
Qed.

Lemma visible_doc_of_leaf cs s c leaf :
  NoDup (flat_map oids cs) →
  (∀ c', c' ∈ cs → visible c' s = bool_decide (leaf ∈ oids c')) →
  c ∈ cs → leaf ∈ oids c → is_Some (tree c) →
  visible_doc cs s = tree c.
Proof.
  intros Hnd Hv Hc Hl [doc Hd].
  induction cs as [|c0 cs IH]; [by apply elem_of_nil in Hc|].
  cbn [visible_doc]. rewrite Hv by left.
  destruct (decide (leaf ∈ oids c0)) as [Hl0|Hl0].
  - assert (c0 = c) as -> by (eapply (NoDup_flat_map_inj oids); [done|left|done..]).
    rewrite bool_decide_true by done. by rewrite Hd.
  - rewrite bool_decide_false by done.
    apply elem_of_cons in Hc as [->|Hc]; [done|].
    cbn [flat_map] in Hnd. apply NoDup_app in Hnd as (_ & _ & Hnd).
    apply IH; [done| |done]. intros c' Hc'. apply Hv. by right.
Qed.

End WriterInWalk.

(** X11: during the walk of the forest that [main] builds, at the yield of
    a leaf, the document that [write] filters and compares is the document
    of the root that holds the leaf; and with no document loaded [write]
    has nothing to work on. *)
Theorem write_takes_document_of_leaf (fuel : nat) (roots : list loc)
    (s : Store) (p : Tree) (s0 : Store) :
  main_load fuel roots s = Some (Ok (p, s0)) →
  (∀ leaf sy c, (leaf, sy) ∈ (iter p s0).1 → c ∈ children p →
                leaf ∈ nodes c →
                is_Some (tree c) ∧ visible_doc (children p) sy = tree c)
  ∧ (roots = [] → ∀ leaf sy, (leaf, sy) ∈ (iter p s0).1 →
                    visible_doc (children p) sy = None).
Proof.
  intros H. pose proof H as Hb.
  apply main_load_built in Hb as ((Hnd & Hin & _) & Hp & _ & Hdocs).
  cbn [flat_map] in Hnd, Hin. rewrite app_nil_r in Hnd, Hin.
  assert (∀ o, o ∈ oids p → flags s0 !! o = Some false) as Hfalse
    by (intros o Ho; by apply Hin).
  destruct (walk_flags_all p Hnd s0 Hfalse) as [_ Hyield]. split.
  - intros leaf sy c Hy Hc Hl. destruct (Hyield _ _ Hy) as [_ Hfl].
    assert (is_Some (tree c)) as Ht.
    { by eapply Forall_forall in Hdocs as (_ & ? & _). }
    split; [done|]. destruct p as [o cs e d]. cbn [children] in *.
    assert (t_id leaf ∈ oids c) as Hlc by (apply list_elem_of_fmap; eauto).
    assert (t_id leaf ∈ flat_map oids cs) as Hlcs
      by (apply elem_of_flat_map; eauto).
    pose proof Hnd as Hnd'. rewrite oids_cons in Hnd'.
    apply NoDup_cons in Hnd' as [_ Hnd'].
    apply (visible_doc_of_leaf cs sy c (t_id leaf)); try done.
    intros c' Hc'. unfold visible. rewrite Hfl.
    rewrite <- (bool_decide_ext _ _ (child_on_chain o cs e d c' (t_id leaf) Hnd Hc' Hlcs)).
    case_decide.
    + by rewrite bool_decide_true.
    + rewrite bool_decide_false by done. rewrite Hfalse; [done|].
      rewrite oids_cons. right. apply elem_of_flat_map. exists c'.
      split; [done|apply oids_root].
  - intros -> leaf sy _. rewrite main_load_unfold in H. cbn in H.
    by simplify_eq.
Qed.

Lemma write_takes_document_of_leaf_witness :
  visible_doc (children two_presentation) two_store = Some 4.
Proof.
  destruct (write_takes_document_of_leaf 4 [4] (store_of doc_two).2
              two_presentation two_built) as [H _]; [vm_compute; reflexivity|].
  refine (proj2 (H (mkTree 2 [] (Some 1) None) two_store
                   (mkTree 1 [mkTree 2 [] (Some 1) None;
                              mkTree 3 [] (Some 3) None] None (Some 4))
                   _ _ _)).
  - vm_compute. left.
  - left.
  - right. left.
Defined.

Section PruneFacts.

Lemma xml_hidden_prune x : xml_hidden (prune_xml x) = xml_hidden x.
Proof. by destruct x. Qed.

Lemma prune_xml_nodes x :
  Forall (λ d, xml_hidden d = false) (xml_below (prune_xml x))
  ∧ prune_xml (prune_xml x) = prune_xml x.
Proof.
  induction x as [tg a tx tl cs IH] using xml_ind'.
  rewrite !prune_xml_unfold. cbn [xml_below].
  assert (Forall (λ c, xml_hidden c = false
                       ∧ Forall (λ d, xml_hidden d = false)
                                (xml_below (prune_xml c))
                       ∧ prune_xml (prune_xml c) = prune_xml c)
                 (filter (λ c, ¬ xml_hidden c) cs)) as Hcs.
  { apply Forall_forall. intros c [Hc Hin]%list_elem_of_filter.
    eapply Forall_forall in IH as [? ?]; [|done].
    split_and!; [by destruct (xml_hidden c)|done..]. }
  clear IH. split.
  - induction Hcs as [|c cs' (Hc & Hb & _) _ IH]; [done|].
    rewrite fmap_cons. cbn [flat_map]. apply Forall_app. split; [|done].
    destruct (prune_xml c) as [tg' a' tx' tl' cs''] eqn:E.
    cbn [xml_nodes]. apply Forall_cons. split; [|done].
    by rewrite <- E, xml_hidden_prune.
  - f_equal. induction Hcs as [|c cs' (Hc & _ & Hi) _ IH]; [done|].
    rewrite fmap_cons, filter_cons, decide_True, fmap_cons, Hi, IH; [done|].
    rewrite xml_hidden_prune, Hc. by intros ?.
Qed.

End PruneFacts.

(** X12: the filtered copy of a document that can be read has the root of
    the document, with its tag and attributes, and no element below its
    root carries the hidden marker; filtering it again changes nothing. *)
Theorem filtered_copy_has_no_marker (fuel : nat) (h : heap) (doc : loc)
    (t : etree) :
  subtree fuel h doc = Some t →
  ∃ root h2 x,
    filtered_copy fuel h doc = Some (Ok root, h2)
    ∧ erase <$> subtree fuel h2 root = Some x
    ∧ (∃ cs, x = Xml (tag (root_elem t)) (attrib (root_elem t))
                     (text (root_elem t)) (tail (root_elem t)) cs)
    ∧ Forall (λ d, xml_hidden d = false) (xml_below x)
    ∧ prune_xml x = x.
Proof.
  intros H. destruct (filtered_copy_spec _ _ _ _ H) as (root & h2 & ? & ? & _).
  exists root, h2, (prune_xml (erase t)). split_and!; [done..| | |].
  - destruct t as [l e ks]. cbn [erase root_elem]. rewrite prune_xml_unfold.
    by eexists.
  - apply prune_xml_nodes.
  - apply prune_xml_nodes.
Qed.

Lemma filtered_copy_has_no_marker_witness :
  ∃ root h2 x,
    filtered_copy 3 (elements two_store) 4 = Some (Ok root, h2)
    ∧ erase <$> subtree 3 h2 root = Some x
    ∧ Forall (λ d, xml_hidden d = false) (xml_below x).
Proof.
  destruct (filtered_copy_has_no_marker 3 (elements two_store) 4 two_tree)
    as (root & h2 & x & H1 & H2 & _ & H3 & _); [vm_compute; reflexivity|].
  exists root, h2, x. split; [exact H1|]. split; [exact H2|exact H3].
Defined.

(** ** The search for the input files *)

Section FindSvgs.

Lemma pop_nil {A} : pop (@nil A) = None.
Proof. done. Qed.

Lemma pop_snoc {A} (l : list A) x : pop (l ++ [x]) = Some (l, x).
Proof. unfold pop. by rewrite reverse_snoc, reverse_involutive. Qed.

Lemma path_compare_antisym p q :
  path_compare p q = CompOpp (path_compare q p).
Proof.
  revert q. induction p as [|a p IH]; intros [|b q]; try done.
  cbn [path_compare]. rewrite String.compare_antisym.
  destruct (String.compare b a); cbn; [apply IH|done..].
Qed.

#[local] Instance path_leb_total :
  Total (λ a b : fspath * fsnode, path_leb b.1 a.1).
Proof.
  intros a b. unfold path_leb. rewrite (path_compare_antisym b.1 a.1).
  destruct (path_compare a.1 b.1); cbn; auto.
Qed.

Lemma stack_size_sorted l : stack_size (sorted_desc l) = stack_size l.
Proof. unfold stack_size, sorted_desc. by rewrite merge_sort_Permutation. Qed.

Lemma stack_size_iterdir p entries :
  stack_size (iterdir p entries) = sum_list_with (λ e, fs_size e.2) entries.
Proof.
  unfold stack_size, iterdir. induction entries as [|e es IH]; [done|].
  rewrite fmap_cons. cbn. by rewrite IH.
Qed.

Lemma find_svgs_yields fuel stack :
  stack_size stack < fuel →
  ∃ outs, find_svgs fuel stack = Some (concat outs)
          ∧ Forall2 (λ e out, yields e.1 e.2 out) (reverse stack) outs.
Proof.
  revert stack. induction fuel as [|fuel IH]; intros stack Hsz; [lia|].
  cbn [find_svgs]. destruct stack as [|e0 st0] using rev_ind.
  { exists []. by rewrite pop_nil. }
  clear IHst0. destruct e0 as [p node]. rewrite pop_snoc, reverse_snoc.
  unfold stack_size in Hsz. rewrite sum_list_with_app in Hsz.
  cbn [sum_list_with snd] in Hsz. destruct node as [|entries|].
  - destruct (IH st0) as (outs & E & Hy); [unfold stack_size; cbn in Hsz; lia|].
    rewrite E. destruct (is_svg p) eqn:Es.
    + exists ([p] :: outs). split; [done|]. constructor; [|done].
      apply yields_svg. by apply Is_true_true.
    + exists ([] :: outs). split; [done|]. constructor; [|done].
      apply yields_file. by apply Is_true_false.
  - destruct (IH (st0 ++ sorted_desc (iterdir p entries))) as (outs & E & Hy).
    { unfold stack_size. rewrite sum_list_with_app.
      fold (stack_size (sorted_desc (iterdir p entries))).
      rewrite stack_size_sorted, stack_size_iterdir. cbn [fs_size] in Hsz. lia. }
    rewrite reverse_app in Hy.
    apply Forall2_app_inv_l in Hy as (outs1 & outs2 & H1 & H2 & ->).
    exists (concat outs1 :: outs2). split.
    + by rewrite E, concat_app.
    + constructor; [|done]. by apply yields_dir.
  - destruct (IH st0) as (outs & E & Hy); [unfold stack_size; cbn in Hsz; lia|].
    exists ([] :: outs). split; [done|]. constructor; [|done].
    apply yields_other.
Qed.

Lemma ascii_compare_refl a : Ascii.compare a a = Eq.
Proof. apply N.compare_refl. Qed.

Lemma ascii_compare_lt_trans a b c :
  Ascii.compare a b = Lt → Ascii.compare b c = Lt → Ascii.compare a c = Lt.
Proof.
  unfold Ascii.compare. rewrite !N.compare_lt_iff. apply N.lt_trans.
Qed.

Lemma string_compare_refl s : String.compare s s = Eq.
Proof.
  induction s as [|a s IH]; [done|].
  cbn [String.compare]. by rewrite ascii_compare_refl.
Qed.

Lemma string_compare_lt_trans s1 s2 s3 :
  String.compare s1 s2 = Lt → String.compare s2 s3 = Lt →
  String.compare s1 s3 = Lt.
Proof.
  revert s2 s3. induction s1 as [|a s1 IH]; intros [|b s2] [|c s3]; try done.
  cbn [String.compare].
  destruct (Ascii.compare a b) eqn:Hab; [|clear IH|done].
  - apply Ascii.compare_eq_iff in Hab as ->.
    destruct (Ascii.compare b c); [apply IH|done..].
  - destruct (Ascii.compare b c) eqn:Hbc; [| |done]; intros _ _.
    + apply Ascii.compare_eq_iff in Hbc as <-. by rewrite Hab.
    + by rewrite (ascii_compare_lt_trans a b c).
Qed.

Lemma path_compare_refl p : path_compare p p = Eq.
Proof.
  induction p as [|a p IH]; [done|].
  cbn [path_compare]. by rewrite string_compare_refl.
Qed.

Lemma path_compare_eq p q : path_compare p q = Eq → p = q.
Proof.
  revert q. induction p as [|a p IH]; intros [|b q]; try done.
  cbn [path_compare]. destruct (String.compare a b) eqn:Hab; try done.
  apply String.compare_eq_iff in Hab as ->. intros H. by rewrite (IH q).
Qed.

Lemma path_compare_lt_trans p q r :
  path_compare p q = Lt → path_compare q r = Lt → path_compare p r = Lt.
Proof.
  revert q r. induction p as [|a p IH]; intros [|b q] [|c r]; try done.
  cbn [path_compare].
  destruct (String.compare a b) eqn:Hab; [|clear IH|done].
  - apply String.compare_eq_iff in Hab as ->.
    destruct (String.compare b c); [apply IH|done..].
  - destruct (String.compare b c) eqn:Hbc; [| |done]; intros _ _.
    + apply String.compare_eq_iff in Hbc as <-. by rewrite Hab.
    + by rewrite (string_compare_lt_trans a b c).
Qed.

Lemma path_leb_trans p q r : path_leb p q → path_leb q r → path_leb p r.
Proof.
  unfold path_leb.
  destruct (path_compare p q) eqn:Hpq; [| |done]; intros _.
  - by apply path_compare_eq in Hpq as ->.
  - destruct (path_compare q r) eqn:Hqr; [| |done]; intros _.
    + apply path_compare_eq in Hqr as <-. by rewrite Hpq.
    + by rewrite (path_compare_lt_trans p q r).
Qed.

Lemma path_leb_antisym p q : path_leb p q → path_leb q p → p = q.
Proof.
  unfold path_leb. rewrite (path_compare_antisym q p).
  destruct (path_compare p q) eqn:Hpq; cbn; try done.
  intros _ _. by apply path_compare_eq.
Qed.

Lemma sorted_desc_ascending l :
  StronglySorted (λ a b, path_leb a.1 b.1) (reverse (sorted_desc l))
  ∧ reverse (sorted_desc l) ≡ₚ l.
Proof.
  split.
  - apply Sorted_StronglySorted.
    { intros a b c. apply path_leb_trans. }
    apply (Sorted_reverse (λ a b, path_leb b.1 a.1)).
    unfold sorted_desc. apply (Sorted_merge_sort _).
  - unfold sorted_desc. by rewrite reverse_Permutation, merge_sort_Permutation.
Qed.

End FindSvgs.

(** X13: with enough fuel for the files at hand [find_svgs] returns.  It
    takes the paths it is given from the last to the first; a file with
    the suffix [.svg] is yielded, any other file and a path that is
    neither file nor directory give nothing, and a directory gives what
    its entries give, in ascending order of their paths and before
    anything of the paths that were given before it.  The order of the
    paths is total and antisymmetric, so the ascending list of the
    entries is the only one. *)
Theorem find_svgs_order (fuel : nat) (names : list (fspath * fsnode)) :
  stack_size names < fuel →
  (∃ outs, find_svgs fuel names = Some (concat outs)
           ∧ Forall2 (λ e out, yields e.1 e.2 out) (reverse names) outs)
  ∧ (∀ l, StronglySorted (λ a b, path_leb a.1 b.1) (reverse (sorted_desc l))
          ∧ reverse (sorted_desc l) ≡ₚ l)
  ∧ (∀ p q, path_leb p q → path_leb q p → p = q).
Proof.
  intros H. split; [by apply find_svgs_yields|].
  split; [apply sorted_desc_ascending|apply path_leb_antisym].
Qed.

Lemma find_svgs_order_witness :
  stack_size fs_example < 10
  ∧ find_svgs 10 fs_example
    = Some [["d"; "10.svg"]; ["d"; "2.svg"]; ["d"; "e"; "x.svg"]; ["a.svg"]]
  ∧ ∃ outs, find_svgs 10 fs_example = Some (concat outs)
            ∧ Forall2 (λ e out, yields e.1 e.2 out) (reverse fs_example) outs.
Proof.
  split; [vm_compute; lia|]. split; [vm_compute; reflexivity|].
  apply (find_svgs_order 10 fs_example). vm_compute. lia.
Defined.

(** ** The references of a document *)

Section Inline.












End Inline.

Section InlineTree.






























End InlineTree.



Lemma findall_use_spec fuel h root uses :
  findall_use fuel h root = Some uses →
  ∃ t, subtree fuel h root = Some t
       ∧ ∀ x, x ∈ uses ↔
              ∃ n, n ∈ preorder t ∧ root_loc n = x ∧ x ≠ root
                   ∧ tag (root_elem n) = use_tag.
Proof.
  unfold findall_use. destruct (subtree fuel h root) as [t|]; [|done].
  cbn [mbind option_bind]. intros [= <-]. exists t. split; [done|].
  intros x. rewrite list_elem_of_fmap. split.
  - intros (n & -> & Hn). apply list_elem_of_filter in Hn as [Htag Hn].
    apply list_elem_of_filter in Hn as [Hne Hn].
    exists n. split_and!; try done. by apply bool_decide_unpack in Htag.
  - intros (n & Hn & <- & Hne & Htag). exists n. split; [done|].
    apply list_elem_of_filter. split; [by apply bool_decide_pack|].
    by apply list_elem_of_filter.
Qed.



Section InlineTotal.

































End InlineTotal.





Section Prelude.

Lemma remove_first_head (test : loc → bool) (l : list loc) :
  match head (filter (λ c, test c) l) with
  | Some c => remove_first c l = Some (drop_first test l)
  | None => drop_first test l = l
  end.
Proof.
  induction l as [|c l IH]; [done|].
  rewrite filter_cons. cbn [drop_first]. destruct (test c) eqn:Ec.
  - rewrite decide_True by done. cbn [head remove_first].
    by rewrite decide_True.
  - rewrite decide_False by (intros []).
    destruct (head (filter (λ c, test c) l)) as [c0|] eqn:Eh.
    + cbn [remove_first]. rewrite decide_False.
      * by rewrite IH.
      * intros ->. apply head_Some_elem_of, list_elem_of_filter in Eh as [Ht _].
        by rewrite Ec in Ht.
    + by rewrite IH.
Qed.

Lemma remove_head_first (test : Element → bool) root h e :
  h !! root = Some e →
  remove_head root (findall_children test h root) h
  = Ok (<[root := with_children e
                    (drop_first (λ c, from_option test false (h !! c))
                                (_children e))]> h).
Proof.
  intros He. unfold findall_children, elem_children. rewrite He.
  cbn [from_option].
  pose proof (remove_first_head (λ c, from_option test false (h !! c))
                (_children e)) as H.
  destruct (filter _ (_children e)) as [|c found] eqn:Ef; cbn [head] in H.
  - cbn [remove_head]. rewrite H, with_children_id. by rewrite insert_id.
  - cbn [remove_head]. unfold elem_remove. by rewrite He, H.
Qed.

Lemma drop_first_ext (f g : loc → bool) l :
  (∀ c, f c = g c) → drop_first f l = drop_first g l.
Proof.
  intros E. induction l as [|c l IH]; [done|].
  cbn [drop_first]. by rewrite E, IH.
Qed.

End Prelude.

(** X17: on a root element that the store holds, the removal of the
    editor's elements never raises.  It takes out of the children of the
    root the first one whose tag is in the sodipodi namespace and the
    first one that is an svg [metadata] element, and nothing else: a
    second one of either kind stays, and so does every other object of
    the store. *)
Theorem remove_prelude_first (root : loc) (h : heap) (e : Element) :
  h !! root = Some e →
  remove_prelude root h
  = Ok (<[root := with_children e
                    (drop_first (is_metadata h)
                       (drop_first (is_sodipodi h) (_children e)))]> h).
Proof.
  intros He. unfold remove_prelude.
  rewrite (remove_head_first _ root h e He). cbn [bind].
  erewrite remove_head_first by apply lookup_insert_eq.
  rewrite insert_insert_eq. do 3 f_equal. cbn [_children with_children].
  apply drop_first_ext. intros c. unfold is_metadata.
  destruct (decide (c = root)) as [->|Hc].
  - by rewrite lookup_insert_eq, He.
  - by rewrite lookup_insert_ne.
Qed.

Lemma remove_prelude_first_witness :
  elem_children ref_heap ref_root = [0; 1; 3; 4; 5]
  ∧ ∃ h1, remove_prelude ref_root ref_heap = Ok h1
          ∧ elem_children h1 ref_root = [3; 4; 5].
Proof.
  split; [vm_compute; reflexivity|].
  eexists. split.
  - apply (remove_prelude_first ref_root ref_heap
             (mkElement ("{" +:+ svg_ns +:+ "}svg") [] None None [0; 1; 3; 4; 5])).
    vm_compute. reflexivity.
  - vm_compute. reflexivity.
Defined.

(** X18: a document that is read as a tree after the removal of the
    editor's elements, and in which every [use] element below the root
    has a reference that no element below the root answers to, leaves the
    loop over the [use] elements as it entered it: the loop returns, and
    the [use] elements stay where they are. *)
Theorem dead_links_change_nothing (fuel : nat) (root : loc) (h h1 : heap)
    (t1 : etree) :
  remove_prelude root h = Ok h1 →
  subtree fuel h1 root = Some t1 →
  (∀ n, n ∈ descendants root t1 → tag (root_elem n) = use_tag →
        ∃ href, Dict.get href_key (attrib (root_elem n)) = Some href
                ∧ has_char "'" (slice1 href) = false
                ∧ ∀ m, m ∈ descendants root t1 →
                       Dict.get "id" (attrib (root_elem m)) ≠ Some (slice1 href)) →
  inline_references fuel root h = Some (Returns h1).
Proof.
  intros Hpre Ht Hdead. unfold inline_references. rewrite Hpre, Ht.
  cbn [mbind option_bind].
  destruct (findall_use fuel h1 root) as [uses|] eqn:Eu;
    [|unfold findall_use in Eu; by rewrite Ht in Eu].
  cbn [mbind option_bind].
  destruct (findall_use_spec _ _ _ _ Eu) as (t' & Et' & Huses).
  rewrite Ht in Et'. injection Et' as <-.
  pose proof (subtree_repr _ _ _ _ Ht) as (_ & Hr & _).
  assert (Forall (λ x, inline_use fuel root (parent_map t1) x h1
                       = Some (Returns h1)) uses) as Hall.
  { apply Forall_forall. intros x (n & Hn & <- & Hne & Htag)%Huses.
    assert (n ∈ descendants root t1) as Hd by (by apply list_elem_of_filter).
    destruct (Hdead n Hd Htag) as (href & Hh & Hq & Hid).
    destruct (repr_lookup _ _ _ Hr Hn) as [Hl _].
    unfold inline_use. rewrite Hl. cbn [mbind option_bind]. rewrite Hh.
    unfold find_id. rewrite Hq, Ht. cbn [mbind option_bind].
    destruct (head _) as [m|] eqn:Em; [|done].
    apply head_Some_elem_of, list_elem_of_filter in Em as [Hm1 Hm2].
    by destruct (Hid m Hm2). }
  clear Eu Huses. induction Hall as [|x uses Hx Hall IH]; [done|].
  cbn [inline_all]. by rewrite Hx.
Qed.

Lemma dead_links_change_nothing_witness :
  inline_references 3 (store_of (svg_xml [Xml use_tag [(href_key, "#gone")]
                                              None None []])).1
    (elements (store_of (svg_xml [Xml use_tag [(href_key, "#gone")]
                                      None None []])).2)
  = Some (Returns (elements (store_of (svg_xml [Xml use_tag [(href_key, "#gone")]
                                                    None None []])).2)).
Proof.
  apply (dead_links_change_nothing 3 _ _ _
           (ENode 1 (mkElement ("{" +:+ svg_ns +:+ "}svg") [] None None [0])
              [ENode 0 (mkElement use_tag [(href_key, "#gone")] None None [])
                 []])).
  - vm_compute. reflexivity.
  - vm_compute. reflexivity.
  - intros n Hn _. exists "#gone".
    assert (n = ENode 0 (mkElement use_tag [(href_key, "#gone")] None None [])
                  []) as ->.
    { apply list_elem_of_filter in Hn as [Hne Hn]. cbn [preorder flat_map app] in Hn.
      rewrite !elem_of_cons, elem_of_nil in Hn.
      destruct Hn as [->|[->|[]]]; [|done]. by destruct Hne. }
    split; [reflexivity|]. split; [reflexivity|].
    intros m Hm. apply list_elem_of_filter in Hm as [Hne Hm].
    cbn [preorder flat_map app] in Hm. rewrite !elem_of_cons, elem_of_nil in Hm.
    destruct Hm as [->|[->|[]]]; [by destruct Hne|]. vm_compute. discriminate.
Defined.

(** ** The loop that splits the slides *)

Section ConsumerFacts.

Context {A : Type} (body : Tree → A → Store → option (result A * Store)).

Lemma iter_for_unfold self a s :
  iter_for body self a s =
  let s1 := set_visible self true s in
  '(r, s2) ← (if decide (children self = []) then body self a s1
              else Some (Ok a, s1));
  match r with
  | Raise err => Some (Raise err, s2)
  | Ok a =>
      '(r, s3) ← iter_for_children body (children self) a s2;
      match r with
      | Raise err => Some (Raise err, s3)
      | Ok a => Some (Ok a, set_visible self false s3)
      end
  end.
Proof. by destruct self. Qed.

Lemma for_yields_app ys1 ys2 a :
  for_yields body (ys1 ++ ys2) a
  = match for_yields body ys1 a with
    | Some (Ok a') => for_yields body ys2 a'
    | other => other
    end.
Proof.
  revert a. induction ys1 as [|[leaf sy] ys1 IH]; intros a; [done|].
  cbn [app for_yields]. destruct (body leaf a sy) as [[[a'|e] s']|]; cbn; auto.
Qed.

Lemma extends_refl s : extends s s.
Proof. by split. Qed.

Lemma set_visible_is_Some n v s l :
  is_Some (elements s !! l) → is_Some (elements (set_visible n v s) !! l).
Proof.
  unfold set_visible. destruct (element n) as [l0|]; [|done].
  destruct (elem_truthy (elements s) l0); [|done].
  cbn [elements]. unfold elem_set. intros [e He].
  destruct (decide (l = l0)) as [->|Hl].
  - rewrite lookup_alter_eq, He. by eexists.
  - rewrite lookup_alter_ne by done. by eexists.
Qed.

Lemma extends_set_visible n v s0 s :
  extends s0 s →
  (∀ l, element n = Some l → is_Some (elements s0 !! l)) →
  extends (set_visible n v s0) (set_visible n v s).
Proof.
  intros [Hf He] Hn. unfold set_visible.
  destruct (element n) as [l0|]; [|split; cbn; [by rewrite Hf|done]].
  destruct (Hn l0 eq_refl) as [e0 He0].
  unfold elem_truthy, elem_children. rewrite He0, (He _ _ He0).
  cbn [from_option]. case_bool_decide; (split; cbn; [by rewrite Hf|]); [|done].
  intros l e. unfold elem_set. destruct (decide (l = l0)) as [->|Hl].
  - rewrite !lookup_alter_eq, He0, (He _ _ He0). done.
  - rewrite !lookup_alter_ne by done. apply He.
Qed.

Section Walk.

Hypothesis Hbody : ∀ leaf a s0 s r s1,
  extends s0 s → body leaf a s0 = Some (r, s1) →
  ∃ s', body leaf a s = Some (r, s') ∧ extends s0 s'.

Variable L : list loc.

Let held (s : Store) : Prop := ∀ l, l ∈ L → is_Some (elements s !! l).

Let walks (t : Tree) : Prop :=
  (∀ n l, n ∈ nodes t → element n = Some l → l ∈ L) →
  ∀ a s0 s r,
    extends s0 s → held s0 →
    for_yields body (iter t s0).1 a = Some r →
    ∃ s', iter_for body t a s = Some (r, s')
          ∧ ∀ a', r = Ok a' → extends (iter t s0).2 s'.

Lemma held_iter t s : held s → held (iter t s).2.
Proof.
  intros Hs. apply (iter_invariant held t); [|done].
  intros n v s' _ Hs' l Hl. by apply set_visible_is_Some, Hs'.
Qed.

Lemma iter_for_children_walk cs :
  Forall walks cs →
  (∀ n l, n ∈ flat_map nodes cs → element n = Some l → l ∈ L) →
  ∀ a s0 s r,
    extends s0 s → held s0 →
    for_yields body (iter_children cs s0).1 a = Some r →
    ∃ s', iter_for_children body cs a s = Some (r, s')
          ∧ ∀ a', r = Ok a' → extends (iter_children cs s0).2 s'.
Proof.
  induction 1 as [|c cs Hc _ IH]; intros HL a s0 s r Hext Hheld.
  { cbn. intros [= <-]. exists s. split; [done|]. by intros a' [= <-]. }
  cbn [iter_children iter_for_children flat_map] in *.
  pose proof (held_iter c s0 Hheld) as Hheld'.
  specialize (Hc (λ n l Hn, HL n l (proj2 (elem_of_app _ _ _) (or_introl Hn)))
                a s0 s).
  specialize (IH (λ n l Hn, HL n l (proj2 (elem_of_app _ _ _) (or_intror Hn)))).
  destruct (iter c s0) as [ys s0']. cbn [fst snd] in *.
  specialize (IH) with (s0 := s0').
  destruct (iter_children cs s0') as [ys' s0'']. cbn [fst snd] in *.
  rewrite for_yields_app.
  destruct (for_yields body ys a) as [[a1|e]|] eqn:Ey; [| |done].
  - destruct (Hc (Ok a1) Hext Hheld eq_refl) as (s1 & -> & Hext1).
    cbn [mbind option_bind]. intros Hr.
    apply IH; [exact (Hext1 a1 eq_refl)|done..].
  - intros [= <-]. destruct (Hc (Raise e) Hext Hheld eq_refl) as (s1 & -> & _).
    cbn [mbind option_bind]. exists s1. split; [done|]. by intros a' [=].
Qed.

Lemma iter_for_walk t : walks t.
Proof.
  induction t as [o cs e d IH] using Tree_ind'.
  intros HL a s0 s r Hext Hheld. rewrite iter_unfold, iter_for_unfold.
  cbn [children]. cbn zeta.
  set (self := mkTree o cs e d) in *.
  assert (∀ l, element self = Some l → l ∈ L) as Hself
    by (intros l; apply HL; left).
  assert (∀ v s0' s', extends s0' s' → held s0' →
            extends (set_visible self v s0') (set_visible self v s')) as Hset.
  { intros v s0' s' Hx Hh. apply extends_set_visible; [done|].
    intros l Hl. by apply Hh, Hself. }
  pose proof (Hset true s0 s Hext Hheld) as Hext1.
  assert (held (set_visible self true s0)) as Hheld1
    by (intros l Hl; by apply set_visible_is_Some, Hheld).
  set (s01 := set_visible self true s0) in *.
  set (s1 := set_visible self true s) in *.
  assert (∀ n l, n ∈ flat_map nodes cs → element n = Some l → l ∈ L) as HLcs
    by (intros n l Hn; apply HL; by right).
  pose proof (iter_for_children_walk cs IH HLcs) as Hcs.
  destruct (decide (cs = [])) as [->|Hne].
  - cbn [iter_children iter_for_children fst snd app for_yields] in *.
    destruct (body self a s01) as [[r1 sx]|] eqn:Eb; [|done].
    destruct (Hbody _ _ _ _ _ _ Hext1 Eb) as (s2 & -> & Hext2).
    cbn [mbind option_bind]. destruct r1 as [a1|err]; intros [= <-].
    + eexists. split; [done|]. intros a' [= <-]. by apply Hset.
    + eexists. split; [done|]. by intros a' [=].
  - cbn [app mbind option_bind].
    specialize (Hcs a s01 s1 r Hext1 Hheld1).
    assert (held (iter_children cs s01).2) as Hend.
    { apply (iter_children_invariant held cs); [|
        intros n v s' _ Hs' l Hl; by apply set_visible_is_Some, Hs'|done].
      apply Forall_forall. intros c _ _ s' Hs'.
      apply (iter_invariant held c); [|done].
      intros n v s'' _ Hs'' l Hl. by apply set_visible_is_Some, Hs''. }
    destruct (iter_children cs s01) as [ys s02]. cbn [fst snd] in *.
    intros Hr. destruct (Hcs Hr) as (s3 & -> & Hext3).
    cbn [mbind option_bind]. destruct r as [a1|err].
    + eexists. split; [done|]. intros a' [= <-].
      apply Hset; [exact (Hext3 a1 eq_refl)|apply Hend].
    + eexists. split; [done|]. by intros a' [=].
Qed.

End Walk.

End ConsumerFacts.

Section SplitFacts.

Context {bytes : Type} `{EqDecision bytes}.
Context (tostring : xml → bytes) (parse : bytes → option xml).

Lemma write_extends fuel p path s0 s files r s1 files' :
  extends s0 s →
  write tostring parse fuel p path s0 files = Some (r, s1, files') →
  ∃ s', write tostring parse fuel p path s files = Some (r, s', files')
        ∧ extends s0 s'.
Proof.
  intros [Hf He]. rewrite !write_unfold.
  rewrite (visible_doc_flags (children p) s0 s Hf).
  destruct (visible_doc (children p) s0) as [doc|].
  2:{ intros [= <- <- <-]. by exists s. }
  intros Hw.
  destruct (subtree fuel (elements s0) doc) as [t|] eqn:Et.
  2:{ unfold write_child, filtered_copy, deepcopy in Hw.
      by rewrite Et in Hw. }
  destruct (write_child_spec tostring parse fuel doc path s0 files t Et)
    as (s1' & Hw0 & _).
  rewrite Hw0 in Hw. injection Hw as <- _ <-.
  destruct (write_child_spec tostring parse fuel doc path s files t
              (subtree_frame _ _ _ _ _ He Et)) as (s' & Hw1 & Hf' & He').
  exists s'. split; [done|]. split; [congruence|].
  intros l e Hl. by apply He', He.
Qed.

Lemma write_files fuel p path s files r s' files' :
  write tostring parse fuel p path s files = Some (r, s', files') →
  ∀ q, q ≠ path → files' !! q = files !! q.
Proof.
  rewrite write_unfold.
  destruct (visible_doc (children p) s) as [doc|]; [|by intros [= _ _ <-]].
  unfold write_child.
  destruct (filtered_copy fuel (elements s) doc) as [[[root|err] h2]|];
    cbn [mbind option_bind]; [|by intros [= _ _ <-]|done].
  destruct (subtree fuel h2 root) as [t|]; cbn [fmap option_fmap option_map
    mbind option_bind]; [|done].
  destruct (files !! path) as [content|].
  - destruct (parse content) as [old|]; [|by intros [= _ _ <-]].
    case_decide; intros [= _ _ <-] q Hq; [done|].
    by rewrite lookup_insert_ne.
  - intros [= _ _ <-] q Hq. by rewrite lookup_insert_ne.
Qed.

Lemma split_body_extends fuel p dir leaf a s0 s r s1 :
  extends s0 s →
  split_body tostring parse fuel p dir leaf a s0 = Some (r, s1) →
  ∃ s', split_body tostring parse fuel p dir leaf a s = Some (r, s')
        ∧ extends s0 s'.
Proof.
  intros Hext. unfold split_body. destruct a as [[count files] jobs].
  destruct (write tostring parse fuel p (slot dir count) s0 files)
    as [[[rw sw] fw]|] eqn:Ew; [|done].
  destruct (write_extends _ _ _ _ _ _ _ _ _ Hext Ew) as (s' & -> & Hext').
  cbn [mbind option_bind].
  destruct rw as [change|err]; intros [= <- _]; by exists s'.
Qed.

Lemma for_yields_split fuel p dir ys :
  ∀ count files jobs count' files' jobs',
    for_yields (split_body tostring parse fuel p dir) ys (count, files, jobs)
    = Some (Ok (count', files', jobs')) →
    count' = count + length ys
    ∧ (∀ k, k ∈ jobs' → k ∈ jobs ∨ count ≤ k < count')
    ∧ (∀ q, (∀ k, count ≤ k < count' → q ≠ slot dir k) →
            files' !! q = files !! q).
Proof.
  induction ys as [|[leaf sy] ys IH]; intros count files jobs count' files' jobs'.
  { intros [= <- <- <-]. split_and!; [cbn; lia|by left|done]. }
  cbn [for_yields].
  destruct (split_body tostring parse fuel p dir leaf (count, files, jobs) sy)
    as [[r1 s1]|] eqn:Eb; [|done].
  cbn [mbind option_bind]. unfold split_body in Eb.
  destruct (write tostring parse fuel p (slot dir count) sy files)
    as [[[rw sw] fw]|] eqn:Ew; [|done].
  cbn [mbind option_bind] in Eb.
  destruct rw as [change|err]; injection Eb as <- _; [|done].
  intros (-> & Hj & Hfr)%IH. split_and!.
  - cbn [length]. lia.
  - intros k [Hk|Hk]%Hj; [|right; lia].
    destruct change; [|by left].
    apply elem_of_app in Hk as [?|Hk]; [by left|].
    apply list_elem_of_singleton in Hk as ->.
    right. cbn [length]. lia.
  - intros q Hq. rewrite Hfr.
    + eapply write_files; [done|]. apply Hq. cbn [length]. lia.
    + intros k Hk. apply Hq. lia.
Qed.

End SplitFacts.

Section SplitLoop.

Context {bytes : Type} `{EqDecision bytes}.
Context (tostring : xml → bytes) (parse : bytes → option xml).

(** X19: the loop of [main] that splits the slides, against the walk run
    on its own.  When every element of the forest is in the store, and
    writing slide after slide, each from the store that the walk yields
    for it, comes to the result [r], then the loop comes to [r] as well:
    the copies that [write] makes between two yields change nothing of
    what the walk does next.  When the loop returns, the flags and the
    elements are those that the walk alone leaves, the count is the number
    of leaves of the forest, only slides below that count have been
    handed to the renderers, and no file but the slots of these slides
    has changed. *)
Theorem split_slides_walk (fuel : nat) (presentation : Tree)
    (directory : string) (s : Store) (files : gmap string bytes)
    (r : result (nat * gmap string bytes * list nat)) :
  Forall (λ l, is_Some (elements s !! l)) (omap element (nodes presentation)) →
  for_yields (split_body tostring parse fuel presentation directory)
             (iter presentation s).1 (0, files, []) = Some r →
  ∃ s',
    split_slides tostring parse fuel presentation directory s files
    = Some (r, s')
    ∧ ∀ count files' jobs,
        r = Ok (count, files', jobs) →
        extends (iter presentation s).2 s'
        ∧ count = length (leaves presentation)
        ∧ (∀ k, k ∈ jobs → k < count)
        ∧ (∀ q, (∀ k, k < count → q ≠ slot directory k) →
                files' !! q = files !! q).
Proof.
  intros Hheld Hfy. unfold split_slides.
  destruct (iter_for_walk (split_body tostring parse fuel presentation directory)
              (split_body_extends tostring parse fuel presentation directory)
              (omap element (nodes presentation)) presentation)
    with (a := (0, files, @nil nat)) (s0 := s) (s := s) (r := r)
    as (s' & Hrun & Hext); [|apply extends_refl| |done|].
  { intros n l Hn Hl. apply list_elem_of_omap. eauto. }
  { intros l Hl. by eapply Forall_forall in Hheld. }
  exists s'. split; [done|]. intros count files' jobs ->.
  destruct (for_yields_split _ _ _ _ _ _ _ _ _ _ _ _ Hfy) as (Hc & Hj & Hfr).
  split_and!.
  - by eapply Hext.
  - rewrite Hc, <- (iter_yields presentation s). by rewrite length_fmap.
  - intros k [[]%elem_of_nil|Hk]%Hj. lia.
  - intros q Hq. apply Hfr. intros k Hk. apply Hq. lia.
Qed.

End SplitLoop.

Lemma split_slides_walk_witness :
  ∃ files' s',
    split_slides (bytes := xml) id Some 3 two_presentation "cache" two_built ∅
    = Some (Ok (2, files', [0; 1]), s')
    ∧ is_Some (files' !! "cache/0.svg") ∧ is_Some (files' !! "cache/1.svg").
Proof.
  destruct (for_yields (split_body (bytes := xml) id Some 3 two_presentation
                          "cache")
              (iter two_presentation two_built).1 (0, ∅, []))
    as [[[[c f] j]|e]|] eqn:E; vm_compute in E; try discriminate.
  injection E as <- E <-.
  destruct (split_slides_walk (bytes := xml) id Some 3 two_presentation "cache"
              two_built ∅ (Ok (2, f, [0; 1]))) as (s' & Hs & _).
  - apply (bool_decide_unpack _). vm_compute. exact I.
  - vm_compute. rewrite <- E. reflexivity.
  - exists f, s'. split; [exact Hs|]. rewrite <- E.
    split; vm_compute; eexists; reflexivity.
Defined.


